(** * slskrr: the transfer registry, the reconciler and the identity token

    A shallow embedding of the Go packages [store] (the registry of
    tracked downloads), [sabnzbd] (the reconciliation pass [syncOnce])
    and [newznab] (the token codec [EncodeToken] / [DecodeToken]),
    together with the parts of Go's standard library they call:
    [strings.Contains], [encoding/base64], [encoding/json] at the type
    [FileToken], [strconv] and [unicode/utf8]. The library functions are
    written after the library's code, down to the bit operations.

    Conventions.
    - A Go [string] is a [string]; a Go [[]byte] is a [list byte];
      [[]byte(s)] is [String.list_byte_of_string].
    - [int64] and [int] are [Z] with the two's-complement wrap written out.
    - [time.Time] is the number of nanoseconds since the zero instant, so
      [time.Time{}] is [0]; a reading of [time.Now()] is an argument of
      the operation that takes it.
    - The store's [map[string]*Download] is a [gmap string Download]: no
      pointer into the map escapes the package (every accessor copies).
    - The lock of the store makes every method atomic; the model is the
      sequential behaviour of the methods. *)

From stdpp Require Import gmap strings list fin_maps.
From Stdlib Require Import ZArith Lia ZifyBool Strings.Byte.

Open Scope Z_scope.

(** ** Machine integers *)

Definition wrap64 (z : Z) : Z := (z + 2^63) mod 2^64 - 2^63.

Definition int64_range (z : Z) : Prop := - 2^63 <= z < 2^63.

(** ** Package [store] *)

Module Store.

Definition Status := string.

Definition StatusQueued : Status := "Queued".
Definition StatusDownloading : Status := "Downloading".
Definition StatusCompleted : Status := "Completed".
Definition StatusFailed : Status := "Failed".

Definition Time := Z.

Definition IsZero (t : Time) : bool := t =? 0.

Record Download := mkDownload {
  ID : string;
  Username : string;
  Filename : string;
  Size : Z;
  BytesDownloaded : Z;
  Category : string;
  dlStatus : Status;
  AddedAt : Time;
  CompletedAt : Time;
  Retries : Z;
  MaxRetries : Z;
  TransferID : string
}.

Definition set_progress (bytesDownloaded : Z) (status : Status) (completedAt : Time)
    (d : Download) : Download :=
  mkDownload (ID d) (Username d) (Filename d) (Size d) bytesDownloaded (Category d)
    status (AddedAt d) completedAt (Retries d) (MaxRetries d) (TransferID d).

Definition set_Retries (r : Z) (d : Download) : Download :=
  mkDownload (ID d) (Username d) (Filename d) (Size d) (BytesDownloaded d) (Category d)
    (dlStatus d) (AddedAt d) (CompletedAt d) r (MaxRetries d) (TransferID d).

Definition set_TransferID (t : string) (d : Download) : Download :=
  mkDownload (ID d) (Username d) (Filename d) (Size d) (BytesDownloaded d) (Category d)
    (dlStatus d) (AddedAt d) (CompletedAt d) (Retries d) (MaxRetries d) t.

Abbreviation Store := (gmap string Download).

Definition New : Store := ∅.

(** [hex.EncodeToString]: two lower-case digits per byte. *)
Definition hexdigit (n : N) : Ascii.ascii :=
  if (n <? 10)%N then Ascii.ascii_of_N (48 + n) else Ascii.ascii_of_N (87 + n).

Fixpoint hexEncode (b : list byte) : string :=
  match b with
  | [] => EmptyString
  | x :: r =>
      String (hexdigit (Byte.to_N x / 16)) (String (hexdigit (Byte.to_N x mod 16)) (hexEncode r))
  end.

(** [generateID]; [entropy] is what [rand.Read] put in the 8-byte buffer. *)
Definition generateID (entropy : list byte) : string :=
  String.append "SABnzbd_nzo_" (hexEncode entropy).

(** [Add]: the new entry is stored under the generated id, replacing
    whatever the map held there. *)
Definition Add (entropy : list byte) (now : Time) (username filename : string)
    (size : Z) (category : string) (s : Store) : Store * string :=
  let id := generateID entropy in
  (<[id := mkDownload id username filename size 0 category StatusQueued now 0 0 3 ""]> s, id).

Definition Get (id : string) (s : Store) : option Download := s !! id.

Definition terminal (status : Status) : bool :=
  String.eqb status StatusCompleted || String.eqb status StatusFailed.

Definition UpdateTransfer (now : Time) (id : string) (bytesDownloaded : Z)
    (status : Status) (s : Store) : Store :=
  match s !! id with
  | None => s
  | Some dl =>
      let completedAt :=
        if terminal status && IsZero (CompletedAt dl) then now else CompletedAt dl in
      <[id := set_progress bytesDownloaded status completedAt dl]> s
  end.

Definition IncrementRetry (id : string) (s : Store) : Store * bool :=
  match s !! id with
  | None => (s, false)
  | Some dl =>
      let dl1 := set_Retries (wrap64 (Retries dl + 1)) dl in
      if Retries dl1 >? MaxRetries dl1 then (<[id := dl1]> s, false)
      else (<[id := set_progress 0 StatusQueued 0 dl1]> s, true)
  end.

Definition SetTransferID (id transferID : string) (s : Store) : Store :=
  match s !! id with
  | Some dl => <[id := set_TransferID transferID dl]> s
  | None => s
  end.

Definition Remove (id : string) (s : Store) : Store := delete id s.

(** The three listings range over the map; Go leaves the order open, the
    model takes the order of [map_to_list]. *)
Definition All (s : Store) : list Download := (map_to_list s).*2.

Definition in_queue (dl : Download) : bool :=
  String.eqb (dlStatus dl) StatusQueued || String.eqb (dlStatus dl) StatusDownloading.

Definition in_history (dl : Download) : bool :=
  String.eqb (dlStatus dl) StatusCompleted || String.eqb (dlStatus dl) StatusFailed.

Definition Queue (s : Store) : list Download := List.filter in_queue (All s).

Definition History (s : Store) : list Download := List.filter in_history (All s).

Definition FindByFile (username filename : string) (s : Store) : option Download :=
  List.find (fun dl => String.eqb (Username dl) username && String.eqb (Filename dl) filename)
    (All s).

(** *** Histories of calls *)

Inductive Op :=
| OpAdd (entropy : list byte) (now : Time) (username filename : string)
    (size : Z) (category : string)
| OpUpdateTransfer (now : Time) (id : string) (bytesDownloaded : Z) (status : Status)
| OpIncrementRetry (id : string)
| OpSetTransferID (id transferID : string)
| OpRemove (id : string).

Definition run_op (op : Op) (s : Store) : Store :=
  match op with
  | OpAdd e now u f sz c => fst (Add e now u f sz c s)
  | OpUpdateTransfer now id b st => UpdateTransfer now id b st s
  | OpIncrementRetry id => fst (IncrementRetry id s)
  | OpSetTransferID id t => SetTransferID id t s
  | OpRemove id => Remove id s
  end.

Definition run_ops (ops : list Op) (s : Store) : Store :=
  fold_left (fun s op => run_op op s) ops s.

Definition valid_status (st : Status) : Prop :=
  st = StatusQueued ∨ st = StatusDownloading ∨ st = StatusCompleted ∨ st = StatusFailed.

(** A call the program can make: [UpdateTransfer] gets one of the four
    status constants. *)
Definition op_ok (op : Op) : Prop :=
  match op with
  | OpUpdateTransfer _ _ _ st => valid_status st
  | _ => True
  end.

Inductive reachable : Store → Prop :=
| reach_New : reachable New
| reach_step s op : reachable s → op_ok op → reachable (run_op op s).

End Store.

(** ** Standard library: [strings] *)

Module Strings.

Fixpoint HasPrefix (s prefix : string) : bool :=
  match prefix, s with
  | EmptyString, _ => true
  | String c p, String d r => Ascii.eqb c d && HasPrefix r p
  | String _ _, EmptyString => false
  end.

(** [strings.Contains s substr]: [substr] starts at some index of [s]. *)
Fixpoint Contains (s substr : string) : bool :=
  HasPrefix s substr ||
  match s with
  | EmptyString => false
  | String _ r => Contains r substr
  end.

End Strings.

(** ** Package [slskd]: the transfer snapshot *)

Module Slskd.

(** [Transfer]; the [float64] field [AverageSpeed] is read by nothing
    that is modelled here and is left out. *)
Record Transfer := mkTransfer {
  ID : string;
  Username : string;
  Direction : string;
  Filename : string;
  Size : Z;
  BytesTransferred : Z;
  State : string
}.

Record DirectoryTransferGroup := mkDirectoryTransferGroup {
  Directory : string;
  Files : list Transfer
}.

(** [UserTransferGroup]; its field [Username] is [GroupUsername] here. *)
Record UserTransferGroup := mkUserTransferGroup {
  GroupUsername : string;
  Directories : list DirectoryTransferGroup
}.

End Slskd.

(** ** Package [sabnzbd]: one reconciliation pass *)

Module Sabnzbd.

Import Store.

Abbreviation transferKey := (string * string)%type.

Abbreviation Transfers := (gmap (string * string) Slskd.Transfer).

(** The three nested loops that fill [transfers]; a later file with the
    same key replaces an earlier one. *)
Definition addFiles (username : string) (files : list Slskd.Transfer) (m : Transfers)
    : Transfers :=
  fold_left (fun m t => <[(username, Slskd.Filename t) := t]> m) files m.

Definition addDirectories (username : string) (dirs : list Slskd.DirectoryTransferGroup)
    (m : Transfers) : Transfers :=
  fold_left (fun m d => addFiles username (Slskd.Files d) m) dirs m.

Definition buildTransfers (groups : list Slskd.UserTransferGroup) : Transfers :=
  fold_left (fun m g => addDirectories (Slskd.GroupUsername g) (Slskd.Directories g) m)
    groups ∅.

(** The [switch] of [syncOnce] on [t.State]. *)
Definition newStatus (state : string) : Status :=
  if Strings.Contains state "Completed" && Strings.Contains state "Succeeded"
  then StatusCompleted
  else if Strings.Contains state "Completed" then StatusFailed
  else if Strings.Contains state "InProgress" then StatusDownloading
  else StatusQueued.

(** The body of the loop over [h.Store.All()] for one copied entry [dl]. *)
Definition syncEntry (transfers : Transfers) (now : Time) (dl : Download) (s : Store)
    : Store :=
  if String.eqb (dlStatus dl) StatusCompleted || String.eqb (dlStatus dl) StatusFailed
  then s
  else
    match transfers !! (Store.Username dl, Store.Filename dl) with
    | None => s
    | Some t =>
        UpdateTransfer now (Store.ID dl) (Slskd.BytesTransferred t)
          (newStatus (Slskd.State t)) s
    end.

(** The loop; [clock i] is what [time.Now()] reads during iteration [i]. *)
Fixpoint syncLoop (transfers : Transfers) (clock : nat → Time) (i : nat)
    (snapshot : list Download) (s : Store) : Store :=
  match snapshot with
  | [] => s
  | dl :: rest => syncLoop transfers clock (S i) rest (syncEntry transfers (clock i) dl s)
  end.

(** [syncOnce]; [fetched] is the result of [GetAllDownloads], [None] for
    an error. *)
Definition syncOnce (fetched : option (list Slskd.UserTransferGroup)) (clock : nat → Time)
    (s : Store) : Store :=
  match fetched with
  | None => s
  | Some groups => syncLoop (buildTransfers groups) clock 0 (All s) s
  end.

End Sabnzbd.

(** ** Bytes *)

(** The value of a byte, and Go's conversion [byte(x)] of an integer. *)
Definition b2z (b : byte) : Z := Z.of_N (Byte.to_N b).

Definition z2b (z : Z) : byte :=
  match Byte.of_N (Z.to_N (z mod 256)) with
  | Some b => b
  | None => x00
  end.

(** ** Standard library: [unicode/utf8]

    Runes are [Z]; the results of [DecodeRune] are the rune and its
    width. *)

Module Utf8.

Definition RuneError : Z := 0xFFFD.
Definition MaxRune : Z := 0x10FFFF.
Definition RuneSelf : Z := 0x80.
Definition surrogateMin : Z := 0xD800.
Definition surrogateMax : Z := 0xDFFF.

(** The table [first]: [0xF0] for ASCII, [0xF1] for a byte that starts no
    sequence, otherwise the index of the accept range in the high nibble
    and the length of the sequence in the low one. *)
Definition first (p0 : Z) : Z :=
  if p0 <? 0x80 then 0xF0
  else if p0 <? 0xC2 then 0xF1
  else if p0 <? 0xE0 then 0x02
  else if p0 =? 0xE0 then 0x13
  else if p0 <? 0xED then 0x03
  else if p0 =? 0xED then 0x23
  else if p0 <? 0xF0 then 0x03
  else if p0 =? 0xF0 then 0x34
  else if p0 <? 0xF4 then 0x04
  else if p0 =? 0xF4 then 0x44
  else 0xF1.

(** [acceptRanges]: the bounds of the second byte. *)
Definition acceptRanges (i : Z) : Z * Z :=
  if i =? 1 then (0xA0, 0xBF)
  else if i =? 2 then (0x80, 0x9F)
  else if i =? 3 then (0x90, 0xBF)
  else if i =? 4 then (0x80, 0x8F)
  else (0x80, 0xBF).

Definition byte_at (p : list byte) (i : nat) : Z := b2z (nth i p x00).

(** [DecodeRune]: the rune at the head of [p] and its width in bytes;
    [(RuneError, 1)] for a byte that starts no well-formed sequence. *)
Definition DecodeRune (p : list byte) : Z * nat :=
  match p with
  | [] => (RuneError, 0%nat)
  | _ =>
      let n := Z.of_nat (length p) in
      let p0 := byte_at p 0 in
      let x := first p0 in
      if 0xF0 <=? x then ((if Z.testbit x 0 then RuneError else p0), 1%nat)
      else
        let sz := Z.land x 7 in
        let '(lo, hi) := acceptRanges (Z.shiftr x 4) in
        if n <? sz then (RuneError, 1%nat)
        else
          let b1 := byte_at p 1 in
          if (b1 <? lo) || (hi <? b1) then (RuneError, 1%nat)
          else if sz <=? 2
          then (Z.lor (Z.shiftl (Z.land p0 0x1F) 6) (Z.land b1 0x3F), 2%nat)
          else
            let b2 := byte_at p 2 in
            if (b2 <? 0x80) || (0xBF <? b2) then (RuneError, 1%nat)
            else if sz <=? 3
            then (Z.lor (Z.lor (Z.shiftl (Z.land p0 0x0F) 12) (Z.shiftl (Z.land b1 0x3F) 6))
                    (Z.land b2 0x3F), 3%nat)
            else
              let b3 := byte_at p 3 in
              if (b3 <? 0x80) || (0xBF <? b3) then (RuneError, 1%nat)
              else (Z.lor (Z.lor (Z.lor (Z.shiftl (Z.land p0 0x07) 18)
                                    (Z.shiftl (Z.land b1 0x3F) 12))
                             (Z.shiftl (Z.land b2 0x3F) 6))
                      (Z.land b3 0x3F), 4%nat)
  end.

Definition encode3 (r : Z) : list byte :=
  [z2b (Z.lor 0xE0 (b2z (z2b (Z.shiftr r 12))));
   z2b (Z.lor 0x80 (Z.land (b2z (z2b (Z.shiftr r 6))) 0x3F));
   z2b (Z.lor 0x80 (Z.land (b2z (z2b r)) 0x3F))].

(** [EncodeRune], as the bytes it writes; [r] is an [int32]. *)
Definition EncodeRune (r : Z) : list byte :=
  let i := r mod 2^32 in
  if i <=? 0x7F then [z2b r]
  else if i <=? 0x7FF
  then [z2b (Z.lor 0xC0 (b2z (z2b (Z.shiftr r 6))));
        z2b (Z.lor 0x80 (Z.land (b2z (z2b r)) 0x3F))]
  else if (MaxRune <? i) || ((surrogateMin <=? i) && (i <=? surrogateMax))
  then encode3 RuneError
  else if i <=? 0xFFFF then encode3 r
  else [z2b (Z.lor 0xF0 (b2z (z2b (Z.shiftr r 18))));
        z2b (Z.lor 0x80 (Z.land (b2z (z2b (Z.shiftr r 12))) 0x3F));
        z2b (Z.lor 0x80 (Z.land (b2z (z2b (Z.shiftr r 6))) 0x3F));
        z2b (Z.lor 0x80 (Z.land (b2z (z2b r)) 0x3F))].

End Utf8.

(** ** Standard library: [strconv] *)

Module Strconv.

Definition digit (d : Z) : byte := z2b (48 + d).

(** The digit loop of [formatBits] in base 10, most significant digit
    first; twenty rounds cover every [uint64]. *)
Fixpoint formatBits (rounds : nat) (u : Z) (acc : list byte) : list byte :=
  match rounds with
  | O => acc
  | S k =>
      if u <? 10 then digit u :: acc
      else formatBits k (u / 10) (digit (u mod 10) :: acc)
  end.

(** [FormatInt i 10] for an [int64]. *)
Definition FormatInt (i : Z) : list byte :=
  if i <? 0 then x2d :: formatBits 20 (- i) [] else formatBits 20 i [].

Definition isDigit (c : byte) : bool := (48 <=? b2z c) && (b2z c <=? 57).

(** The digit loop of [ParseUint] in base 10, without its overflow
    check: [None] for a byte that is no digit. *)
Fixpoint parseDigits (acc : Z) (s : list byte) : option Z :=
  match s with
  | [] => Some acc
  | c :: r => if isDigit c then parseDigits (acc * 10 + (b2z c - 48)) r else None
  end.

Definition parseUnsigned (s : list byte) : option Z :=
  match s with
  | [] => None
  | _ => parseDigits 0 s
  end.

(** [ParseInt s 10 64]: an optional sign, then digits only; [None] for
    a syntax error and for a value outside [int64]. *)
Definition ParseInt (s : list byte) : option Z :=
  let signed :=
    match s with
    | c :: r =>
        if b2z c =? 0x2d then option_map Z.opp (parseUnsigned r)
        else if b2z c =? 0x2b then parseUnsigned r
        else parseUnsigned s
    | [] => None
    end in
  match signed with
  | Some v => if (- 2^63 <=? v) && (v <? 2^63) then Some v else None
  | None => None
  end.

End Strconv.

(** ** Standard library: [encoding/base64], the encoding [URLEncoding] *)

Module Base64.

Definition encodeURL : list byte :=
  String.list_byte_of_string "ABCDEFGHIJKLMNOPQRSTUVWXYZabcdefghijklmnopqrstuvwxyz0123456789-_".

Definition padChar : byte := x3d.

(** [enc.encode[v]] for [v] below 64. *)
Definition encode (v : Z) : byte := nth (Z.to_nat v) encodeURL x00.

Fixpoint index_of (c : byte) (l : list byte) (i : Z) : option Z :=
  match l with
  | [] => None
  | x :: r => if Byte.eqb x c then Some i else index_of c r (i + 1)
  end.

(** [enc.decodeMap[c]]; [None] stands for the entry [0xff]. *)
Definition decodeMap (c : byte) : option Z := index_of c encodeURL 0.

Definition quantum (b0 b1 b2 : Z) : Z :=
  Z.lor (Z.lor (Z.shiftl b0 16) (Z.shiftl b1 8)) b2.

(** The six bits of [val] from bit [shift] on, and their digit. *)
Definition digit6 (val : Z) (shift : Z) : Z := Z.land (Z.shiftr val shift) 0x3F.

Definition sextet (val : Z) (shift : Z) : byte := encode (digit6 val shift).

(** [Encode]: three bytes give four digits; a rest of one or two bytes
    is padded to four. *)
Fixpoint Encode (src : list byte) : list byte :=
  match src with
  | [] => []
  | [b0] =>
      let val := Z.shiftl (b2z b0) 16 in
      [sextet val 18; sextet val 12; padChar; padChar]
  | [b0; b1] =>
      let val := Z.lor (Z.shiftl (b2z b0) 16) (Z.shiftl (b2z b1) 8) in
      [sextet val 18; sextet val 12; sextet val 6; padChar]
  | b0 :: b1 :: b2 :: rest =>
      let val := quantum (b2z b0) (b2z b1) (b2z b2) in
      sextet val 18 :: sextet val 12 :: sextet val 6 :: sextet val 0 :: Encode rest
  end.

Definition EncodeToString (src : list byte) : string :=
  String.string_of_list_byte (Encode src).

Definition isNewline (c : byte) : bool :=
  match c with
  | x0a | x0d => true
  | _ => false
  end.

Fixpoint skipNewlines (src : list byte) : list byte :=
  match src with
  | c :: r => if isNewline c then skipNewlines r else src
  | [] => []
  end.

(** The bytes of a quantum of [dlen] digits; [dbuf] holds the digits
    read, the missing ones are zero. *)
Definition quantumBytes (dbuf : list Z) (dlen : nat) : list byte :=
  let val :=
    Z.lor (Z.lor (Z.lor (Z.shiftl (nth 0 dbuf 0) 18) (Z.shiftl (nth 1 dbuf 0) 12))
             (Z.shiftl (nth 2 dbuf 0) 6))
      (nth 3 dbuf 0) in
  firstn (dlen - 1) [z2b (Z.shiftr val 16); z2b (Z.shiftr val 8); z2b val].

(** [Decode]: the loop over [decodeQuantum]. [dbuf] holds the digits of
    the quantum being read. Line breaks are skipped; padding closes the
    input; the bits of the last digit that belong to no byte are not
    checked. [None] is a [CorruptInputError]. *)
Fixpoint Decode (dbuf : list Z) (src : list byte) : option (list byte) :=
  match src with
  | [] =>
      match dbuf with
      | [] => Some []
      | _ => None
      end
  | c :: rest =>
      match decodeMap c with
      | Some out =>
          let dbuf' := dbuf ++ [out] in
          if (length dbuf' =? 4)%nat
          then option_map (app (quantumBytes dbuf' 4)) (Decode [] rest)
          else Decode dbuf' rest
      | None =>
          if isNewline c then Decode dbuf rest
          else if negb (Byte.eqb c padChar) then None
          else
            match length dbuf with
            | 0%nat | 1%nat => None
            | 2%nat =>
                match skipNewlines rest with
                | [] => None
                | c' :: rest' =>
                    if negb (Byte.eqb c' padChar) then None
                    else
                      match skipNewlines rest' with
                      | [] => Some (quantumBytes dbuf 2)
                      | _ => None
                      end
                end
            | _ =>
                match skipNewlines rest with
                | [] => Some (quantumBytes dbuf 3)
                | _ => None
                end
            end
      end
  end.

Definition DecodeString (s : string) : option (list byte) :=
  Decode [] (String.list_byte_of_string s).

End Base64.

(** ** Standard library: [encoding/json]

    [Marshal] and [Unmarshal] as they behave at the type [FileToken] of
    package [newznab]: the encoder of strings with HTML escaping, the
    scanner's grammar, [unquoteBytes], and the decoding of an object
    into a struct with [string] and [int64] fields. *)

Module Json.

(** *** Encoding a string *)

Definition hex : list byte := String.list_byte_of_string "0123456789abcdef".

Definition hexDigit (v : Z) : byte := nth (Z.to_nat v) hex x00.

(** [htmlSafeSet]: the ASCII bytes that are written as they are. *)
Definition htmlSafeSet (b : Z) : bool :=
  (0x20 <=? b) && (b <? 0x80)
  && negb ((b =? 0x22) || (b =? 0x5c) || (b =? 0x3c) || (b =? 0x3e) || (b =? 0x26)).

(** The escape written for an ASCII byte outside [htmlSafeSet]. *)
Definition escapeByte (b : byte) : list byte :=
  match b with
  | x5c | x22 => [x5c; b]
  | x08 => [x5c; x62]
  | x0c => [x5c; x66]
  | x0a => [x5c; x6e]
  | x0d => [x5c; x72]
  | x09 => [x5c; x74]
  | _ => [x5c; x75; x30; x30; hexDigit (Z.shiftr (b2z b) 4); hexDigit (Z.land (b2z b) 0xF)]
  end.

Definition escapeFFFD : list byte := [x5c; x75; x66; x66; x66; x64].

Definition escape202 (c : Z) : list byte :=
  [x5c; x75; x32; x30; x32; hexDigit (Z.land c 0xF)].

(** The loop of [appendString] with [escapeHTML] set, between the two
    quotes: what is written for the rune at the head, then the rest. *)
Fixpoint appendStringBody (src : list byte) : list byte :=
  match src with
  | [] => []
  | b :: rest =>
      if b2z b <? Utf8.RuneSelf
      then (if htmlSafeSet (b2z b) then [b] else escapeByte b) ++ appendStringBody rest
      else
        let '(c, size) := Utf8.DecodeRune src in
        if (c =? Utf8.RuneError) && (size =? 1)%nat
        then escapeFFFD ++ appendStringBody rest
        else
          let out := if (c =? 0x2028) || (c =? 0x2029) then escape202 c else firstn size src in
          match size, rest with
          | 2%nat, _ :: r => out ++ appendStringBody r
          | 3%nat, _ :: _ :: r => out ++ appendStringBody r
          | 4%nat, _ :: _ :: _ :: r => out ++ appendStringBody r
          | _, _ => out ++ appendStringBody rest
          end
  end.

Definition appendString (src : list byte) : list byte :=
  x22 :: appendStringBody src ++ [x22].

(** *** Decoding a string literal *)

Definition hexVal (c : byte) : option Z :=
  let v := b2z c in
  if (48 <=? v) && (v <=? 57) then Some (v - 48)
  else if (97 <=? v) && (v <=? 102) then Some (v - 97 + 10)
  else if (65 <=? v) && (v <=? 70) then Some (v - 65 + 10)
  else None.

Definition hex4 (h1 h2 h3 h4 : byte) : option Z :=
  match hexVal h1, hexVal h2, hexVal h3, hexVal h4 with
  | Some a, Some b, Some c, Some d => Some (((a * 16 + b) * 16 + c) * 16 + d)
  | _, _, _, _ => None
  end.

(** [getu4]: the value of the escape at the head, or [-1]. *)
Definition getu4 (s : list byte) : Z :=
  match s with
  | c0 :: c1 :: h1 :: h2 :: h3 :: h4 :: _ =>
      if negb (b2z c0 =? 0x5c) || negb (b2z c1 =? 0x75) then -1
      else
        match hex4 h1 h2 h3 h4 with
        | Some r => r
        | None => -1
        end
  | _ => -1
  end.

(** [utf16.IsSurrogate] and [utf16.DecodeRune]. *)
Definition IsSurrogate (r : Z) : bool := (0xd800 <=? r) && (r <? 0xe000).

Definition utf16DecodeRune (r1 r2 : Z) : Z :=
  if (0xd800 <=? r1) && (r1 <? 0xdc00) && (0xdc00 <=? r2) && (r2 <? 0xe000)
  then Z.lor (Z.shiftl (r1 - 0xd800) 10) (r2 - 0xdc00) + 0x10000
  else Utf8.RuneError.

(** Prepends [out] to the text a scan returns. *)
Definition cons_out (out : list byte) (k : option (list byte * list byte))
    : option (list byte * list byte) :=
  match k with
  | Some (s, rest) => Some (out ++ s, rest)
  | None => None
  end.

(** The byte a one-letter escape stands for. *)
Definition simpleEscape (e : Z) : option byte :=
  if (e =? 0x22) || (e =? 0x5c) || (e =? 0x2f) then Some (z2b e)
  else if e =? 0x62 then Some x08
  else if e =? 0x66 then Some x0c
  else if e =? 0x6e then Some x0a
  else if e =? 0x72 then Some x0d
  else if e =? 0x74 then Some x09
  else None.

(** A string literal after its opening quote: the scanner's check of the
    literal and the loop of [unquoteBytes] on it, in one pass over the
    input. The result is the unquoted text and the input after the
    closing quote; [None] is a syntax error. Bytes that are not
    well-formed UTF-8 come out as U+FFFD. [DecodeRune] and [getu4] are
    given the input from the current byte on rather than the literal
    alone: the closing quote is no continuation byte and starts no
    escape, so what follows the literal changes neither. *)
Fixpoint scanString (l : list byte) : option (list byte * list byte) :=
  match l with
  | [] => None
  | c :: rest =>
      if b2z c =? 0x22 then Some ([], rest)
      else if b2z c =? 0x5c
      then
        match rest with
        | [] => None
        | e :: rest1 =>
            if b2z e =? 0x75
            then
              match rest1 with
              | h1 :: h2 :: h3 :: h4 :: rest5 =>
                  match hex4 h1 h2 h3 h4 with
                  | None => None
                  | Some rr =>
                      if IsSurrogate rr
                      then
                        let dec := utf16DecodeRune rr (getu4 rest5) in
                        if negb (dec =? Utf8.RuneError)
                        then
                          match rest5 with
                          | _ :: _ :: _ :: _ :: _ :: _ :: rest11 =>
                              cons_out (Utf8.EncodeRune dec) (scanString rest11)
                          | _ => None
                          end
                        else cons_out (Utf8.EncodeRune Utf8.RuneError) (scanString rest5)
                      else cons_out (Utf8.EncodeRune rr) (scanString rest5)
                  end
              | _ => None
              end
            else
              match simpleEscape (b2z e) with
              | Some b => cons_out [b] (scanString rest1)
              | None => None
              end
        end
      else if b2z c <? 0x20 then None
      else if b2z c <? Utf8.RuneSelf then cons_out [c] (scanString rest)
      else
        let '(rr, size) := Utf8.DecodeRune l in
        match size, rest with
        | 2%nat, _ :: r => cons_out (Utf8.EncodeRune rr) (scanString r)
        | 3%nat, _ :: _ :: r => cons_out (Utf8.EncodeRune rr) (scanString r)
        | 4%nat, _ :: _ :: _ :: r => cons_out (Utf8.EncodeRune rr) (scanString r)
        | _, _ => cons_out (Utf8.EncodeRune rr) (scanString rest)
        end
  end.

(** *** Values *)

#[warnings="-register-all"]
Inductive Value :=
| Null
| Bool (b : bool)
| Number (literal : list byte)
| Str (s : list byte)
| Array (elems : list Value)
| Object (members : list (list byte * Value)).

Definition isSpace (c : byte) : bool :=
  (b2z c =? 0x20) || (b2z c =? 0x09) || (b2z c =? 0x0d) || (b2z c =? 0x0a).

Fixpoint skipSpace (l : list byte) : list byte :=
  match l with
  | c :: r => if isSpace c then skipSpace r else l
  | [] => []
  end.

(** The longest run of digits at the head, and what follows it. *)
Fixpoint spanDigits (l : list byte) : list byte * list byte :=
  match l with
  | c :: r =>
      if Strconv.isDigit c then let '(ds, rest) := spanDigits r in (c :: ds, rest)
      else ([], l)
  | [] => ([], [])
  end.

(** The digits a fraction or an exponent needs: at least one. *)
Definition someDigits (l : list byte) : option (list byte * list byte) :=
  match spanDigits l with
  | ([], _) => None
  | (ds, rest) => Some (ds, rest)
  end.

Definition scanSign (l : list byte) : list byte * list byte :=
  match l with
  | c :: r => if b2z c =? 0x2d then ([c], r) else ([], l)
  | [] => ([], l)
  end.

Definition scanInt (l : list byte) : option (list byte * list byte) :=
  match l with
  | c :: r =>
      if b2z c =? 0x30 then Some ([c], r)
      else if Strconv.isDigit c then let '(ds, rest) := spanDigits r in Some (c :: ds, rest)
      else None
  | [] => None
  end.

Definition scanFrac (l : list byte) : option (list byte * list byte) :=
  match l with
  | c :: r =>
      if b2z c =? 0x2e
      then match someDigits r with
           | Some (ds, rest) => Some (c :: ds, rest)
           | None => None
           end
      else Some ([], l)
  | [] => Some ([], l)
  end.

Definition scanExp (l : list byte) : option (list byte * list byte) :=
  match l with
  | e :: r =>
      if (b2z e =? 0x65) || (b2z e =? 0x45)
      then
        let '(esign, r1) :=
          match r with
          | sg :: r' => if (b2z sg =? 0x2b) || (b2z sg =? 0x2d) then ([sg], r') else ([], r)
          | [] => ([], r)
          end in
        match someDigits r1 with
        | Some (ds, rest) => Some (e :: esign ++ ds, rest)
        | None => None
        end
      else Some ([], l)
  | [] => Some ([], l)
  end.

(** A number literal: the longest head of the input the scanner's number
    states accept; [None] when the head is no number. *)
Definition scanNumber (l : list byte) : option (list byte * list byte) :=
  let '(sign, l1) := scanSign l in
  match scanInt l1 with
  | None => None
  | Some (ip, l2) =>
      match scanFrac l2 with
      | None => None
      | Some (fp, l3) =>
          match scanExp l3 with
          | None => None
          | Some (ep, l4) => Some (sign ++ ip ++ fp ++ ep, l4)
          end
      end
  end.

Fixpoint stripPrefix (p l : list byte) : option (list byte) :=
  match p with
  | [] => Some l
  | x :: p' =>
      match l with
      | y :: l' => if Byte.eqb x y then stripPrefix p' l' else None
      | [] => None
      end
  end.

(** A literal [true], [false] or [null] after its first letter. *)
Definition scanLiteral (tail : string) (v : Value) (l : list byte)
    : option (Value * list byte) :=
  match stripPrefix (String.list_byte_of_string tail) l with
  | Some r => Some (v, r)
  | None => None
  end.

Definition maxNestingDepth : Z := 10000.

(** One JSON value at the head of the input, after optional white
    space, with the input that follows it. [depth] counts the arrays and
    objects that are open; [fuel] bounds the number of nested calls and
    is taken larger than the input is long. *)
Fixpoint parseValue (fuel : nat) (depth : Z) (l : list byte)
    : option (Value * list byte) :=
  match fuel with
  | O => None
  | S fuel' =>
      match skipSpace l with
      | [] => None
      | c :: r =>
          if b2z c =? 0x7b
          then
            if maxNestingDepth <? depth + 1 then None
            else
              match skipSpace r with
              | [] => None
              | c' :: r' =>
                  if b2z c' =? 0x7d then Some (Object [], r')
                  else
                    match parseMembers fuel' (depth + 1) (c' :: r') with
                    | Some (ms, r'') => Some (Object ms, r'')
                    | None => None
                    end
              end
          else if b2z c =? 0x5b
          then
            if maxNestingDepth <? depth + 1 then None
            else
              match skipSpace r with
              | [] => None
              | c' :: r' =>
                  if b2z c' =? 0x5d then Some (Array [], r')
                  else
                    match parseElements fuel' (depth + 1) (c' :: r') with
                    | Some (vs, r'') => Some (Array vs, r'')
                    | None => None
                    end
              end
          else if b2z c =? 0x22
          then
            match scanString r with
            | Some (s, r') => Some (Str s, r')
            | None => None
            end
          else if b2z c =? 0x74 then scanLiteral "rue" (Bool true) r
          else if b2z c =? 0x66 then scanLiteral "alse" (Bool false) r
          else if b2z c =? 0x6e then scanLiteral "ull" Null r
          else
            match scanNumber (c :: r) with
            | Some (lit, r') => Some (Number lit, r')
            | None => None
            end
      end
  end
with parseMembers (fuel : nat) (depth : Z) (l : list byte)
    : option (list (list byte * Value) * list byte) :=
  match fuel with
  | O => None
  | S fuel' =>
      match skipSpace l with
      | [] => None
      | c :: r =>
          if negb (b2z c =? 0x22) then None
          else
            match scanString r with
            | None => None
            | Some (key, r1) =>
                match skipSpace r1 with
                | [] => None
                | c1 :: r2 =>
                    if negb (b2z c1 =? 0x3a) then None
                    else
                      match parseValue fuel' depth r2 with
                      | None => None
                      | Some (v, r3) =>
                          match skipSpace r3 with
                          | [] => None
                          | c3 :: r4 =>
                              if b2z c3 =? 0x2c
                              then
                                match parseMembers fuel' depth r4 with
                                | Some (ms, r5) => Some ((key, v) :: ms, r5)
                                | None => None
                                end
                              else if b2z c3 =? 0x7d then Some ([(key, v)], r4)
                              else None
                          end
                      end
                end
            end
      end
  end
with parseElements (fuel : nat) (depth : Z) (l : list byte)
    : option (list Value * list byte) :=
  match fuel with
  | O => None
  | S fuel' =>
      match parseValue fuel' depth l with
      | None => None
      | Some (v, r1) =>
          match skipSpace r1 with
          | [] => None
          | c :: r2 =>
              if b2z c =? 0x2c
              then
                match parseElements fuel' depth r2 with
                | Some (vs, r3) => Some (v :: vs, r3)
                | None => None
                end
              else if b2z c =? 0x5d then Some ([v], r2)
              else None
          end
      end
  end.

(** [checkValid] and the parse in one: the whole input is one value
    between optional white space. *)
Definition parse (data : list byte) : option Value :=
  match parseValue (S (length data)) 0 data with
  | Some (v, rest) =>
      match skipSpace rest with
      | [] => Some v
      | _ => None
      end
  | None => None
  end.

Inductive Error :=
| SyntaxError
| UnmarshalTypeError.

End Json.

(** ** Package [newznab]: the identity token *)

Module Newznab.

Record FileToken := mkFileToken {
  Username : string;
  Filename : string;
  Size : Z
}.

(** [json.Marshal] at the type [FileToken]: the three members in the
    order of the fields, under the names of their tags. *)
Definition marshal (t : FileToken) : list byte :=
  [x7b; x22; x75; x22; x3a] ++ Json.appendString (String.list_byte_of_string (Username t))
  ++ [x2c; x22; x66; x22; x3a] ++ Json.appendString (String.list_byte_of_string (Filename t))
  ++ [x2c; x22; x73; x22; x3a] ++ Strconv.FormatInt (Size t)
  ++ [x7d].

Inductive Field :=
| FieldUsername
| FieldFilename
| FieldSize.

(** The field an object key selects: the tag itself or a key that
    equals it under Unicode case folding, which for the three tags is
    the capital letter and, for [s], the long s U+017F. *)
Definition fieldOf (key : list byte) : option Field :=
  match key with
  | [c] =>
      let v := b2z c in
      if (v =? 0x75) || (v =? 0x55) then Some FieldUsername
      else if (v =? 0x66) || (v =? 0x46) then Some FieldFilename
      else if (v =? 0x73) || (v =? 0x53) then Some FieldSize
      else None
  | [c1; c2] => if (b2z c1 =? 0xC5) && (b2z c2 =? 0xBF) then Some FieldSize else None
  | _ => None
  end.

(** Storing a value in a [string] field and in an [int64] field; [None]
    is an [UnmarshalTypeError], which leaves the field as it was. A
    [null] stores nothing. *)
Definition storeString (v : Json.Value) (old : string) : option string :=
  match v with
  | Json.Str s => Some (String.string_of_list_byte s)
  | Json.Null => Some old
  | _ => None
  end.

Definition storeInt64 (v : Json.Value) (old : Z) : option Z :=
  match v with
  | Json.Number lit => Strconv.ParseInt lit
  | Json.Null => Some old
  | _ => None
  end.

(** One member of the object: the token so far and whether a type error
    has been saved. *)
Definition storeMember (st : FileToken * bool) (m : list byte * Json.Value)
    : FileToken * bool :=
  let '(t, failed) := st in
  let '(key, v) := m in
  match fieldOf key with
  | None => (t, failed)
  | Some FieldUsername =>
      match storeString v (Username t) with
      | Some u => (mkFileToken u (Filename t) (Size t), failed)
      | None => (t, true)
      end
  | Some FieldFilename =>
      match storeString v (Filename t) with
      | Some f => (mkFileToken (Username t) f (Size t), failed)
      | None => (t, true)
      end
  | Some FieldSize =>
      match storeInt64 v (Size t) with
      | Some n => (mkFileToken (Username t) (Filename t) n, failed)
      | None => (t, true)
      end
  end.

(** [json.Unmarshal] into a zero [FileToken]. *)
Definition unmarshal (data : list byte) : FileToken + Json.Error :=
  match Json.parse data with
  | None => inr Json.SyntaxError
  | Some (Json.Object members) =>
      let '(t, failed) := fold_left storeMember members (mkFileToken "" "" 0, false) in
      if failed then inr Json.UnmarshalTypeError else inl t
  | Some Json.Null => inl (mkFileToken "" "" 0)
  | Some _ => inr Json.UnmarshalTypeError
  end.

(** The two errors of [DecodeToken]: the one that wraps the error of
    [DecodeString] and the one that wraps the error of [Unmarshal]. *)
Inductive TokenError :=
| ErrDecodeBase64
| ErrUnmarshalToken (e : Json.Error).

Definition EncodeToken (username filename : string) (size : Z) : string :=
  Base64.EncodeToString (marshal (mkFileToken username filename size)).

Definition DecodeToken (token : string) : FileToken + TokenError :=
  match Base64.DecodeString token with
  | None => inr ErrDecodeBase64
  | Some b =>
      match unmarshal b with
      | inl t => inl t
      | inr e => inr (ErrUnmarshalToken e)
      end
  end.

End Newznab.

(** ** Vocabulary of the registry's properties *)

Module StoreSpec.

Import Store.

(** Every entry is filed under its own [ID]. *)
Definition ids_consistent (s : Store) : Prop :=
  ∀ k d, s !! k = Some d → ID d = k.

Definition statuses_valid (s : Store) : Prop :=
  ∀ k d, s !! k = Some d → valid_status (dlStatus d).

Definition is_retry_of (id : string) (op : Op) : bool :=
  match op with
  | OpIncrementRetry id' => String.eqb id' id
  | _ => false
  end.

(** Number of [IncrementRetry id] calls in a history. *)
Definition retry_calls (id : string) (ops : list Op) : nat :=
  length (List.filter (is_retry_of id) ops).

(** The call neither removes the entry [id] nor creates a new one under
    the same id. *)
Definition keeps (id : string) (op : Op) : Prop :=
  match op with
  | OpAdd e _ _ _ _ _ => generateID e ≠ id
  | OpRemove id' => id' ≠ id
  | _ => True
  end.

Definition is_update (op : Op) : Prop :=
  match op with
  | OpUpdateTransfer _ _ _ _ => True
  | _ => False
  end.

(** The order Queued, Downloading, then Completed or Failed. *)
Definition rank (st : Status) : Z :=
  if String.eqb st StatusQueued then 0
  else if String.eqb st StatusDownloading then 1
  else 2.

(** A move the lifecycle allows without a retry: stay, or go forward from
    a status that is not terminal. *)
Definition forward (old new : Status) : Prop :=
  old = new ∨ (terminal old = false ∧ rank old < rank new).

(** The lifecycle as an invariant of single calls: a call that is not a
    retry moves the status of an entry it keeps only forward. *)
Definition lifecycle_ordered : Prop :=
  ∀ s op id dl dl',
    reachable s → op_ok op →
    s !! id = Some dl → run_op op s !! id = Some dl' →
    (∀ id', op ≠ OpIncrementRetry id') →
    keeps id op →
    forward (dlStatus dl) (dlStatus dl').

End StoreSpec.

(** ** Vocabulary of the reconciler's properties *)

Module SyncSpec.

(** [sub] occurs in [s] as a contiguous run of bytes. *)
Definition occurs (sub s : string) : Prop :=
  ∃ pre post, s = String.append pre (String.append sub post).

(** No file of the snapshot has the entry's user name and file name. *)
Definition no_match (groups : list Slskd.UserTransferGroup) (dl : Store.Download) : Prop :=
  ∀ g d t, g ∈ groups → d ∈ Slskd.Directories g → t ∈ Slskd.Files d →
    ¬ (Slskd.GroupUsername g = Store.Username dl ∧ Slskd.Filename t = Store.Filename dl).

End SyncSpec.

(** ** Vocabulary of the token's properties *)

Module TokenSpec.

(** A continuation byte. *)
Definition cont (x : Z) : Prop := 0x80 <= x <= 0xBF.

(** The first two bytes of a three-byte and of a four-byte sequence, as
    the Unicode standard lists the well-formed sequences. *)
Definition lead3 (x0 x1 : Z) : Prop :=
  (x0 = 0xE0 ∧ 0xA0 <= x1 <= 0xBF)
  ∨ (0xE1 <= x0 <= 0xEC ∧ 0x80 <= x1 <= 0xBF)
  ∨ (x0 = 0xED ∧ 0x80 <= x1 <= 0x9F)
  ∨ (0xEE <= x0 <= 0xEF ∧ 0x80 <= x1 <= 0xBF).

Definition lead4 (x0 x1 : Z) : Prop :=
  (x0 = 0xF0 ∧ 0x90 <= x1 <= 0xBF)
  ∨ (0xF1 <= x0 <= 0xF3 ∧ 0x80 <= x1 <= 0xBF)
  ∨ (x0 = 0xF4 ∧ 0x80 <= x1 <= 0x8F).

(** Well-formed UTF-8: a concatenation of well-formed sequences. *)
Inductive well_formed : list byte → Prop :=
| wf_nil : well_formed []
| wf_one b rest :
    b2z b <= 0x7F → well_formed rest → well_formed (b :: rest)
| wf_two b0 b1 rest :
    0xC2 <= b2z b0 <= 0xDF → cont (b2z b1) →
    well_formed rest → well_formed (b0 :: b1 :: rest)
| wf_three b0 b1 b2 rest :
    lead3 (b2z b0) (b2z b1) → cont (b2z b2) →
    well_formed rest → well_formed (b0 :: b1 :: b2 :: rest)
| wf_four b0 b1 b2 b3 rest :
    lead4 (b2z b0) (b2z b1) → cont (b2z b2) → cont (b2z b3) →
    well_formed rest → well_formed (b0 :: b1 :: b2 :: b3 :: rest).

(** A Go string that holds well-formed UTF-8. *)
Definition valid_utf8 (s : string) : Prop := well_formed (String.list_byte_of_string s).

(** A run of a parser on [l] with fuel [f] that succeeds consumes input,
    and as many units of fuel as it consumes bytes give the same result. *)
Definition consumed {A} (run : nat → list byte → option (A * list byte))
    (f : nat) (l : list byte) : Prop :=
  ∀ a r, run f l = Some (a, r) →
    (length r < length l)%nat ∧ run (length l - length r)%nat l = Some (a, r).

(** The round trip as an equation for every pair of Go strings. *)
Definition round_trip_for_all_strings : Prop :=
  ∀ (owner resourcePath : string) (sizeBytes : Z),
    int64_range sizeBytes →
    Newznab.DecodeToken (Newznab.EncodeToken owner resourcePath sizeBytes)
    = inl (Newznab.mkFileToken owner resourcePath sizeBytes).

(** The payload is an object with a member for each of the three
    fields. *)
Definition supplies_three_fields (data : list byte) : Prop :=
  ∃ members, Json.parse data = Some (Json.Object members)
    ∧ ∀ fld, ∃ key v, (key, v) ∈ members ∧ Newznab.fieldOf key = Some fld.

(** Decoding succeeds only on payloads that supply the three fields. *)
Definition success_needs_three_fields : Prop :=
  ∀ token t, Newznab.DecodeToken token = inl t →
    ∃ data, Base64.DecodeString token = Some data ∧ supplies_three_fields data.

(** A member the decoder can store: its key selects no field, or its
    value is [null], or it is a string for a string field and a decimal
    [int64] literal for the size. *)
Definition storable (m : list byte * Json.Value) : Prop :=
  match Newznab.fieldOf (fst m) with
  | None => True
  | Some Newznab.FieldSize =>
      snd m = Json.Null
      ∨ ∃ lit n, snd m = Json.Number lit ∧ Strconv.ParseInt lit = Some n
  | Some _ => snd m = Json.Null ∨ ∃ s, snd m = Json.Str s
  end.

(** A payload [json.Unmarshal] accepts for a [FileToken]: [null], or an
    object whose members are all storable. *)
Definition acceptable (v : Json.Value) : Prop :=
  v = Json.Null ∨ ∃ members, v = Json.Object members ∧ Forall storable members.

(** The value the last member that stores into [fld] supplies: members
    are taken in order, a [null] supplies nothing. *)
Fixpoint supplied (fld : Newznab.Field) (members : list (list byte * Json.Value))
    (seen : option Json.Value) : option Json.Value :=
  match members with
  | [] => seen
  | (key, v) :: rest =>
      match Newznab.fieldOf key, v with
      | Some fld', Json.Null => supplied fld rest seen
      | Some fld', _ =>
          match fld, fld' with
          | Newznab.FieldUsername, Newznab.FieldUsername
          | Newznab.FieldFilename, Newznab.FieldFilename
          | Newznab.FieldSize, Newznab.FieldSize => supplied fld rest (Some v)
          | _, _ => supplied fld rest seen
          end
      | None, _ => supplied fld rest seen
      end
  end.

Definition string_of (v : option Json.Value) : string :=
  match v with
  | Some (Json.Str s) => String.string_of_list_byte s
  | _ => EmptyString
  end.

Definition int64_of (v : option Json.Value) : Z :=
  match v with
  | Some (Json.Number lit) =>
      match Strconv.ParseInt lit with
      | Some n => n
      | None => 0
      end
  | _ => 0
  end.

(** The token [t] holds what the values [u], [f] and [s] supply. *)
Definition stores (t : Newznab.FileToken) (u f s : option Json.Value) : Prop :=
  Newznab.Username t = string_of u
  ∧ Newznab.Filename t = string_of f
  ∧ Newznab.Size t = int64_of s.

(** The token an acceptable payload decodes to. *)
Definition token_of (v : Json.Value) : Newznab.FileToken :=
  match v with
  | Json.Object members =>
      Newznab.mkFileToken
        (string_of (supplied Newznab.FieldUsername members None))
        (string_of (supplied Newznab.FieldFilename members None))
        (int64_of (supplied Newznab.FieldSize members None))
  | _ => Newznab.mkFileToken "" "" 0
  end.

End TokenSpec.

(** ** A small registry used in the worked examples *)

Module Examples.

Import Store.

Definition id1 : string := generateID [].

Definition add1 : Op := OpAdd [] 7 "u1" "dir/file.mkv" 1000 "radarr".

Definition complete1 : Op := OpUpdateTransfer 9 id1 1000 StatusCompleted.

Definition requeue1 : Op := OpUpdateTransfer 10 id1 0 StatusQueued.

Definition fresh1 : Download :=
  mkDownload id1 "u1" "dir/file.mkv" 1000 0 "radarr" StatusQueued 7 0 0 3 "".

Definition done1 : Download :=
  mkDownload id1 "u1" "dir/file.mkv" 1000 1000 "radarr" StatusCompleted 7 9 0 3 "".

Definition requeued1 : Download :=
  mkDownload id1 "u1" "dir/file.mkv" 1000 0 "radarr" StatusQueued 7 9 0 3 "".

Definition s1 : Store := run_op add1 New.

Definition s2 : Store := run_op complete1 s1.

Definition three_retries : list Op :=
  [OpIncrementRetry id1; OpUpdateTransfer 9 id1 10 StatusFailed;
   OpIncrementRetry id1; OpIncrementRetry id1].

Definition snapshot1 (state : string) (bytes : Z) : list Slskd.UserTransferGroup :=
  [Slskd.mkUserTransferGroup "u1"
     [Slskd.mkDirectoryTransferGroup "dir"
        [Slskd.mkTransfer "t-1" "u1" "Download" "dir/file.mkv" 1000 bytes state]]].

End Examples.

(** * Further parts of the program *)

(** The rest of the three packages, as far as it computes on data: the
    handlers of the download client facade that write to the registry
    ([handleAddURL], the two delete handlers, the loop [SyncDownloads]),
    the key check of both facades, the text functions of the indexer
    facade ([xmlEscape], [firstCategory], the base name of a file), the
    loop of [handleSearch] that filters files and makes the items, and
    [MapTransferState] and [countFiles] of the backend client. What rests
    on floating point, on the network or on the wall clock is left out:
    [Progress], [adaptiveDelay], the listings of [handleQueue] and
    [handleHistory], and the HTTP calls of the client. *)

(** ** Vocabulary of further properties of the registry *)

Module StoreLaws.

Import Store.

(** The fields that [Add] sets and no other method writes. *)
Definition same_identity (a b : Download) : Prop :=
  ID a = ID b ∧ Username a = Username b ∧ Filename a = Filename b
  ∧ Size a = Size b ∧ Category a = Category b ∧ AddedAt a = AddedAt b
  ∧ MaxRetries a = MaxRetries b.

(** The entry [Add] stores. *)
Definition fresh_entry (entropy : list byte) (now : Time) (username filename : string)
    (size : Z) (category : string) : Download :=
  mkDownload (generateID entropy) username filename size 0 category StatusQueued now 0 0 3 "".

(** The entry [UpdateTransfer] stores in place of [dl]. *)
Definition updated_entry (now : Time) (bytesDownloaded : Z) (status : Status)
    (dl : Download) : Download :=
  set_progress bytesDownloaded status
    (if terminal status && IsZero (CompletedAt dl) then now else CompletedAt dl) dl.

(** The clock of a call does not read the zero instant. *)
Definition clock_started (op : Op) : Prop :=
  match op with
  | OpUpdateTransfer now _ _ _ => now ≠ 0
  | _ => True
  end.

(** Every entry in a terminal status carries a completion time. *)
Definition stamped (s : Store) : Prop :=
  ∀ id dl, s !! id = Some dl → terminal (dlStatus dl) = true →
    IsZero (CompletedAt dl) = false.

(** The entropy an [Add] call draws. *)
Definition entropy_of (op : Op) : option (list byte) :=
  match op with
  | OpAdd e _ _ _ _ _ => Some e
  | _ => None
  end.

End StoreLaws.

(** ** Standard library: [crypto/subtle] *)

Module Subtle.

(** [ConstantTimeByteEq]: [int((uint32(x^y) - 1) >> 31)] on two bytes. *)
Definition ConstantTimeByteEq (x y : Z) : Z :=
  Z.shiftr ((Z.lxor x y - 1) mod 2^32) 31.

(** The loop [v |= x[i] ^ y[i]] of [ConstantTimeCompare]. *)
Fixpoint differences (v : Z) (x y : list byte) : Z :=
  match x, y with
  | a :: x', b :: y' => differences (Z.lor v (Z.lxor (b2z a) (b2z b))) x' y'
  | _, _ => v
  end.

Definition ConstantTimeCompare (x y : list byte) : Z :=
  if negb (Nat.eqb (length x) (length y)) then 0
  else ConstantTimeByteEq (differences 0 x y) 0.

End Subtle.

(** ** Package [sabnzbd]: the handlers that write to the registry *)

Module SabnzbdApi.

Import Store.

(** The two shapes of a JSON answer: [{"status": false, "error": msg}]
    and [{"status": true, "nzo_ids": ids}]. *)
Inductive Response :=
| Failure (msg : string)
| Accepted (nzo_ids : list string).

(** [checkAPIKey]; [key] is the request's parameter [apikey]. *)
Definition checkAPIKey (apiKey key : string) : bool :=
  if String.eqb apiKey "" then true
  else Subtle.ConstantTimeCompare (String.list_byte_of_string key)
         (String.list_byte_of_string apiKey) =? 1.

(** [handleQueueDelete]; [value] is the request's parameter [value]. *)
Definition handleQueueDelete (value : string) (s : Store) : Store * Response :=
  if String.eqb value "" then (s, Failure "Missing value")
  else (Remove value s, Accepted [value]).

Definition handleHistoryDelete (value : string) (s : Store) : Store * Response :=
  if String.eqb value "" then (s, Failure "Missing value")
  else (Remove value s, Accepted [value]).

Section AddURL.

(** [extractTokenFromURL] rests on [net/url]; it is taken as given, with
    [None] for its error. *)
Variable extractTokenFromURL : string → option string.

(** [handleAddURL]; [key], [nzbURL] and [category] are the request's
    parameters [apikey], [name] and [cat], [queued] tells whether
    [SlskdClient.Download] returned without an error, [entropy] and [now]
    are what [Store.Add] draws and reads. *)
Definition handleAddURL (apiKey key nzbURL category : string) (queued : bool)
    (entropy : list byte) (now : Time) (s : Store) : Store * Response :=
  if negb (checkAPIKey apiKey key) then (s, Failure "API Key Incorrect")
  else if String.eqb nzbURL "" then (s, Failure "Missing name parameter")
  else
    match extractTokenFromURL nzbURL with
    | None => (s, Failure "Invalid NZB URL")
    | Some token =>
        match Newznab.DecodeToken token with
        | inr _ => (s, Failure "Invalid token")
        | inl fileToken =>
            if negb queued then (s, Failure "Failed to queue download")
            else
              let '(s', id) :=
                Add entropy now (Newznab.Username fileToken) (Newznab.Filename fileToken)
                  (Newznab.Size fileToken) category s in
              (s', Accepted [id])
        end
    end.

End AddURL.

(** [SyncDownloads]: one [syncOnce] per tick until the context is done;
    a tick is what the pass fetches and the clock it reads. *)
Definition SyncDownloads
    (ticks : list (option (list Slskd.UserTransferGroup) * (nat → Time))) (s : Store)
    : Store :=
  fold_left (fun s tick => Sabnzbd.syncOnce (fst tick) (snd tick) s) ticks s.

End SabnzbdApi.

(** ** Vocabulary of further properties of the reconciler *)

Module SyncLaws.

Import Store.

(** The files of a snapshot with the user name of their group, in the
    order the three loops visit them. *)
Definition files_of (groups : list Slskd.UserTransferGroup) : list (string * Slskd.Transfer) :=
  flat_map (fun g =>
    flat_map (fun d => List.map (fun t => (Slskd.GroupUsername g, t)) (Slskd.Files d))
      (Slskd.Directories g)) groups.

(** One assignment [transfers[key] = t] of the innermost loop. *)
Definition put (m : Sabnzbd.Transfers) (p : string * Slskd.Transfer) : Sabnzbd.Transfers :=
  <[(p.1, Slskd.Filename p.2) := p.2]> m.

(** The last file of the list with the given user name and file name. *)
Definition last_match (username filename : string) (files : list (string * Slskd.Transfer))
    : option Slskd.Transfer :=
  snd <$> List.find (fun f => String.eqb (fst f) username
                              && String.eqb (Slskd.Filename (snd f)) filename)
            (rev files).

(** What a pass makes of the entry [dl] when it treats it during
    iteration [i]. *)
Definition synced_entry (groups : list Slskd.UserTransferGroup) (clock : nat → Time)
    (i : nat) (dl : Download) : Download :=
  if terminal (dlStatus dl) then dl
  else
    match last_match (Username dl) (Filename dl) (files_of groups) with
    | None => dl
    | Some t =>
        StoreLaws.updated_entry (clock i) (Slskd.BytesTransferred t)
          (Sabnzbd.newStatus (Slskd.State t)) dl
    end.

End SyncLaws.

(** ** Standard library: [strings] at a one-byte pattern, [path] *)

Module Strings1.

Import Stdlib.Strings.Ascii.

(** [strings.ReplaceAll s old new] where [old] is one byte. *)
Fixpoint ReplaceAll (s : string) (old : Ascii.ascii) (new : string) : string :=
  match s with
  | EmptyString => EmptyString
  | String c r =>
      if Ascii.eqb c old then String.append new (ReplaceAll r old new)
      else String c (ReplaceAll r old new)
  end.

(** [strings.Index s sep] where [sep] is one byte: the index of its
    first occurrence, [-1] when there is none. *)
Fixpoint Index (s : string) (sep : Ascii.ascii) : Z :=
  match s with
  | EmptyString => -1
  | String c r =>
      if Ascii.eqb c sep then 0
      else let i := Index r sep in if i <? 0 then -1 else i + 1
  end.

(** The slice [s[:n]]. *)
Fixpoint slice_to (n : nat) (s : string) : string :=
  match n, s with
  | S k, String c r => String c (slice_to k r)
  | _, _ => EmptyString
  end.

(** The ASCII branch of [strings.ToLower]. *)
Definition isASCII (s : string) : bool :=
  forallb (fun c => (Ascii.N_of_ascii c <? 128)%N) (String.list_ascii_of_string s).

Definition lowerByte (c : Ascii.ascii) : Ascii.ascii :=
  let n := Ascii.N_of_ascii c in
  if ((65 <=? n) && (n <=? 90))%N then Ascii.ascii_of_N (n + 32) else c.

Section ToLower.

(** [strings.Map(unicode.ToLower, s)], the branch for a string with a
    byte outside ASCII, rests on the Unicode case tables and is taken as
    given. *)
Variable mapToLower : string → string.

Definition ToLower (s : string) : string :=
  if isASCII s
  then String.string_of_list_ascii (List.map lowerByte (String.list_ascii_of_string s))
  else mapToLower s.

End ToLower.

End Strings1.

Module Path.

Import Stdlib.Strings.Ascii.

(** The loop of [path.Ext], from the last byte down: [rest] is the part
    of the path not yet visited, last byte first, [tail] the part behind
    it. *)
Fixpoint extLoop (rest tail : list Ascii.ascii) : list Ascii.ascii :=
  match rest with
  | [] => []
  | c :: rest' =>
      if Ascii.eqb c "/"%char then []
      else if Ascii.eqb c "."%char then c :: tail
      else extLoop rest' (c :: tail)
  end.

Definition Ext (path : string) : string :=
  String.string_of_list_ascii (extLoop (rev (String.list_ascii_of_string path)) []).

(** The loop of [path.Base] that strips trailing slashes. *)
Fixpoint stripSlashes (rest : list Ascii.ascii) : list Ascii.ascii :=
  match rest with
  | c :: rest' => if Ascii.eqb c "/"%char then stripSlashes rest' else rest
  | [] => []
  end.

(** What follows the last slash: [path[i+1:]], or the whole path when it
    has no slash. *)
Fixpoint lastElement (rest tail : list Ascii.ascii) : list Ascii.ascii :=
  match rest with
  | [] => tail
  | c :: rest' => if Ascii.eqb c "/"%char then tail else lastElement rest' (c :: tail)
  end.

Definition Base (path : string) : string :=
  if String.eqb path "" then "."
  else
    let element := lastElement (stripSlashes (rev (String.list_ascii_of_string path))) [] in
    match element with
    | [] => "/"
    | _ => String.string_of_list_ascii element
    end.

End Path.

(** ** Package [slskd]: search results and transfer states *)

Module SlskdSearch.

(** [SlskdFile] and [SearchResponse], with the fields the search handler
    reads. *)
Record SlskdFile := mkSlskdFile {
  Filename : string;
  Size : Z
}.

Record SearchResponse := mkSearchResponse {
  Username : string;
  Files : list SlskdFile;
  LockedFiles : list SlskdFile
}.

(** [countFiles], with the wrap of [int]. *)
Definition countFiles (responses : list SearchResponse) : Z :=
  fold_left (fun n r => wrap64 (n + wrap64 (Z.of_nat (length (Files r))
                                             + Z.of_nat (length (LockedFiles r)))))
    responses 0.

(** The slice [state[:9]] compared with ["Completed"]. *)
Definition MapTransferState (state : string) : string :=
  if String.eqb state "Completed, Succeeded" then "completed"
  else if String.eqb state "Completed, Cancelled" || String.eqb state "Completed, TimedOut"
          || String.eqb state "Completed, Errored" || String.eqb state "Completed, Rejected"
  then "failed"
  else if String.eqb state "InProgress" then "downloading"
  else if String.eqb state "Requested" || String.eqb state "Queued, Locally"
          || String.eqb state "Queued, Remotely" || String.eqb state "Initializing"
  then "queued"
  else if (9 <=? Z.of_nat (String.length state))
          && String.eqb (Strings1.slice_to 9 state) "Completed"
  then "failed"
  else "queued".

End SlskdSearch.

(** ** Package [newznab]: the search handler *)

Module NewznabApi.

Import Stdlib.Strings.Ascii.

Definition checkAPIKey (apiKey key : string) : bool :=
  if String.eqb apiKey "" then true
  else Subtle.ConstantTimeCompare (String.list_byte_of_string key)
         (String.list_byte_of_string apiKey) =? 1.

(** The byte [0x22], the double quote. *)
Definition quote : Ascii.ascii := Ascii.ascii_of_N 34.

Definition xmlEscape (s : string) : string :=
  let s := Strings1.ReplaceAll s "&"%char "&amp;" in
  let s := Strings1.ReplaceAll s "<"%char "&lt;" in
  let s := Strings1.ReplaceAll s ">"%char "&gt;" in
  let s := Strings1.ReplaceAll s quote "&quot;" in
  s.

Definition firstCategory (cats : string) : string :=
  if String.eqb cats "" then "2000"
  else
    let i := Strings1.Index cats ","%char in
    if 0 <? i then Strings1.slice_to (Z.to_nat i) cats else cats.

(** The three maps of extensions; a key that is absent reads [false]. *)
Definition videoExtensions (ext : string) : bool :=
  existsb (String.eqb ext) [".mkv"; ".mp4"; ".avi"; ".m4v"; ".webm"; ".ts"; ".wmv"]%string.

Definition audioExtensions (ext : string) : bool :=
  existsb (String.eqb ext)
    [".mp3"; ".flac"; ".ogg"; ".opus"; ".m4a"; ".aac"; ".wav"; ".wma"; ".ape"; ".alac"]%string.

Definition audiobookExtensions (ext : string) : bool :=
  existsb (String.eqb ext) [".m4b"; ".mp3"; ".aax"]%string.

Definition minVideoFileSize : Z := 50 * 1024 * 1024.

Definition minAudioFileSize : Z := 1 * 1024 * 1024.

Record searchItem := mkSearchItem {
  Title : string;
  Token : string;
  Size : Z;
  Category : string;
  Username : string
}.

(** The expression [path.Base(strings.ReplaceAll(name, "\\", "/"))] of
    the handlers. *)
Definition basename (filename : string) : string :=
  Path.Base (Strings1.ReplaceAll filename "\"%char "/").

Section Search.

Variable mapToLower : string → string.

(** The body of the loop of [handleSearch] over the files of one
    response: [None] where the loop continues without an item. *)
Definition itemOf (action username : string) (f : SlskdSearch.SlskdFile) : option searchItem :=
  let ext := Strings1.ToLower mapToLower (Path.Ext (SlskdSearch.Filename f)) in
  let isVideo := videoExtensions ext in
  let isAudio := audioExtensions ext in
  let isAudiobook := audiobookExtensions ext in
  if negb isVideo && negb isAudio && negb isAudiobook then None
  else if isVideo && (SlskdSearch.Size f <? minVideoFileSize) then None
  else if (isAudio || isAudiobook) && (SlskdSearch.Size f <? minAudioFileSize) then None
  else
    let token := Newznab.EncodeToken username (SlskdSearch.Filename f) (SlskdSearch.Size f) in
    let category :=
      if String.eqb action "book" then "3030"
      else if String.eqb action "music" || (isAudio && negb isAudiobook) then "3000"
      else if isAudiobook then "3030"
      else if String.eqb action "tvsearch" then "5000"
      else "2000" in
    Some (mkSearchItem (basename (SlskdSearch.Filename f)) token (SlskdSearch.Size f)
            category username).

(** The two loops of [handleSearch] that collect the items. *)
Definition collectItems (action : string) (responses : list SlskdSearch.SearchResponse)
    : list searchItem :=
  flat_map (fun resp =>
    omap (itemOf action (SlskdSearch.Username resp))
      (SlskdSearch.Files resp ++ SlskdSearch.LockedFiles resp)) responses.

End Search.

End NewznabApi.

(** ** Vocabulary of the properties of the text functions *)

Module TextLaws.

Import Stdlib.Strings.Ascii.

(** The byte [c] occurs in [s]. *)
Definition has (c : ascii) (s : string) : Prop := In c (String.list_ascii_of_string s).

(** The entity of one byte. *)
Definition escapeChar (c : ascii) : string :=
  if Ascii.eqb c "&"%char then "&amp;"
  else if Ascii.eqb c "<"%char then "&lt;"
  else if Ascii.eqb c ">"%char then "&gt;"
  else if Ascii.eqb c NewznabApi.quote then "&quot;"
  else String c EmptyString.

(** One pass over [s] that writes the entity of every byte. *)
Fixpoint escape_each (s : string) : string :=
  match s with
  | EmptyString => EmptyString
  | String c r => String.append (escapeChar c) (escape_each r)
  end.

(** [s] holds no path separator of either kind. *)
Definition no_separator (s : string) : Prop := ¬ has "/"%char s ∧ ¬ has "\"%char s.

(** An extension one of the three maps holds. *)
Definition known_extension (ext : string) : bool :=
  NewznabApi.videoExtensions ext || NewznabApi.audioExtensions ext
  || NewznabApi.audiobookExtensions ext.

(** The files of a response that the search handler visits. *)
Definition files_of_response (resp : SlskdSearch.SearchResponse)
    : list SlskdSearch.SlskdFile :=
  SlskdSearch.Files resp ++ SlskdSearch.LockedFiles resp.

End TextLaws.

(** ** Vocabulary of further properties of the token *)

Module TokenLaws.

(** A byte that needs no escape in the query of a URL, as a letter, a
    digit, [-] or [_], or that is the padding [=]. *)
Definition url_safe (c : byte) : bool :=
  let v := b2z c in
  ((0x41 <=? v) && (v <=? 0x5A)) || ((0x61 <=? v) && (v <=? 0x7A))
  || ((0x30 <=? v) && (v <=? 0x39)) || (v =? 0x2D) || (v =? 0x5F) || (v =? 0x3D).

(** A token whose strings hold well-formed UTF-8 and whose size is an
    [int64]. *)
Definition clean (t : Newznab.FileToken) : Prop :=
  TokenSpec.valid_utf8 (Newznab.Username t) ∧ TokenSpec.valid_utf8 (Newznab.Filename t)
  ∧ int64_range (Newznab.Size t).

(** A value that, stored in a field, keeps the token clean. *)
Definition value_ok (v : Json.Value) : Prop :=
  match v with
  | Json.Str s => TokenSpec.well_formed s
  | _ => True
  end.

End TokenLaws.

(** * Properties *)

(** ** Tactics *)

(** Goals of linear arithmetic with division and remainder by constants. *)
Ltac arith := Z.div_mod_to_equations; lia.

(** Resolves the tests of a chain of conditionals from the bounds in the
    context. *)
Ltac decide_tests :=
  repeat match goal with
  | |- context [if ?c then _ else _] =>
      let E := fresh "E" in destruct c eqn:E; try lia
  end.

(** ** Machine integers *)

Lemma wrap64_id z : int64_range z → wrap64 z = z.
Proof.
  unfold int64_range, wrap64. intros H.
  rewrite Z.mod_small; lia.
Qed.

Lemma wrap64_range z : int64_range (wrap64 z).
Proof.
  unfold int64_range, wrap64.
  pose proof (Z.mod_pos_bound (z + 2^63) (2^64)). lia.
Qed.

(** ** The registry *)

Section Registry.

Import Store StoreSpec.

Implicit Types (s : Store) (id : string) (dl : Download) (op : Op).

Lemma terminal_true st :
  terminal st = true ↔ st = StatusCompleted ∨ st = StatusFailed.
Proof.
  unfold terminal. rewrite orb_true_iff, !String.eqb_eq. tauto.
Qed.

Lemma in_queue_true dl :
  in_queue dl = true ↔ dlStatus dl = StatusQueued ∨ dlStatus dl = StatusDownloading.
Proof. unfold in_queue. rewrite orb_true_iff, !String.eqb_eq. tauto. Qed.

Lemma in_history_true dl :
  in_history dl = true ↔ dlStatus dl = StatusCompleted ∨ dlStatus dl = StatusFailed.
Proof. unfold in_history. rewrite orb_true_iff, !String.eqb_eq. tauto. Qed.

Lemma valid_status_split dl :
  valid_status (dlStatus dl) → in_history dl = negb (in_queue dl).
Proof.
  unfold in_history, in_queue.
  intros [H | [H | [H | H]]]; rewrite H; reflexivity.
Qed.

(** *** What each call does to one key *)

Lemma UpdateTransfer_absent now id b st s :
  s !! id = None → UpdateTransfer now id b st s = s.
Proof. intros H. unfold UpdateTransfer. by rewrite H. Qed.

Lemma UpdateTransfer_lookup now id b st s dl :
  s !! id = Some dl →
  UpdateTransfer now id b st s !! id =
    Some (set_progress b st
            (if terminal st && IsZero (CompletedAt dl) then now else CompletedAt dl) dl).
Proof. intros H. unfold UpdateTransfer. rewrite H. by rewrite lookup_insert_eq. Qed.

Lemma UpdateTransfer_other now id b st s k :
  k ≠ id → UpdateTransfer now id b st s !! k = s !! k.
Proof.
  intros H. unfold UpdateTransfer. destruct (s !! id); [|done].
  by rewrite lookup_insert_ne.
Qed.

Lemma IncrementRetry_absent id s :
  s !! id = None → IncrementRetry id s = (s, false).
Proof. intros H. unfold IncrementRetry. by rewrite H. Qed.

Lemma IncrementRetry_other id s k :
  k ≠ id → fst (IncrementRetry id s) !! k = s !! k.
Proof.
  intros H. unfold IncrementRetry. destruct (s !! id); [|done].
  case (_ >? _); simpl; by rewrite lookup_insert_ne.
Qed.

Lemma SetTransferID_other id t s k :
  k ≠ id → SetTransferID id t s !! k = s !! k.
Proof.
  intros H. unfold SetTransferID. destruct (s !! id); [|done].
  by rewrite lookup_insert_ne.
Qed.

Lemma SetTransferID_lookup id t s dl :
  s !! id = Some dl → SetTransferID id t s !! id = Some (set_TransferID t dl).
Proof. intros H. unfold SetTransferID. rewrite H. by rewrite lookup_insert_eq. Qed.

(** *** Invariants of reachable states *)

Lemma run_op_ids_consistent op s : ids_consistent s → ids_consistent (run_op op s).
Proof.
  intros Hs k d. destruct op as [e now u f sz c | now id b st | id | id t | id]; simpl.
  - destruct (decide (generateID e = k)) as [-> | Hne].
    + rewrite lookup_insert_eq. by intros [= <-].
    + rewrite lookup_insert_ne by done. apply Hs.
  - destruct (decide (k = id)) as [-> | Hne].
    + destruct (s !! id) as [dl|] eqn:E.
      * rewrite (UpdateTransfer_lookup _ _ _ _ _ _ E). intros [= <-]. simpl. by apply Hs.
      * rewrite UpdateTransfer_absent by done. rewrite E. done.
    + rewrite UpdateTransfer_other by done. apply Hs.
  - destruct (decide (k = id)) as [-> | Hne].
    + unfold IncrementRetry. destruct (s !! id) as [dl|] eqn:E; simpl.
      * case (_ >? _); simpl; rewrite lookup_insert_eq; intros [= <-]; simpl; by apply Hs.
      * rewrite E. done.
    + rewrite IncrementRetry_other by done. apply Hs.
  - destruct (decide (k = id)) as [-> | Hne].
    + destruct (s !! id) as [dl|] eqn:E.
      * rewrite (SetTransferID_lookup _ _ _ _ E). intros [= <-]. simpl. by apply Hs.
      * unfold SetTransferID. rewrite E. rewrite E. done.
    + rewrite SetTransferID_other by done. apply Hs.
  - unfold Remove. intros H. apply lookup_delete_Some in H as [_ H]. by apply Hs.
Qed.

Lemma valid_Queued : valid_status StatusQueued.
Proof. by left. Qed.

Lemma run_op_statuses_valid op s :
  op_ok op → statuses_valid s → statuses_valid (run_op op s).
Proof.
  intros Hok Hs k d. destruct op as [e now u f sz c | now id b st | id | id t | id]; simpl.
  - destruct (decide (generateID e = k)) as [-> | Hne].
    + rewrite lookup_insert_eq. intros [= <-]. apply valid_Queued.
    + rewrite lookup_insert_ne by done. apply Hs.
  - destruct (decide (k = id)) as [-> | Hne].
    + destruct (s !! id) as [dl|] eqn:E.
      * rewrite (UpdateTransfer_lookup _ _ _ _ _ _ E). intros [= <-]. exact Hok.
      * rewrite UpdateTransfer_absent by done. rewrite E. done.
    + rewrite UpdateTransfer_other by done. apply Hs.
  - destruct (decide (k = id)) as [-> | Hne].
    + unfold IncrementRetry. destruct (s !! id) as [dl|] eqn:E; simpl.
      * case (_ >? _); simpl; rewrite lookup_insert_eq; intros [= <-]; simpl.
        -- by apply (Hs id).
        -- apply valid_Queued.
      * rewrite E. done.
    + rewrite IncrementRetry_other by done. apply Hs.
  - destruct (decide (k = id)) as [-> | Hne].
    + destruct (s !! id) as [dl|] eqn:E.
      * rewrite (SetTransferID_lookup _ _ _ _ E). intros [= <-]. simpl. by apply (Hs id).
      * unfold SetTransferID. rewrite E. rewrite E. done.
    + rewrite SetTransferID_other by done. apply Hs.
  - unfold Remove. intros H. apply lookup_delete_Some in H as [_ H]. by apply (Hs k).
Qed.

Lemma reachable_ids_consistent s : reachable s → ids_consistent s.
Proof.
  induction 1 as [| s op _ IH _].
  - intros k d. unfold New. by rewrite lookup_empty.
  - by apply run_op_ids_consistent.
Qed.

Lemma reachable_statuses_valid s : reachable s → statuses_valid s.
Proof.
  induction 1 as [| s op _ IH Hok].
  - intros k d. unfold New. by rewrite lookup_empty.
  - by apply run_op_statuses_valid.
Qed.

(** *** [IncrementRetry] *)

Lemma wrap64_add_l a b : wrap64 (wrap64 a + b) = wrap64 (a + b).
Proof.
  unfold wrap64.
  replace ((a + 2^63) mod 2^64 - 2^63 + b + 2^63) with ((a + 2^63) mod 2^64 + b) by lia.
  rewrite Z.add_mod_idemp_l by lia. f_equal. f_equal. lia.
Qed.

Lemma IncrementRetry_entry id s dl :
  s !! id = Some dl →
  ∃ dl', fst (IncrementRetry id s) !! id = Some dl'
    ∧ Retries dl' = wrap64 (Retries dl + 1)
    ∧ (ID dl' = ID dl ∧ Username dl' = Username dl ∧ Filename dl' = Filename dl
       ∧ Size dl' = Size dl ∧ Category dl' = Category dl ∧ AddedAt dl' = AddedAt dl
       ∧ MaxRetries dl' = MaxRetries dl ∧ TransferID dl' = TransferID dl)
    ∧ (if Retries dl' >? MaxRetries dl
       then snd (IncrementRetry id s) = false
            ∧ dlStatus dl' = dlStatus dl
            ∧ BytesDownloaded dl' = BytesDownloaded dl
            ∧ CompletedAt dl' = CompletedAt dl
       else snd (IncrementRetry id s) = true
            ∧ dlStatus dl' = StatusQueued
            ∧ BytesDownloaded dl' = 0
            ∧ CompletedAt dl' = 0).
Proof.
  intros H. unfold IncrementRetry. rewrite H. simpl.
  destruct (wrap64 (Retries dl + 1) >? MaxRetries dl) eqn:E; simpl;
    rewrite lookup_insert_eq; eexists; (split; [reflexivity|]); simpl; rewrite ?E;
    repeat split; reflexivity.
Qed.

Lemma run_op_keeps op s id dl :
  s !! id = Some dl → keeps id op →
  ∃ dl', run_op op s !! id = Some dl'
    ∧ MaxRetries dl' = MaxRetries dl
    ∧ Retries dl' = (if is_retry_of id op then wrap64 (Retries dl + 1) else Retries dl).
Proof.
  intros H Hk. destruct op as [e now u f sz c | now k b st | k | k t | k]; simpl in *.
  - rewrite lookup_insert_ne by done. eauto.
  - destruct (decide (k = id)) as [-> | Hne].
    + rewrite (UpdateTransfer_lookup _ _ _ _ _ _ H). eauto.
    + rewrite UpdateTransfer_other by done. eauto.
  - destruct (String.eqb_spec k id) as [-> | Hne].
    + destruct (IncrementRetry_entry _ _ _ H) as (dl' & H1 & H2 & H3 & _).
      exists dl'. intuition.
    + rewrite IncrementRetry_other by done. eauto.
  - destruct (decide (k = id)) as [-> | Hne].
    + rewrite (SetTransferID_lookup _ _ _ _ H). eauto.
    + rewrite SetTransferID_other by done. eauto.
  - unfold Remove. rewrite lookup_delete_ne by done. eauto.
Qed.

Lemma run_ops_keeps ops : ∀ s id dl,
  s !! id = Some dl → Forall (keeps id) ops → int64_range (Retries dl) →
  ∃ dl', run_ops ops s !! id = Some dl'
    ∧ MaxRetries dl' = MaxRetries dl
    ∧ Retries dl' = wrap64 (Retries dl + Z.of_nat (retry_calls id ops)).
Proof.
  induction ops as [| op ops IH]; intros s id dl H Hk Hr.
  - exists dl. simpl. rewrite Z.add_0_r, wrap64_id by done. done.
  - inversion Hk as [| ? ? Hop Hops]; subst.
    destruct (run_op_keeps op s id dl H Hop) as (dl1 & H1 & Hm1 & Hr1).
    assert (int64_range (Retries dl1)) as Hrange.
    { rewrite Hr1. destruct (is_retry_of id op); [apply wrap64_range | done]. }
    destruct (IH _ _ _ H1 Hops Hrange) as (dl' & H' & Hm' & Hr').
    exists dl'. split; [exact H'|]. split; [congruence|].
    rewrite Hr', Hr1. unfold retry_calls. simpl.
    destruct (is_retry_of id op); simpl.
    + rewrite wrap64_add_l. f_equal. lia.
    + done.
Qed.

Lemma retry_after_Add s0 e now u f sz c ops :
  let id := snd (Add e now u f sz c s0) in
  let s := run_ops ops (fst (Add e now u f sz c s0)) in
  Forall (keeps id) ops →
  ∃ dl, s !! id = Some dl
    ∧ MaxRetries dl = 3
    ∧ ((retry_calls id ops < 3)%nat → snd (IncrementRetry id s) = true)
    ∧ (retry_calls id ops = 3%nat →
         snd (IncrementRetry id s) = false
         ∧ ∃ dl', fst (IncrementRetry id s) !! id = Some dl' ∧ dlStatus dl' = dlStatus dl).
Proof.
  intros id s Hk. subst s. simpl in *.
  set (s1 := <[generateID e := _]> s0).
  assert (s1 !! id = Some (mkDownload id u f sz 0 c StatusQueued now 0 0 3 "")) as H1
    by (subst s1 id; apply lookup_insert_eq).
  destruct (run_ops_keeps ops s1 id _ H1 Hk) as (dl & H & Hm & Hr).
  { simpl. unfold int64_range. lia. }
  simpl in Hm, Hr. exists dl. split; [exact H|]. split; [exact Hm|].
  destruct (IncrementRetry_entry _ _ _ H) as (dl' & H' & Hr' & _ & Hcase).
  rewrite Hr', Hr, Hm in Hcase. split.
  - intros Hlt.
    rewrite (wrap64_id (0 + _)) in Hcase by (unfold int64_range; lia).
    rewrite wrap64_id in Hcase by (unfold int64_range; lia).
    destruct (_ >? _) eqn:E; [lia | tauto].
  - intros Heq. rewrite Heq in Hcase.
    assert ((wrap64 (wrap64 (0 + Z.of_nat 3) + 1) >? 3) = true) as E by reflexivity.
    rewrite E in Hcase. split; [tauto|].
    exists dl'. tauto.
Qed.

(** C2. On a present entry [IncrementRetry] adds one to [Retries] (as Go's
    [int] does); when the new count exceeds [MaxRetries] it answers
    [false] and leaves status, byte count and completion time as they
    were; otherwise it answers [true] with the status Queued, the byte
    count zero and the completion time cleared. For an entry made by
    [Add] (so [MaxRetries = 3]) and kept since, the first three retries
    are allowed and the fourth answers [false] with the status as it
    was before that call. *)
Theorem IncrementRetry_correct :
  (∀ s id dl, s !! id = Some dl →
     ∃ dl', fst (IncrementRetry id s) !! id = Some dl'
       ∧ Retries dl' = wrap64 (Retries dl + 1)
       ∧ (- 2^63 <= Retries dl < 2^63 - 1 → Retries dl' = Retries dl + 1)
       ∧ MaxRetries dl' = MaxRetries dl
       ∧ (if Retries dl' >? MaxRetries dl
          then snd (IncrementRetry id s) = false
               ∧ dlStatus dl' = dlStatus dl
               ∧ BytesDownloaded dl' = BytesDownloaded dl
               ∧ CompletedAt dl' = CompletedAt dl
          else snd (IncrementRetry id s) = true
               ∧ dlStatus dl' = StatusQueued
               ∧ BytesDownloaded dl' = 0
               ∧ IsZero (CompletedAt dl') = true))
  ∧ (∀ s0 e now u f sz c ops,
       let id := snd (Add e now u f sz c s0) in
       let s := run_ops ops (fst (Add e now u f sz c s0)) in
       Forall (keeps id) ops →
       ∃ dl, s !! id = Some dl
         ∧ MaxRetries dl = 3
         ∧ ((retry_calls id ops < 3)%nat → snd (IncrementRetry id s) = true)
         ∧ (retry_calls id ops = 3%nat →
              snd (IncrementRetry id s) = false
              ∧ ∃ dl', fst (IncrementRetry id s) !! id = Some dl'
                       ∧ dlStatus dl' = dlStatus dl)).
Proof.
  split.
  - intros s id dl H.
    destruct (IncrementRetry_entry _ _ _ H) as (dl' & H' & Hr & Hsame & Hcase).
    exists dl'. split; [exact H'|]. split; [exact Hr|]. split.
    { intros Hb. rewrite Hr. apply wrap64_id. unfold int64_range. lia. }
    split; [tauto|].
    destruct (_ >? _); [exact Hcase|].
    destruct Hcase as (? & ? & ? & ->). tauto.
  - intros s0 e now u f sz c ops id s Hk.
    exact (retry_after_Add s0 e now u f sz c ops Hk).
Qed.

Lemma IncrementRetry_correct_witness :
  snd (IncrementRetry Examples.id1 (run_ops Examples.three_retries Examples.s1)) = false.
Proof.
  destruct (proj2 IncrementRetry_correct New [] 7 "u1"%string "dir/file.mkv"%string 1000
              "radarr"%string Examples.three_retries)
    as (dl & _ & _ & _ & H).
  - repeat constructor.
  - apply H. reflexivity.
Defined.

(** C10. On an id the registry does not hold, [IncrementRetry] answers
    [false] and returns the registry as it was: nothing is created and
    no entry, so no retry count, is touched. *)
Theorem IncrementRetry_absent_unchanged (s : Store) (id : string) :
  s !! id = None →
  IncrementRetry id s = (s, false)
  ∧ ∀ k, fst (IncrementRetry id s) !! k = s !! k.
Proof.
  intros H. rewrite (IncrementRetry_absent _ _ H). done.
Qed.

Lemma IncrementRetry_absent_unchanged_witness :
  Examples.s1 !! "SABnzbd_nzo_00"%string = None
  ∧ IncrementRetry "SABnzbd_nzo_00" Examples.s1 = (Examples.s1, false).
Proof.
  assert (Examples.s1 !! "SABnzbd_nzo_00"%string = None) as H by (vm_compute; reflexivity).
  split; [exact H|].
  exact (proj1 (IncrementRetry_absent_unchanged Examples.s1 "SABnzbd_nzo_00" H)).
Defined.

(** *** [UpdateTransfer] *)

Lemma run_op_CompletedAt op s id dl dl' :
  s !! id = Some dl → IsZero (CompletedAt dl) = false → keeps id op →
  run_op op s !! id = Some dl' →
  CompletedAt dl' = CompletedAt dl
  ∨ (op = OpIncrementRetry id ∧ snd (IncrementRetry id s) = true
     ∧ IsZero (CompletedAt dl') = true).
Proof.
  intros H Hz Hk. destruct op as [e now u f sz c | now k b st | k | k t | k]; simpl in *.
  - rewrite lookup_insert_ne by done. rewrite H. intros [= <-]. by left.
  - destruct (decide (k = id)) as [-> | Hne].
    + rewrite (UpdateTransfer_lookup _ _ _ _ _ _ H). intros [= <-]. simpl.
      rewrite Hz, andb_false_r. by left.
    + rewrite UpdateTransfer_other by done. rewrite H. intros [= <-]. by left.
  - destruct (decide (k = id)) as [-> | Hne].
    + destruct (IncrementRetry_entry _ _ _ H) as (dl1 & H1 & _ & _ & Hcase).
      rewrite H1. intros [= <-].
      destruct (_ >? _).
      * left. tauto.
      * right. destruct Hcase as (? & ? & ? & ->). done.
    + rewrite IncrementRetry_other by done. rewrite H. intros [= <-]. by left.
  - destruct (decide (k = id)) as [-> | Hne].
    + rewrite (SetTransferID_lookup _ _ _ _ H). intros [= <-]. by left.
    + rewrite SetTransferID_other by done. rewrite H. intros [= <-]. by left.
  - unfold Remove. rewrite lookup_delete_ne by done. rewrite H. intros [= <-]. by left.
Qed.

Lemma updates_keep_CompletedAt ops : ∀ s id dl,
  Forall is_update ops → s !! id = Some dl → IsZero (CompletedAt dl) = false →
  ∃ dl', run_ops ops s !! id = Some dl' ∧ CompletedAt dl' = CompletedAt dl.
Proof.
  induction ops as [| op ops IH]; intros s id dl Hu H Hz; simpl.
  - eauto.
  - inversion Hu as [| ? ? Hop Hops]; subst.
    destruct op as [| now k b st | | |]; try done.
    assert (keeps id (OpUpdateTransfer now k b st)) as Hk by done.
    destruct (run_op_keeps _ _ _ _ H Hk) as (dl1 & H1 & _).
    destruct (run_op_CompletedAt _ _ _ _ _ H Hz Hk H1) as [E | (? & _)]; [|done].
    destruct (IH _ _ dl1 Hops H1) as (dl' & H' & E'); [by rewrite E|].
    exists dl'. split; [exact H' | congruence].
Qed.

(** C3. [UpdateTransfer] returns the registry unchanged when the id is
    absent. On a present entry it overwrites the byte count and the
    status, leaves every other key alone, and stores the clock reading
    in [CompletedAt] exactly when the new status is Completed or Failed
    and [CompletedAt] was zero; otherwise [CompletedAt] keeps its value.
    A [CompletedAt] that is set survives every later run of
    [UpdateTransfer] calls, and the only call that clears it on an entry
    that is kept is an [IncrementRetry] of that id that answers [true]. *)
Theorem UpdateTransfer_correct :
  (∀ now id b st s, s !! id = None → UpdateTransfer now id b st s = s)
  ∧ (∀ now id b st s dl, s !! id = Some dl →
       ∃ dl', UpdateTransfer now id b st s !! id = Some dl'
         ∧ BytesDownloaded dl' = b
         ∧ dlStatus dl' = st
         ∧ CompletedAt dl' =
             (if (bool_decide (st = StatusCompleted ∨ st = StatusFailed)
                  && IsZero (CompletedAt dl))%bool
              then now else CompletedAt dl)
         ∧ (ID dl' = ID dl ∧ Username dl' = Username dl ∧ Filename dl' = Filename dl
            ∧ Size dl' = Size dl ∧ Category dl' = Category dl ∧ AddedAt dl' = AddedAt dl
            ∧ Retries dl' = Retries dl ∧ MaxRetries dl' = MaxRetries dl
            ∧ TransferID dl' = TransferID dl)
         ∧ ∀ k, k ≠ id → UpdateTransfer now id b st s !! k = s !! k)
  ∧ (∀ ops s id dl,
       Forall is_update ops → s !! id = Some dl → IsZero (CompletedAt dl) = false →
       ∃ dl', run_ops ops s !! id = Some dl' ∧ CompletedAt dl' = CompletedAt dl)
  ∧ (∀ op s id dl dl',
       s !! id = Some dl → IsZero (CompletedAt dl) = false → keeps id op →
       run_op op s !! id = Some dl' → IsZero (CompletedAt dl') = true →
       op = OpIncrementRetry id ∧ snd (IncrementRetry id s) = true).
Proof.
  split; [|split; [|split]].
  - intros. by apply UpdateTransfer_absent.
  - intros now id b st s dl H.
    eexists. split; [by apply UpdateTransfer_lookup|]. simpl.
    repeat split; try reflexivity.
    + assert (terminal st = bool_decide (st = StatusCompleted ∨ st = StatusFailed)) as ->; [|done].
      apply eq_true_iff_eq. rewrite terminal_true.
      split; [apply bool_decide_eq_true_2 | apply bool_decide_eq_true_1].
    + intros k Hk. by apply UpdateTransfer_other.
  - intros. by apply updates_keep_CompletedAt.
  - intros op s id dl dl' H Hz Hk H' Hz'.
    destruct (run_op_CompletedAt _ _ _ _ _ H Hz Hk H') as [E | (? & ? & _)]; [|done].
    rewrite E in Hz'. congruence.
Qed.

Lemma UpdateTransfer_correct_witness :
  Examples.s1 !! Examples.id1 = Some Examples.fresh1
  ∧ ∃ dl', UpdateTransfer 9 Examples.id1 1000 StatusCompleted Examples.s1 !! Examples.id1
             = Some dl'
      ∧ BytesDownloaded dl' = 1000 ∧ dlStatus dl' = StatusCompleted ∧ CompletedAt dl' = 9.
Proof.
  assert (Examples.s1 !! Examples.id1 = Some Examples.fresh1) as H0
    by (vm_compute; reflexivity).
  split; [exact H0|].
  destruct (proj1 (proj2 UpdateTransfer_correct) 9 Examples.id1 1000 StatusCompleted
              Examples.s1 Examples.fresh1 H0)
    as (dl' & H & Hb & Hst & Hc & _).
  exists dl'. repeat split; [exact H | exact Hb | exact Hst |].
  rewrite Hc. reflexivity.
Defined.

(** *** The lifecycle *)

Lemma run_op_status op s id dl dl' :
  s !! id = Some dl → run_op op s !! id = Some dl' →
  match op with
  | OpAdd e _ _ _ _ _ =>
      if decide (generateID e = id) then dlStatus dl' = StatusQueued
      else dlStatus dl' = dlStatus dl
  | OpUpdateTransfer _ k _ st => dlStatus dl' = if decide (k = id) then st else dlStatus dl
  | OpIncrementRetry k =>
      if decide (k = id)
      then (if snd (IncrementRetry k s) then dlStatus dl' = StatusQueued
            else dlStatus dl' = dlStatus dl)
      else dlStatus dl' = dlStatus dl
  | OpSetTransferID _ _ | OpRemove _ => dlStatus dl' = dlStatus dl
  end.
Proof.
  intros H. destruct op as [e now u f sz c | now k b st | k | k t | k]; simpl.
  - case_decide as Hd.
    + rewrite Hd, lookup_insert_eq. by intros [= <-].
    + rewrite lookup_insert_ne by done. rewrite H. by intros [= <-].
  - case_decide as Hd.
    + subst k. rewrite (UpdateTransfer_lookup _ _ _ _ _ _ H). by intros [= <-].
    + rewrite UpdateTransfer_other by done. rewrite H. by intros [= <-].
  - case_decide as Hd.
    + subst k. destruct (IncrementRetry_entry _ _ _ H) as (dl1 & H1 & _ & _ & Hcase).
      rewrite H1. intros [= <-].
      destruct (_ >? _); destruct Hcase as (-> & ? & _); done.
    + rewrite IncrementRetry_other by done. rewrite H. by intros [= <-].
  - destruct (decide (k = id)) as [-> | Hne].
    + rewrite (SetTransferID_lookup _ _ _ _ H). by intros [= <-].
    + rewrite SetTransferID_other by done. rewrite H. by intros [= <-].
  - unfold Remove. intros Hd. apply lookup_delete_Some in Hd as [_ Hd].
    rewrite H in Hd. by injection Hd as <-.
Qed.

(** C4, as stated, fails: [UpdateTransfer] stores the status it is given,
    so after an entry is Completed a further [UpdateTransfer] with
    Queued takes it out of the terminal state without a retry. *)
Lemma lifecycle_ordered_fails : ¬ lifecycle_ordered.
Proof.
  intros Hclaim.
  assert (reachable Examples.s2) as Hreach.
  { apply reach_step; [apply reach_step; [apply reach_New | exact I]|].
    right; right; left; reflexivity. }
  destruct (Hclaim Examples.s2 Examples.requeue1 Examples.id1 Examples.done1
              Examples.requeued1 Hreach) as [Heq | [Hterm _]].
  - left; reflexivity.
  - vm_compute; reflexivity.
  - vm_compute; reflexivity.
  - intros id' ?. discriminate.
  - exact I.
  - discriminate Heq.
  - discriminate Hterm.
Qed.

(** C4, amended. In every reachable state each status is one of the four
    constants. On an entry that is present before and after a call:
    [Add] leaves its status (or files a fresh Queued entry under its
    id), [UpdateTransfer] on its id sets the status to the one it is
    given whatever the status was, [IncrementRetry] on its id sets
    Queued when it answers [true] and leaves the status when it answers
    [false], and no other call changes it. *)
Theorem status_transitions (s : Store) (op : Op) (id : string) (dl dl' : Download) :
  reachable s → op_ok op →
  s !! id = Some dl → run_op op s !! id = Some dl' →
  valid_status (dlStatus dl) ∧ valid_status (dlStatus dl')
  ∧ match op with
    | OpAdd e _ _ _ _ _ =>
        if decide (generateID e = id) then dlStatus dl' = StatusQueued
        else dlStatus dl' = dlStatus dl
    | OpUpdateTransfer _ k _ st =>
        dlStatus dl' = if decide (k = id) then st else dlStatus dl
    | OpIncrementRetry k =>
        if decide (k = id)
        then (if snd (IncrementRetry k s) then dlStatus dl' = StatusQueued
              else dlStatus dl' = dlStatus dl)
        else dlStatus dl' = dlStatus dl
    | OpSetTransferID _ _ | OpRemove _ => dlStatus dl' = dlStatus dl
    end.
Proof.
  intros Hreach Hok H H'.
  split; [by apply (reachable_statuses_valid s Hreach id)|].
  split.
  - apply (reachable_statuses_valid (run_op op s)) with id; [|done].
    by apply reach_step.
  - by apply run_op_status.
Qed.

Lemma status_transitions_witness :
  reachable Examples.s2
  ∧ Examples.s2 !! Examples.id1 = Some Examples.done1
  ∧ run_op Examples.requeue1 Examples.s2 !! Examples.id1 = Some Examples.requeued1
  ∧ dlStatus Examples.requeued1 = StatusQueued.
Proof.
  assert (reachable Examples.s2) as Hreach.
  { apply reach_step; [apply reach_step; [apply reach_New | exact I]|].
    right; right; left; reflexivity. }
  assert (Examples.s2 !! Examples.id1 = Some Examples.done1) as H by (vm_compute; reflexivity).
  assert (run_op Examples.requeue1 Examples.s2 !! Examples.id1 = Some Examples.requeued1)
    as H' by (vm_compute; reflexivity).
  split; [exact Hreach|]. split; [exact H|]. split; [exact H'|].
  exact (proj2 (proj2 (status_transitions Examples.s2 Examples.requeue1 Examples.id1
    Examples.done1 Examples.requeued1 Hreach (or_introl eq_refl) H H'))).
Defined.

(** *** The two listings *)

Lemma elem_of_All s dl : dl ∈ All s ↔ ∃ k, s !! k = Some dl.
Proof.
  unfold All. rewrite list_elem_of_fmap. split.
  - intros [[k d] [-> H]]. exists k. by apply elem_of_map_to_list.
  - intros [k H]. exists (k, dl). split; [done|]. by apply elem_of_map_to_list.
Qed.

Lemma elem_of_Queue s dl : dl ∈ Queue s ↔ dl ∈ All s ∧ in_queue dl = true.
Proof. unfold Queue. rewrite !list_elem_of_In. apply filter_In. Qed.

Lemma elem_of_History s dl : dl ∈ History s ↔ dl ∈ All s ∧ in_history dl = true.
Proof. unfold History. rewrite !list_elem_of_In. apply filter_In. Qed.

Lemma NoDup_All s : ids_consistent s → NoDup (All s).
Proof.
  intros Hs. unfold All. apply NoDup_fmap_2_strong; [|apply NoDup_map_to_list].
  intros [k1 d1] [k2 d2] H1%elem_of_map_to_list H2%elem_of_map_to_list. simpl.
  intros <-. f_equal. rewrite <- (Hs _ _ H1). apply (Hs _ _ H2).
Qed.

Lemma filter_queue_history (l : list Download) :
  Forall (λ d, valid_status (dlStatus d)) l →
  List.filter in_queue l ++ List.filter in_history l ≡ₚ l.
Proof.
  induction 1 as [| d l Hd _ IH]; simpl; [done|].
  rewrite (valid_status_split d Hd). destruct (in_queue d); simpl.
  - by rewrite IH.
  - rewrite <- Permutation_middle. by rewrite IH.
Qed.

(** C5. In a reachable registry every stored entry is in exactly one of
    [Queue] and [History]: in [Queue] exactly when its status is Queued
    or Downloading, in [History] exactly when it is Completed or Failed.
    The two listings together are a rearrangement of [All], which lists
    no entry twice. *)
Theorem Queue_History_partition (s : Store) :
  reachable s →
  (∀ id dl, s !! id = Some dl →
     (dl ∈ Queue s ↔ dlStatus dl = StatusQueued ∨ dlStatus dl = StatusDownloading)
     ∧ (dl ∈ History s ↔ dlStatus dl = StatusCompleted ∨ dlStatus dl = StatusFailed)
     ∧ (dl ∈ Queue s ∨ dl ∈ History s)
     ∧ ¬ (dl ∈ Queue s ∧ dl ∈ History s))
  ∧ Queue s ++ History s ≡ₚ All s
  ∧ NoDup (All s).
Proof.
  intros Hreach.
  pose proof (reachable_statuses_valid s Hreach) as Hvalid.
  pose proof (reachable_ids_consistent s Hreach) as Hids.
  split; [|split].
  - intros id dl H.
    assert (dl ∈ All s) as Hall by (apply elem_of_All; eauto).
    pose proof (valid_status_split dl (Hvalid _ _ H)) as Hsplit.
    rewrite elem_of_Queue, elem_of_History, <- in_queue_true, <- in_history_true.
    rewrite Hsplit. destruct (in_queue dl); simpl; intuition congruence.
  - apply filter_queue_history. apply Forall_forall.
    intros d [k Hk]%elem_of_All. by apply (Hvalid k).
  - by apply NoDup_All.
Qed.

Lemma Queue_History_partition_witness :
  reachable Examples.s2
  ∧ Examples.s2 !! Examples.id1 = Some Examples.done1
  ∧ Examples.done1 ∈ History Examples.s2
  ∧ ¬ Examples.done1 ∈ Queue Examples.s2.
Proof.
  assert (reachable Examples.s2) as Hreach.
  { apply reach_step; [apply reach_step; [apply reach_New | exact I]|].
    right; right; left; reflexivity. }
  assert (Examples.s2 !! Examples.id1 = Some Examples.done1) as H by (vm_compute; reflexivity).
  split; [exact Hreach|]. split; [exact H|].
  destruct (proj1 (Queue_History_partition Examples.s2 Hreach) _ _ H)
    as (_ & Hh & _ & Hex).
  assert (Examples.done1 ∈ History Examples.s2) as Hin.
  { apply Hh. left. reflexivity. }
  split; [exact Hin|]. intros Hq. apply Hex. split; [exact Hq | exact Hin].
Defined.

End Registry.

(** ** The reconciler *)

Section Reconciler.

Import Store StoreSpec Sabnzbd SyncSpec.

Lemma HasPrefix_spec p : ∀ s,
  Strings.HasPrefix s p = true ↔ ∃ post, s = String.append p post.
Proof.
  induction p as [| c p IH]; intros s.
  - destruct s; simpl; split; eauto.
  - destruct s as [| d r]; simpl.
    + split; [discriminate | intros [post H]; discriminate].
    + rewrite andb_true_iff, Ascii.eqb_eq, IH. split.
      * intros [-> [post ->]]. eauto.
      * intros [post [= -> ->]]. eauto.
Qed.

Lemma Contains_unfold s sub :
  Strings.Contains s sub =
    Strings.HasPrefix s sub ||
    match s with
    | EmptyString => false
    | String _ r => Strings.Contains r sub
    end.
Proof. by destruct s. Qed.

Lemma Contains_spec sub : ∀ s, Strings.Contains s sub = true ↔ occurs sub s.
Proof.
  induction s as [| c r IH]; rewrite Contains_unfold, orb_true_iff, HasPrefix_spec.
  - split.
    + intros [[post H] | ?]; [|done]. by exists EmptyString, post.
    + intros (pre & post & H). left. destruct pre; [by exists post | done].
  - rewrite IH. split.
    + intros [[post H] | (pre & post & H)].
      * by exists EmptyString, post.
      * exists (String c pre), post. simpl. by rewrite H.
    + intros (pre & post & H). destruct pre as [| c' pre].
      * left. by exists post.
      * right. injection H as -> ->. by exists pre, post.
Qed.

Lemma Contains_false sub s : Strings.Contains s sub = false ↔ ¬ occurs sub s.
Proof. rewrite <- Contains_spec. by destruct (Strings.Contains s sub). Qed.

(** C6. The status the pass derives from a backend state string:
    Completed when the string contains both the words Completed and
    Succeeded, Failed when it contains Completed without Succeeded,
    Downloading when it contains InProgress without Completed, Queued in
    every other case; and this is the status the pass stores for an
    entry that is not terminal and has a matching file. *)
Theorem newStatus_rules :
  (∀ state, occurs "Completed" state → occurs "Succeeded" state →
     newStatus state = StatusCompleted)
  ∧ (∀ state, occurs "Completed" state → ¬ occurs "Succeeded" state →
       newStatus state = StatusFailed)
  ∧ (∀ state, ¬ occurs "Completed" state → occurs "InProgress" state →
       newStatus state = StatusDownloading)
  ∧ (∀ state, ¬ occurs "Completed" state → ¬ occurs "InProgress" state →
       newStatus state = StatusQueued)
  ∧ (∀ transfers now dl t s d0,
       terminal (dlStatus dl) = false →
       transfers !! (Store.Username dl, Store.Filename dl) = Some t →
       s !! Store.ID dl = Some d0 →
       ∃ d1, syncEntry transfers now dl s !! Store.ID dl = Some d1
         ∧ dlStatus d1 = newStatus (Slskd.State t)
         ∧ BytesDownloaded d1 = Slskd.BytesTransferred t).
Proof.
  unfold newStatus. repeat split.
  - intros state H1%Contains_spec H2%Contains_spec. by rewrite H1, H2.
  - intros state H1%Contains_spec H2%Contains_false. by rewrite H1, H2.
  - intros state H1%Contains_false H2%Contains_spec. by rewrite H1, H2.
  - intros state H1%Contains_false H2%Contains_false. by rewrite H1, H2.
  - intros transfers now dl t s d0 Hterm Ht H0. unfold syncEntry.
    fold (terminal (dlStatus dl)). rewrite Hterm, Ht.
    rewrite (UpdateTransfer_lookup _ _ _ _ _ _ H0). eauto.
Qed.

Lemma newStatus_rules_witness :
  newStatus "Completed, Succeeded" = StatusCompleted
  ∧ newStatus "Completed, Cancelled" = StatusFailed
  ∧ newStatus "InProgress" = StatusDownloading
  ∧ newStatus "Queued, Remotely" = StatusQueued.
Proof.
  destruct newStatus_rules as (H1 & H2 & H3 & H4 & _).
  split; [|split; [|split]].
  - apply H1.
    + by exists EmptyString, ", Succeeded"%string.
    + by exists "Completed, "%string, EmptyString.
  - apply H2.
    + by exists EmptyString, ", Cancelled"%string.
    + apply Contains_false. reflexivity.
  - apply H3.
    + apply Contains_false. reflexivity.
    + by exists EmptyString, EmptyString.
  - apply H4; apply Contains_false; reflexivity.
Defined.

(** *** The lookup table built from the snapshot *)

Lemma addFiles_lookup u files : ∀ (m : Transfers) key t,
  addFiles u files m !! key = Some t →
  m !! key = Some t ∨ ∃ t', t' ∈ files ∧ key = (u, Slskd.Filename t').
Proof.
  unfold addFiles. induction files as [| f files IH]; intros m key t; simpl; [by left|].
  intros [H | (t' & Hin & ->)]%IH.
  - destruct (decide ((u, Slskd.Filename f) = key)) as [<- | Hne].
    + right. exists f. split; [left | done].
    + rewrite lookup_insert_ne in H by done. by left.
  - right. exists t'. split; [by right | done].
Qed.

Lemma addDirectories_lookup u dirs : ∀ (m : Transfers) key t,
  addDirectories u dirs m !! key = Some t →
  m !! key = Some t
  ∨ ∃ d t', d ∈ dirs ∧ t' ∈ Slskd.Files d ∧ key = (u, Slskd.Filename t').
Proof.
  unfold addDirectories. induction dirs as [| d dirs IH]; intros m key t; simpl; [by left|].
  intros [H | (d' & t' & Hd & Hin & ->)]%IH.
  - apply addFiles_lookup in H as [H | (t' & Hin & ->)]; [by left|].
    right. exists d, t'. split; [left | done].
  - right. exists d', t'. split; [by right | done].
Qed.

Lemma fold_groups_lookup groups : ∀ (m : Transfers) key t,
  fold_left (fun m g => addDirectories (Slskd.GroupUsername g) (Slskd.Directories g) m)
    groups m !! key = Some t →
  m !! key = Some t
  ∨ ∃ g d t', g ∈ groups ∧ d ∈ Slskd.Directories g ∧ t' ∈ Slskd.Files d
      ∧ key = (Slskd.GroupUsername g, Slskd.Filename t').
Proof.
  induction groups as [| g groups IH]; intros m key t; simpl; [by left|].
  intros [H | (g' & d & t' & Hg & Hd & Hin & ->)]%IH.
  - apply addDirectories_lookup in H as [H | (d & t' & Hd & Hin & ->)]; [by left|].
    right. exists g, d, t'. split; [left | done].
  - right. exists g', d, t'. split; [by right | done].
Qed.

Lemma buildTransfers_no_match groups dl :
  no_match groups dl →
  buildTransfers groups !! (Store.Username dl, Store.Filename dl) = None.
Proof.
  intros Hno. destruct (buildTransfers groups !! _) as [t|] eqn:E; [|done].
  apply fold_groups_lookup in E as [E | (g & d & t' & Hg & Hd & Hin & [= Hu Hf])].
  - by rewrite lookup_empty in E.
  - destruct (Hno g d t' Hg Hd Hin). done.
Qed.

(** *** A pass stays within the reachable states *)

Lemma newStatus_valid state : valid_status (newStatus state).
Proof.
  unfold newStatus, valid_status.
  destruct (_ && _); [tauto|].
  destruct (Strings.Contains state "Completed"); [tauto|].
  destruct (Strings.Contains state "InProgress"); tauto.
Qed.

Lemma syncEntry_reachable transfers now dl s :
  reachable s → reachable (syncEntry transfers now dl s).
Proof.
  intros Hs. unfold syncEntry. destruct (_ || _); [done|].
  destruct (transfers !! _) as [t|]; [|done].
  apply (reach_step s (OpUpdateTransfer now (Store.ID dl) (Slskd.BytesTransferred t)
                         (newStatus (Slskd.State t))) Hs).
  apply newStatus_valid.
Qed.

Lemma syncOnce_reachable fetched clock s :
  reachable s → reachable (syncOnce fetched clock s).
Proof.
  intros Hs. destruct fetched as [groups|]; [|done]. simpl.
  generalize (All s) 0%nat. intros snapshot. revert s Hs.
  induction snapshot as [| dl rest IH]; intros s Hs i; simpl; [done|].
  apply IH. by apply syncEntry_reachable.
Qed.

(** *** The frame of a pass *)

Lemma syncEntry_other transfers now d s id :
  Store.ID d ≠ id → syncEntry transfers now d s !! id = s !! id.
Proof.
  intros Hne. unfold syncEntry. destruct (_ || _); [done|].
  destruct (transfers !! _); [|done]. by apply UpdateTransfer_other.
Qed.

Lemma syncEntry_skipped transfers now d s :
  terminal (dlStatus d) = true
  ∨ transfers !! (Store.Username d, Store.Filename d) = None →
  syncEntry transfers now d s = s.
Proof.
  unfold syncEntry. fold (terminal (dlStatus d)).
  intros [-> | H]; [done|]. rewrite H. by destruct (terminal _).
Qed.

Lemma syncLoop_frame transfers clock snapshot : ∀ i s id,
  (∀ d, d ∈ snapshot → Store.ID d = id →
     terminal (dlStatus d) = true
     ∨ transfers !! (Store.Username d, Store.Filename d) = None) →
  syncLoop transfers clock i snapshot s !! id = s !! id.
Proof.
  induction snapshot as [| d rest IH]; intros i s id Hskip; simpl; [done|].
  rewrite IH by (intros d' Hd'; apply Hskip; by right).
  destruct (decide (Store.ID d = id)) as [Heq | Hne].
  - rewrite syncEntry_skipped; [done|]. apply Hskip; [left | done].
  - by apply syncEntry_other.
Qed.

(** C7. One pass leaves an entry exactly as it was when the entry is
    already Completed or Failed, and when no file of the fetched
    snapshot has its user name and file name; a pass whose fetch failed
    leaves the whole registry as it was. *)
Theorem syncOnce_frame (s : Store) (fetched : option (list Slskd.UserTransferGroup))
    (clock : nat → Time) (id : string) (dl : Download) :
  reachable s →
  s !! id = Some dl →
  dlStatus dl = StatusCompleted ∨ dlStatus dl = StatusFailed
  ∨ (∀ groups, fetched = Some groups → no_match groups dl) →
  syncOnce fetched clock s !! id = Some dl
  ∧ syncOnce None clock s = s.
Proof.
  intros Hreach H Hcase. split; [|done].
  destruct fetched as [groups|]; simpl; [|done].
  rewrite syncLoop_frame; [done|].
  intros d [k Hk]%elem_of_All Hid.
  pose proof (reachable_ids_consistent s Hreach k d Hk) as Hkd.
  assert (d = dl) as -> by congruence.
  destruct Hcase as [Hc | [Hf | Hno]].
  - left. apply terminal_true. by left.
  - left. apply terminal_true. by right.
  - right. apply buildTransfers_no_match. by apply Hno.
Qed.

Lemma syncOnce_frame_witness :
  reachable Examples.s2
  ∧ Examples.s2 !! Examples.id1 = Some Examples.done1
  ∧ syncOnce (Some (Examples.snapshot1 "InProgress" 400)) (fun _ => 11) Examples.s2
      !! Examples.id1 = Some Examples.done1.
Proof.
  assert (reachable Examples.s2) as Hreach.
  { apply reach_step; [apply reach_step; [apply reach_New | exact I]|].
    right; right; left; reflexivity. }
  assert (Examples.s2 !! Examples.id1 = Some Examples.done1) as H by (vm_compute; reflexivity).
  split; [exact Hreach|]. split; [exact H|].
  exact (proj1 (syncOnce_frame Examples.s2 (Some (Examples.snapshot1 "InProgress" 400))
                  (fun _ => 11) Examples.id1 Examples.done1 Hreach H (or_introl eq_refl))).
Defined.

(** The scenario of the specification: an InProgress snapshot moves a
    fresh entry to Downloading with 400 bytes, a later Completed,
    Succeeded snapshot moves it to Completed and stamps it. *)
Example reconcile_scenario :
  let after1 := syncOnce (Some (Examples.snapshot1 "InProgress" 400)) (fun _ => 11)
                  Examples.s1 in
  let after2 := syncOnce (Some (Examples.snapshot1 "Completed, Succeeded" 1000))
                  (fun _ => 12) after1 in
  after1 !! Examples.id1
    = Some (set_progress 400 StatusDownloading 0 Examples.fresh1)
  ∧ after2 !! Examples.id1
    = Some (set_progress 1000 StatusCompleted 12 Examples.fresh1)
  ∧ Queue after2 = [] ∧ length (History after2) = 1%nat.
Proof. vm_compute. repeat split; reflexivity. Qed.

End Reconciler.

(** ** Bytes *)

Lemma b2z_range b : 0 <= b2z b < 256.
Proof.
  unfold b2z. pose proof (Byte.to_N_bounded b). lia.
Qed.

Lemma z2b_b2z b : z2b (b2z b) = b.
Proof.
  unfold z2b, b2z. rewrite Z.mod_small by apply b2z_range.
  rewrite N2Z.id, Byte.of_to_N. reflexivity.
Qed.

Lemma b2z_z2b z : 0 <= z < 256 → b2z (z2b z) = z.
Proof.
  intros H. unfold z2b, b2z. rewrite Z.mod_small by done.
  destruct (Byte.of_N (Z.to_N z)) as [b|] eqn:E.
  - apply Byte.to_of_N in E. lia.
  - pose proof (Byte.to_of_N_option_map (Z.to_N z)) as Hm. rewrite E in Hm. simpl in Hm.
    destruct (N.leb_spec (Z.to_N z) 255); [discriminate | lia].
Qed.

Lemma b2z_z2b_mod z : b2z (z2b z) = z mod 256.
Proof.
  rewrite <- (b2z_z2b (z mod 256)) by (apply Z.mod_pos_bound; lia).
  unfold z2b. rewrite Z.mod_mod by lia. reflexivity.
Qed.

Lemma b2z_inj a b : b2z a = b2z b → a = b.
Proof. intros H. rewrite <- (z2b_b2z a), <- (z2b_b2z b). by rewrite H. Qed.

Lemma z2b_eq z b : z mod 256 = b2z b → z2b z = b.
Proof. intros H. apply b2z_inj. by rewrite b2z_z2b_mod. Qed.

(** ** Bit operations as arithmetic *)

Lemma lor_add_disjoint a b k :
  0 <= k → 0 <= b < 2^k → a mod 2^k = 0 → Z.lor a b = a + b.
Proof.
  intros Hk Hb Ha.
  assert (Z.land a b = 0) as Hland.
  { apply Z.bits_inj'. intros n Hn. rewrite Z.land_spec, Z.bits_0.
    destruct (Z.lt_ge_cases n k) as [Hlt | Hge].
    - assert (Z.testbit a n = false) as ->; [|done].
      rewrite <- (Z.mod_pow2_bits_low a k n) by lia. rewrite Ha. apply Z.bits_0.
    - assert (Z.testbit b n = false) as ->; [|apply andb_false_r].
      destruct (Z.eq_dec b 0) as [-> | Hnz]; [apply Z.bits_0|].
      apply Z.bits_above_log2; [lia|].
      assert (Z.log2 b < k) by (apply Z.log2_lt_pow2; lia). lia. }
  rewrite <- Z.lxor_lor by done. symmetry. by apply Z.add_nocarry_lxor.
Qed.

Lemma land_mask a k : 0 <= k → Z.land a (2^k - 1) = a mod 2^k.
Proof.
  intros Hk. rewrite <- Z.land_ones by done. f_equal. rewrite Z.ones_equiv. lia.
Qed.


(** ** [encoding/base64] *)

Section Base64Facts.

Import Base64.

Lemma quantum_arith b0 b1 b2 :
  0 <= b0 < 256 → 0 <= b1 < 256 → 0 <= b2 < 256 →
  quantum b0 b1 b2 = b0 * 65536 + b1 * 256 + b2.
Proof.
  intros H0 H1 H2. unfold quantum. rewrite !Z.shiftl_mul_pow2 by lia.
  rewrite (lor_add_disjoint (b0 * 2^16) (b1 * 2^8) 16) by (try arith; lia).
  rewrite (lor_add_disjoint _ b2 8) by (try arith; lia).
  lia.
Qed.

Lemma digit6_arith val shift : 0 <= shift → digit6 val shift = (val / 2^shift) mod 64.
Proof.
  intros H. unfold digit6. rewrite Z.shiftr_div_pow2 by done.
  change 0x3F with (2^6 - 1). by rewrite land_mask.
Qed.

Lemma digit6_range val shift : 0 <= shift → 0 <= digit6 val shift < 64.
Proof. intros H. rewrite digit6_arith by done. apply Z.mod_pos_bound. lia. Qed.

Lemma digits_arith s0 s1 s2 s3 :
  0 <= s0 < 64 → 0 <= s1 < 64 → 0 <= s2 < 64 → 0 <= s3 < 64 →
  Z.lor (Z.lor (Z.lor (Z.shiftl s0 18) (Z.shiftl s1 12)) (Z.shiftl s2 6)) s3
  = s0 * 262144 + s1 * 4096 + s2 * 64 + s3.
Proof.
  intros H0 H1 H2 H3. rewrite !Z.shiftl_mul_pow2 by lia.
  rewrite (lor_add_disjoint (s0 * 2^18) (s1 * 2^12) 18) by (try arith; lia).
  rewrite (lor_add_disjoint _ (s2 * 2^6) 12) by (try arith; lia).
  rewrite (lor_add_disjoint _ s3 6) by (try arith; lia).
  lia.
Qed.

Lemma quantumBytes_full b0 b1 b2 :
  let val := quantum (b2z b0) (b2z b1) (b2z b2) in
  quantumBytes [digit6 val 18; digit6 val 12; digit6 val 6; digit6 val 0] 4 = [b0; b1; b2].
Proof.
  intros val. unfold quantumBytes. cbn [nth firstn Nat.sub].
  pose proof (b2z_range b0) as H0. pose proof (b2z_range b1) as H1.
  pose proof (b2z_range b2) as H2.
  rewrite digits_arith by (apply digit6_range; lia).
  rewrite !digit6_arith by lia. rewrite !Z.shiftr_div_pow2 by lia.
  subst val. rewrite quantum_arith by done.
  f_equal; [|f_equal; [|f_equal]]; apply z2b_eq; arith.
Qed.

Lemma quantumBytes_two b0 b1 :
  let val := Z.lor (Z.shiftl (b2z b0) 16) (Z.shiftl (b2z b1) 8) in
  quantumBytes [digit6 val 18; digit6 val 12; digit6 val 6] 3 = [b0; b1].
Proof.
  intros val. unfold quantumBytes. cbn [nth firstn Nat.sub].
  pose proof (b2z_range b0) as H0. pose proof (b2z_range b1) as H1.
  rewrite digits_arith by (try (apply digit6_range; lia); lia).
  rewrite !digit6_arith by lia. rewrite !Z.shiftr_div_pow2 by lia.
  assert (val = b2z b0 * 65536 + b2z b1 * 256) as ->.
  { subst val. rewrite !Z.shiftl_mul_pow2 by lia.
    rewrite (lor_add_disjoint _ _ 16) by (try arith; lia). lia. }
  f_equal; [|f_equal]; apply z2b_eq; arith.
Qed.

Lemma quantumBytes_one b0 :
  let val := Z.shiftl (b2z b0) 16 in
  quantumBytes [digit6 val 18; digit6 val 12] 2 = [b0].
Proof.
  intros val. unfold quantumBytes. cbn [nth firstn Nat.sub].
  pose proof (b2z_range b0) as H0.
  rewrite digits_arith by (try (apply digit6_range; lia); lia).
  rewrite !digit6_arith by lia. rewrite !Z.shiftr_div_pow2 by lia.
  assert (val = b2z b0 * 65536) as ->.
  { subst val. rewrite !Z.shiftl_mul_pow2 by lia. lia. }
  f_equal. apply z2b_eq. arith.
Qed.

Lemma below_64 (P : Z → Prop) :
  (∀ n : nat, (n < 64)%nat → P (Z.of_nat n)) → ∀ v, 0 <= v < 64 → P v.
Proof.
  intros H v Hv. rewrite <- (Z2Nat.id v) by lia. apply H. lia.
Qed.

Lemma decodeMap_encode v : 0 <= v < 64 → decodeMap (encode v) = Some v.
Proof.
  revert v. apply below_64. intros n Hn.
  do 64 (destruct n as [|n]; [reflexivity|]). lia.
Qed.

Lemma decodeMap_padChar : decodeMap padChar = None.
Proof. reflexivity. Qed.

Lemma decodeMap_sextet val shift :
  0 <= shift → decodeMap (sextet val shift) = Some (digit6 val shift).
Proof. intros H. apply decodeMap_encode. by apply digit6_range. Qed.

Lemma Decode_digit dbuf c rest out :
  decodeMap c = Some out → (length dbuf < 3)%nat →
  Decode dbuf (c :: rest) = Decode (dbuf ++ [out]) rest.
Proof.
  intros Hc Hlen. cbn [Decode]. rewrite Hc.
  destruct (Nat.eqb_spec (length (dbuf ++ [out])) 4) as [E | _]; [|done].
  rewrite length_app in E. simpl in E. lia.
Qed.

Lemma Decode_last_digit dbuf c rest out :
  decodeMap c = Some out → length dbuf = 3%nat →
  Decode dbuf (c :: rest)
  = option_map (app (quantumBytes (dbuf ++ [out]) 4)) (Decode [] rest).
Proof.
  intros Hc Hlen. cbn [Decode]. rewrite Hc.
  destruct (Nat.eqb_spec (length (dbuf ++ [out])) 4) as [_ | E]; [done|].
  rewrite length_app in E. simpl in E. lia.
Qed.

Lemma Decode_pad2 s0 s1 :
  Decode [s0; s1] [padChar; padChar] = Some (quantumBytes [s0; s1] 2).
Proof. reflexivity. Qed.

Lemma Decode_pad1 s0 s1 s2 :
  Decode [s0; s1; s2] [padChar] = Some (quantumBytes [s0; s1; s2] 3).
Proof. reflexivity. Qed.

Lemma Decode_Encode_le n : ∀ src, (length src <= n)%nat → Decode [] (Encode src) = Some src.
Proof.
  induction n as [| n IH]; intros src Hlen.
  - destruct src; [reflexivity | simpl in Hlen; lia].
  - destruct src as [| b0 [| b1 [| b2 rest]]]; [reflexivity | | |]; cbn [Encode].
    + rewrite (Decode_digit _ _ _ _ (decodeMap_sextet _ 18 ltac:(lia))) by (simpl; lia).
      rewrite (Decode_digit _ _ _ _ (decodeMap_sextet _ 12 ltac:(lia))) by (simpl; lia).
      cbn [app]. rewrite Decode_pad2. f_equal. apply quantumBytes_one.
    + rewrite (Decode_digit _ _ _ _ (decodeMap_sextet _ 18 ltac:(lia))) by (simpl; lia).
      rewrite (Decode_digit _ _ _ _ (decodeMap_sextet _ 12 ltac:(lia))) by (simpl; lia).
      rewrite (Decode_digit _ _ _ _ (decodeMap_sextet _ 6 ltac:(lia))) by (simpl; lia).
      cbn [app]. rewrite Decode_pad1. f_equal. apply quantumBytes_two.
    + rewrite (Decode_digit _ _ _ _ (decodeMap_sextet _ 18 ltac:(lia))) by (simpl; lia).
      rewrite (Decode_digit _ _ _ _ (decodeMap_sextet _ 12 ltac:(lia))) by (simpl; lia).
      rewrite (Decode_digit _ _ _ _ (decodeMap_sextet _ 6 ltac:(lia))) by (simpl; lia).
      rewrite (Decode_last_digit _ _ _ _ (decodeMap_sextet _ 0 ltac:(lia))) by done.
      rewrite IH by (simpl in Hlen; lia).
      cbn [option_map app]. f_equal. by rewrite quantumBytes_full.
Qed.

Lemma DecodeString_EncodeToString src : DecodeString (EncodeToString src) = Some src.
Proof.
  unfold DecodeString, EncodeToString.
  rewrite String.list_byte_of_string_of_list_byte.
  by apply (Decode_Encode_le (length src)).
Qed.

End Base64Facts.

Section Base64Reject.

Import Base64.

Lemma skipNewlines_keeps c l :
  c ∈ l → isNewline c = false → c ∈ skipNewlines l.
Proof.
  intros Hin Hc. induction l as [| h l IH]; cbn [skipNewlines]; [done|].
  destruct (isNewline h) eqn:Eh; [|done].
  apply elem_of_cons in Hin as [-> | Hin]; [congruence | by apply IH].
Qed.

(** A byte that is no digit of the alphabet, no line break and no
    padding makes the decoder fail, wherever it stands. *)
Lemma Decode_foreign_byte c : ∀ src dbuf,
  c ∈ src → decodeMap c = None → isNewline c = false → c ≠ padChar →
  Decode dbuf src = None.
Proof.
  induction src as [| h rest IH]; intros dbuf Hin Hmap Hnl Hpad.
  - by apply elem_of_nil in Hin.
  - cbn [Decode]. destruct (decodeMap h) as [out|] eqn:Eh.
    + apply elem_of_cons in Hin as [-> | Hin]; [congruence|].
      destruct (_ =? _)%nat; [|by apply IH].
      by rewrite (IH [] Hin Hmap Hnl Hpad).
    + destruct (isNewline h) eqn:Enl.
      { apply elem_of_cons in Hin as [-> | Hin]; [congruence | by apply IH]. }
      destruct (Byte.eqb h padChar) eqn:Ep; [|done]. cbn [negb].
      apply Byte.byte_dec_bl in Ep. subst h.
      apply elem_of_cons in Hin as [-> | Hin]; [done|].
      pose proof (skipNewlines_keeps c rest Hin Hnl) as Hin'.
      destruct (length dbuf) as [| [| [| n]]]; [done | done | |].
      * destruct (skipNewlines rest) as [| c' rest'] eqn:Er; [done|].
        destruct (Byte.eqb c' padChar) eqn:Ep'; [|done]. cbn [negb].
        apply Byte.byte_dec_bl in Ep'. subst c'.
        apply elem_of_cons in Hin' as [-> | Hin']; [done|].
        pose proof (skipNewlines_keeps c rest' Hin' Hnl) as Hin''.
        destruct (skipNewlines rest'); [by apply elem_of_nil in Hin'' | done].
      * destruct (skipNewlines rest); [by apply elem_of_nil in Hin' | done].
Qed.

End Base64Reject.

(** ** [strconv] *)

Section StrconvFacts.

Import Strconv.

Lemma b2z_digit d : 0 <= d < 10 → b2z (digit d) = 48 + d.
Proof. intros H. unfold digit. apply b2z_z2b. lia. Qed.

Lemma isDigit_digit d : 0 <= d < 10 → isDigit (digit d) = true.
Proof. intros H. unfold isDigit. rewrite b2z_digit by done. lia. Qed.

Lemma parseDigits_digit a d rest :
  0 <= d < 10 → parseDigits a (digit d :: rest) = parseDigits (a * 10 + d) rest.
Proof.
  intros H. cbn [parseDigits]. rewrite isDigit_digit, b2z_digit by done.
  f_equal. lia.
Qed.

(** What [formatBits] writes for [u]: a first digit [d] and further
    digits [ds], all decimal, [d] zero only for [u = 0], and read back by
    [parseDigits] as [u]. *)
Lemma formatBits_spec k : ∀ u acc,
  (0 < k)%nat → 0 <= u < 10 ^ Z.of_nat k →
  ∃ d ds, formatBits k u acc = d :: ds ++ acc
    ∧ isDigit d = true
    ∧ Forall (λ c, isDigit c = true) ds
    ∧ (u = 0 → ds = [])
    ∧ (b2z d = 0x30 → u = 0)
    ∧ ∀ a rest, parseDigits a (d :: ds ++ rest)
                = parseDigits (a * 10 ^ Z.of_nat (S (length ds)) + u) rest.
Proof.
  induction k as [| k IH]; intros u acc Hk Hu; [lia|].
  cbn [formatBits]. destruct (Z.ltb_spec u 10) as [Hlt | Hge].
  - exists (digit u), []. simpl app.
    split; [done|]. split; [apply isDigit_digit; lia|]. split; [constructor|].
    split; [done|]. split; [rewrite b2z_digit by lia; lia|].
    intros a rest. rewrite parseDigits_digit by lia. f_equal.
  - assert (0 < k)%nat as Hk'.
    { destruct k; [|lia]. simpl in Hu. lia. }
    assert (0 <= u / 10 < 10 ^ Z.of_nat k) as Hu'.
    { rewrite Nat2Z.inj_succ, Z.pow_succ_r in Hu by lia. arith. }
    destruct (IH (u / 10) (digit (u mod 10) :: acc) Hk' Hu')
      as (d & ds & Heq & Hd & Hds & _ & Hnz & Hparse).
    exists d, (ds ++ [digit (u mod 10)]).
    split; [rewrite Heq; by rewrite <- app_assoc|].
    split; [done|].
    split; [apply Forall_app; split; [done|]; constructor; [|done];
            apply isDigit_digit; arith|].
    split; [lia|]. split; [intros H0; apply Hnz in H0; arith|].
    intros a rest. rewrite <- app_assoc. simpl app.
    rewrite Hparse, parseDigits_digit by arith.
    f_equal. rewrite length_app. simpl length.
    replace (Z.of_nat (S (length ds + 1))) with (Z.succ (Z.of_nat (S (length ds)))) by lia.
    rewrite Z.pow_succ_r by lia. arith.
Qed.

Lemma parseDigits_nil a : parseDigits a [] = Some a.
Proof. reflexivity. Qed.

Lemma ParseInt_FormatInt z : int64_range z → ParseInt (FormatInt z) = Some z.
Proof.
  unfold int64_range. intros Hz. unfold FormatInt.
  destruct (Z.ltb_spec z 0) as [Hneg | Hpos].
  - destruct (formatBits_spec 20 (- z) []) as (d & ds & Heq & Hd & _ & _ & _ & Hparse);
      [lia | lia |].
    rewrite Heq. unfold ParseInt. change (b2z x2d =? 0x2d) with true. cbv iota.
    unfold parseUnsigned. rewrite Hparse, parseDigits_nil.
    cbn [option_map]. rewrite Z.mul_0_l, Z.add_0_l, Z.opp_involutive.
    destruct (_ && _) eqn:E; [done | lia].
  - destruct (formatBits_spec 20 z []) as (d & ds & Heq & Hd & _ & _ & _ & Hparse);
      [lia | lia |].
    rewrite Heq. unfold ParseInt. unfold isDigit in Hd.
    destruct (Z.eqb_spec (b2z d) 0x2d) as [E | _]; [lia|].
    destruct (Z.eqb_spec (b2z d) 0x2b) as [E | _]; [lia|].
    unfold parseUnsigned. rewrite Hparse, parseDigits_nil.
    rewrite Z.mul_0_l, Z.add_0_l.
    assert ((- 2 ^ 63 <=? z) && (z <? 2 ^ 63) = true) as -> by lia. done.
Qed.

End StrconvFacts.

(** ** [unicode/utf8] *)

Section Utf8Facts.

Import Utf8.

Lemma land_7 a : Z.land a 0x07 = a mod 8.
Proof. apply (land_mask a 3). lia. Qed.
Lemma land_15 a : Z.land a 0x0F = a mod 16.
Proof. apply (land_mask a 4). lia. Qed.
Lemma land_31 a : Z.land a 0x1F = a mod 32.
Proof. apply (land_mask a 5). lia. Qed.
Lemma land_63 a : Z.land a 0x3F = a mod 64.
Proof. apply (land_mask a 6). lia. Qed.

Ltac to_arith :=
  rewrite ?b2z_z2b_mod, ?land_7, ?land_15, ?land_31, ?land_63;
  rewrite ?Z.shiftl_mul_pow2, ?Z.shiftr_div_pow2 by lia.

Lemma rune2_arith x0 x1 :
  0 <= x0 < 256 → 0 <= x1 < 256 →
  Z.lor (Z.shiftl (Z.land x0 0x1F) 6) (Z.land x1 0x3F) = (x0 mod 32) * 64 + x1 mod 64.
Proof.
  intros H0 H1. to_arith.
  rewrite (lor_add_disjoint _ _ 6) by (try arith; lia). lia.
Qed.

Lemma rune3_arith x0 x1 x2 :
  0 <= x0 < 256 → 0 <= x1 < 256 → 0 <= x2 < 256 →
  Z.lor (Z.lor (Z.shiftl (Z.land x0 0x0F) 12) (Z.shiftl (Z.land x1 0x3F) 6)) (Z.land x2 0x3F)
  = (x0 mod 16) * 4096 + (x1 mod 64) * 64 + x2 mod 64.
Proof.
  intros H0 H1 H2. to_arith.
  rewrite (lor_add_disjoint _ (x1 mod 64 * 2^6) 12) by (try arith; lia).
  rewrite (lor_add_disjoint _ _ 6) by (try arith; lia). lia.
Qed.

Lemma rune4_arith x0 x1 x2 x3 :
  0 <= x0 < 256 → 0 <= x1 < 256 → 0 <= x2 < 256 → 0 <= x3 < 256 →
  Z.lor (Z.lor (Z.lor (Z.shiftl (Z.land x0 0x07) 18) (Z.shiftl (Z.land x1 0x3F) 12))
           (Z.shiftl (Z.land x2 0x3F) 6)) (Z.land x3 0x3F)
  = (x0 mod 8) * 262144 + (x1 mod 64) * 4096 + (x2 mod 64) * 64 + x3 mod 64.
Proof.
  intros H0 H1 H2 H3. to_arith.
  rewrite (lor_add_disjoint _ (x1 mod 64 * 2^12) 18) by (try arith; lia).
  rewrite (lor_add_disjoint _ (x2 mod 64 * 2^6) 12) by (try arith; lia).
  rewrite (lor_add_disjoint _ _ 6) by (try arith; lia). lia.
Qed.

Import TokenSpec.

Lemma first_two x0 : 0xC2 <= x0 <= 0xDF → first x0 = 0x02.
Proof. intros H. unfold first. decide_tests. Qed.

Lemma first_three x0 x1 :
  lead3 x0 x1 →
  first x0 = 0x13 ∧ 0xA0 <= x1 <= 0xBF
  ∨ first x0 = 0x03 ∧ 0x80 <= x1 <= 0xBF
  ∨ first x0 = 0x23 ∧ 0x80 <= x1 <= 0x9F.
Proof.
  unfold lead3, first. intros H. decide_tests; lia.
Qed.

Lemma first_four x0 x1 :
  lead4 x0 x1 →
  first x0 = 0x34 ∧ 0x90 <= x1 <= 0xBF
  ∨ first x0 = 0x04 ∧ 0x80 <= x1 <= 0xBF
  ∨ first x0 = 0x44 ∧ 0x80 <= x1 <= 0x8F.
Proof.
  unfold lead4, first. intros H. decide_tests; lia.
Qed.

Lemma DecodeRune_two b0 b1 rest :
  0xC2 <= b2z b0 <= 0xDF → cont (b2z b1) →
  DecodeRune (b0 :: b1 :: rest) = (b2z b0 mod 32 * 64 + b2z b1 mod 64, 2%nat).
Proof.
  unfold cont. intros H0 H1.
  unfold DecodeRune, byte_at. cbn [nth length]. rewrite (first_two _ H0).
  change (0xF0 <=? 0x02) with false. change (Z.land 0x02 7) with 2.
  change (acceptRanges (Z.shiftr 0x02 4)) with (0x80, 0xBF). cbv beta iota zeta.
  rewrite rune2_arith by apply b2z_range.
  decide_tests. done.
Qed.

Lemma DecodeRune_three b0 b1 b2 rest :
  lead3 (b2z b0) (b2z b1) → cont (b2z b2) →
  DecodeRune (b0 :: b1 :: b2 :: rest)
  = (b2z b0 mod 16 * 4096 + b2z b1 mod 64 * 64 + b2z b2 mod 64, 3%nat).
Proof.
  unfold cont. intros H01 H2.
  unfold DecodeRune, byte_at. cbn [nth length].
  rewrite rune3_arith by apply b2z_range.
  destruct (first_three _ _ H01) as [[-> H1] | [[-> H1] | [-> H1]]].
  - change (0xF0 <=? 0x13) with false. change (Z.land 0x13 7) with 3.
    change (acceptRanges (Z.shiftr 0x13 4)) with (0xA0, 0xBF). cbv beta iota zeta.
    decide_tests. done.
  - change (0xF0 <=? 0x03) with false. change (Z.land 0x03 7) with 3.
    change (acceptRanges (Z.shiftr 0x03 4)) with (0x80, 0xBF). cbv beta iota zeta.
    decide_tests. done.
  - change (0xF0 <=? 0x23) with false. change (Z.land 0x23 7) with 3.
    change (acceptRanges (Z.shiftr 0x23 4)) with (0x80, 0x9F). cbv beta iota zeta.
    decide_tests. done.
Qed.

Lemma DecodeRune_four b0 b1 b2 b3 rest :
  lead4 (b2z b0) (b2z b1) → cont (b2z b2) → cont (b2z b3) →
  DecodeRune (b0 :: b1 :: b2 :: b3 :: rest)
  = (b2z b0 mod 8 * 262144 + b2z b1 mod 64 * 4096 + b2z b2 mod 64 * 64 + b2z b3 mod 64,
     4%nat).
Proof.
  unfold cont. intros H01 H2 H3.
  unfold DecodeRune, byte_at. cbn [nth length].
  rewrite rune4_arith by apply b2z_range.
  destruct (first_four _ _ H01) as [[-> H1] | [[-> H1] | [-> H1]]].
  - change (0xF0 <=? 0x34) with false. change (Z.land 0x34 7) with 4.
    change (acceptRanges (Z.shiftr 0x34 4)) with (0x90, 0xBF). cbv beta iota zeta.
    decide_tests. done.
  - change (0xF0 <=? 0x04) with false. change (Z.land 0x04 7) with 4.
    change (acceptRanges (Z.shiftr 0x04 4)) with (0x80, 0xBF). cbv beta iota zeta.
    decide_tests. done.
  - change (0xF0 <=? 0x44) with false. change (Z.land 0x44 7) with 4.
    change (acceptRanges (Z.shiftr 0x44 4)) with (0x80, 0x8F). cbv beta iota zeta.
    decide_tests. done.
Qed.

Lemma lor_C0 v : 0 <= v < 64 → Z.lor 0xC0 v = 0xC0 + v.
Proof. intros H. apply (lor_add_disjoint _ _ 6); [lia | lia | reflexivity]. Qed.
Lemma lor_E0 v : 0 <= v < 32 → Z.lor 0xE0 v = 0xE0 + v.
Proof. intros H. apply (lor_add_disjoint _ _ 5); [lia | lia | reflexivity]. Qed.
Lemma lor_F0 v : 0 <= v < 16 → Z.lor 0xF0 v = 0xF0 + v.
Proof. intros H. apply (lor_add_disjoint _ _ 4); [lia | lia | reflexivity]. Qed.
Lemma lor_80 v : 0 <= v < 128 → Z.lor 0x80 v = 0x80 + v.
Proof. intros H. apply (lor_add_disjoint _ _ 7); [lia | lia | reflexivity]. Qed.

Ltac encode_bytes :=
  to_arith;
  rewrite ?lor_C0, ?lor_E0, ?lor_F0, ?lor_80 by arith;
  repeat (apply (f_equal2 cons); [apply z2b_eq; arith|]).

Lemma EncodeRune_two b0 b1 :
  0xC2 <= b2z b0 <= 0xDF → cont (b2z b1) →
  EncodeRune (b2z b0 mod 32 * 64 + b2z b1 mod 64) = [b0; b1].
Proof.
  unfold cont. intros H0 H1. set (r := _ + _).
  assert (0x80 <= r <= 0x7FF) as Hr by (subst r; arith).
  unfold EncodeRune. rewrite (Z.mod_small r) by lia.
  decide_tests. subst r. encode_bytes. done.
Qed.

Lemma three_range x0 x1 x2 :
  lead3 x0 x1 → cont x2 →
  let r := x0 mod 16 * 4096 + x1 mod 64 * 64 + x2 mod 64 in
  0x800 <= r <= 0xFFFF ∧ ¬ (0xD800 <= r <= 0xDFFF).
Proof. unfold lead3, cont. cbv zeta. intros H01 H2. arith. Qed.

Lemma EncodeRune_three b0 b1 b2 :
  lead3 (b2z b0) (b2z b1) → cont (b2z b2) →
  EncodeRune (b2z b0 mod 16 * 4096 + b2z b1 mod 64 * 64 + b2z b2 mod 64) = [b0; b1; b2].
Proof.
  intros H01 H2. destruct (three_range _ _ _ H01 H2) as [Hr Hs]. cbv zeta in Hr, Hs.
  set (r := _ + _) in *.
  unfold EncodeRune, MaxRune, surrogateMin, surrogateMax.
  rewrite (Z.mod_small r) by lia.
  decide_tests. subst r. unfold encode3, lead3, cont in *. encode_bytes. done.
Qed.

Lemma four_range x0 x1 x2 x3 :
  lead4 x0 x1 → cont x2 → cont x3 →
  let r := x0 mod 8 * 262144 + x1 mod 64 * 4096 + x2 mod 64 * 64 + x3 mod 64 in
  0x10000 <= r <= 0x10FFFF.
Proof. unfold lead4, cont. cbv zeta. intros H01 H2 H3. arith. Qed.

Lemma EncodeRune_four b0 b1 b2 b3 :
  lead4 (b2z b0) (b2z b1) → cont (b2z b2) → cont (b2z b3) →
  EncodeRune (b2z b0 mod 8 * 262144 + b2z b1 mod 64 * 4096 + b2z b2 mod 64 * 64
              + b2z b3 mod 64) = [b0; b1; b2; b3].
Proof.
  intros H01 H2 H3. pose proof (four_range _ _ _ _ H01 H2 H3) as Hr. cbv zeta in Hr.
  set (r := _ + _) in *.
  unfold EncodeRune, MaxRune, surrogateMin, surrogateMax.
  rewrite (Z.mod_small r) by lia.
  decide_tests. subst r. unfold lead4, cont in *. encode_bytes. done.
Qed.

End Utf8Facts.

(** ** [encoding/json]: strings *)

Section JsonStrings.

Import Utf8 Json TokenSpec.

Lemma scanString_one b l :
  b2z b <= 0x7F →
  scanString ((if htmlSafeSet (b2z b) then [b] else escapeByte b) ++ l)
  = cons_out [b] (scanString l).
Proof.
  intros H.
  destruct b; first [reflexivity | exfalso; apply H; reflexivity].
Qed.

Lemma appendStringBody_one b rest :
  b2z b <= 0x7F →
  appendStringBody (b :: rest)
  = (if htmlSafeSet (b2z b) then [b] else escapeByte b) ++ appendStringBody rest.
Proof.
  intros H. cbn [appendStringBody]. unfold RuneSelf.
  destruct (Z.ltb_spec (b2z b) 0x80); [done | lia].
Qed.

Lemma scanString_raw_head b l :
  0x80 <= b2z b →
  scanString (b :: l)
  = let '(rr, size) := DecodeRune (b :: l) in
    match size, l with
    | 2%nat, _ :: r => cons_out (EncodeRune rr) (scanString r)
    | 3%nat, _ :: _ :: r => cons_out (EncodeRune rr) (scanString r)
    | 4%nat, _ :: _ :: _ :: r => cons_out (EncodeRune rr) (scanString r)
    | _, _ => cons_out (EncodeRune rr) (scanString l)
    end.
Proof.
  intros H. cbn [scanString]. unfold RuneSelf. decide_tests. done.
Qed.

Lemma appendStringBody_raw_head b rest :
  0x80 <= b2z b →
  appendStringBody (b :: rest)
  = let '(c, size) := DecodeRune (b :: rest) in
    if (c =? RuneError) && (size =? 1)%nat
    then escapeFFFD ++ appendStringBody rest
    else
      let out := if (c =? 0x2028) || (c =? 0x2029) then escape202 c
                 else firstn size (b :: rest) in
      match size, rest with
      | 2%nat, _ :: r => out ++ appendStringBody r
      | 3%nat, _ :: _ :: r => out ++ appendStringBody r
      | 4%nat, _ :: _ :: _ :: r => out ++ appendStringBody r
      | _, _ => out ++ appendStringBody rest
      end.
Proof.
  intros H. cbn [appendStringBody]. unfold RuneSelf.
  destruct (Z.ltb_spec (b2z b) 0x80); [lia | done].
Qed.

Lemma scanString_escape202 c l :
  c = 0x2028 ∨ c = 0x2029 →
  scanString (escape202 c ++ l) = cons_out (EncodeRune c) (scanString l).
Proof. intros [-> | ->]; reflexivity. Qed.

(** One well-formed sequence: what the encoder writes for it is read
    back as the sequence itself. *)
Lemma two_step b0 b1 rest l :
  0xC2 <= b2z b0 <= 0xDF → cont (b2z b1) →
  ∃ out, appendStringBody (b0 :: b1 :: rest) = out ++ appendStringBody rest
    ∧ scanString (out ++ l) = cons_out [b0; b1] (scanString l).
Proof.
  intros H0 H1. exists [b0; b1]. split.
  - rewrite appendStringBody_raw_head by lia. rewrite DecodeRune_two by done.
    cbn [Nat.eqb]. rewrite andb_false_r.
    unfold cont in H1. destruct (_ || _) eqn:E; [exfalso; arith | done].
  - cbn [app]. rewrite scanString_raw_head by lia. rewrite DecodeRune_two by done.
    by rewrite EncodeRune_two.
Qed.

Lemma three_step b0 b1 b2 rest l :
  lead3 (b2z b0) (b2z b1) → cont (b2z b2) →
  ∃ out, appendStringBody (b0 :: b1 :: b2 :: rest) = out ++ appendStringBody rest
    ∧ scanString (out ++ l) = cons_out [b0; b1; b2] (scanString l).
Proof.
  intros H01 H2.
  assert (0x80 <= b2z b0) as H0 by (unfold lead3 in H01; lia).
  set (r := b2z b0 mod 16 * 4096 + b2z b1 mod 64 * 64 + b2z b2 mod 64).
  exists (if (r =? 0x2028) || (r =? 0x2029) then escape202 r else [b0; b1; b2]). split.
  - rewrite appendStringBody_raw_head by lia. rewrite DecodeRune_three by done.
    cbn [Nat.eqb]. rewrite andb_false_r. done.
  - destruct ((r =? 0x2028) || (r =? 0x2029)) eqn:E.
    + rewrite scanString_escape202 by lia. subst r. by rewrite EncodeRune_three.
    + cbn [app]. rewrite scanString_raw_head by lia. rewrite DecodeRune_three by done.
      by rewrite EncodeRune_three.
Qed.

Lemma four_step b0 b1 b2 b3 rest l :
  lead4 (b2z b0) (b2z b1) → cont (b2z b2) → cont (b2z b3) →
  ∃ out, appendStringBody (b0 :: b1 :: b2 :: b3 :: rest) = out ++ appendStringBody rest
    ∧ scanString (out ++ l) = cons_out [b0; b1; b2; b3] (scanString l).
Proof.
  intros H01 H2 H3.
  assert (0x80 <= b2z b0) as H0 by (unfold lead4 in H01; lia).
  pose proof (four_range _ _ _ _ H01 H2 H3) as Hr. cbv zeta in Hr.
  exists [b0; b1; b2; b3]. split.
  - rewrite appendStringBody_raw_head by lia. rewrite DecodeRune_four by done.
    cbn [Nat.eqb]. rewrite andb_false_r.
    destruct (_ || _) eqn:E; [exfalso; lia | done].
  - cbn [app]. rewrite scanString_raw_head by lia. rewrite DecodeRune_four by done.
    by rewrite EncodeRune_four.
Qed.

(** The body the encoder writes for well-formed text, followed by the
    closing quote, is read back as that text. *)
Lemma scanString_appendStringBody src :
  well_formed src →
  ∀ tail, scanString (appendStringBody src ++ x22 :: tail) = Some (src, tail).
Proof.
  induction 1 as [| b rest Hb _ IH | b0 b1 rest H0 H1 _ IH
                  | b0 b1 b2 rest H01 H2 _ IH | b0 b1 b2 b3 rest H01 H2 H3 _ IH];
    intros tail.
  - reflexivity.
  - rewrite appendStringBody_one by done. rewrite <- app_assoc.
    rewrite scanString_one by done. by rewrite IH.
  - destruct (two_step b0 b1 rest (appendStringBody rest ++ x22 :: tail) H0 H1)
      as (out & -> & Hscan).
    rewrite <- app_assoc, Hscan. by rewrite IH.
  - destruct (three_step b0 b1 b2 rest (appendStringBody rest ++ x22 :: tail) H01 H2)
      as (out & -> & Hscan).
    rewrite <- app_assoc, Hscan. by rewrite IH.
  - destruct (four_step b0 b1 b2 b3 rest (appendStringBody rest ++ x22 :: tail) H01 H2 H3)
      as (out & -> & Hscan).
    rewrite <- app_assoc, Hscan. by rewrite IH.
Qed.

End JsonStrings.

(** ** [encoding/json]: numbers and the object of a token *)

Section JsonToken.

Import Strconv Json Newznab TokenSpec.

Lemma spanDigits_digits ds c rest :
  Forall (λ c, isDigit c = true) ds → isDigit c = false →
  spanDigits (ds ++ c :: rest) = (ds, c :: rest).
Proof.
  intros Hds Hc. induction Hds as [| d ds Hd _ IH]; cbn [app spanDigits].
  - by rewrite Hc.
  - by rewrite Hd, IH.
Qed.

(** The literal [FormatInt] writes, followed by a closing brace, is one
    number for the scanner. *)
Lemma scanNumber_tail ip rest :
  match scanFrac (x7d :: rest) with
  | Some (fp, l3) =>
      match scanExp l3 with
      | Some (ep, l4) => Some (ip ++ fp ++ ep, l4)
      | None => None
      end
  | None => None
  end = Some (ip, x7d :: rest).
Proof.
  change (scanFrac (x7d :: rest)) with (Some (@nil byte, x7d :: rest)). cbv iota beta.
  change (scanExp (x7d :: rest)) with (Some (@nil byte, x7d :: rest)). cbv iota beta.
  by rewrite !app_nil_r.
Qed.

Lemma scanNumber_FormatInt z rest :
  int64_range z →
  ∃ c r, FormatInt z = c :: r
    ∧ (b2z c = 0x2d ∨ isDigit c = true)
    ∧ scanNumber (c :: r ++ x7d :: rest) = Some (FormatInt z, x7d :: rest).
Proof.
  unfold int64_range. intros Hz. unfold FormatInt.
  destruct (Z.ltb_spec z 0) as [Hneg | Hpos].
  - destruct (formatBits_spec 20 (- z) []) as (d & ds & Heq & Hd & Hds & _ & Hnz & _);
      [lia | lia |].
    rewrite Heq, app_nil_r. exists x2d, (d :: ds).
    split; [done|]. split; [by left|].
    unfold scanNumber. cbn [scanSign app]. change (b2z x2d =? 0x2d) with true. cbv iota.
    unfold scanInt. destruct (Z.eqb_spec (b2z d) 0x30) as [E | _]; [lia|].
    rewrite Hd, spanDigits_digits by done.
    rewrite (scanNumber_tail ([x2d] ++ d :: ds)). reflexivity.
  - destruct (formatBits_spec 20 z []) as (d & ds & Heq & Hd & Hds & Hz0 & Hnz & _);
      [lia | lia |].
    rewrite Heq, app_nil_r. exists d, ds.
    split; [done|]. split; [by right|].
    unfold scanNumber. cbn [scanSign app].
    assert ((b2z d =? 0x2d) = false) as -> by (unfold isDigit in Hd; lia).
    unfold scanInt. destruct (Z.eqb_spec (b2z d) 0x30) as [E | _].
    + rewrite (Hz0 (Hnz E)). cbn [app].
      rewrite (scanNumber_tail ([] ++ [d])). reflexivity.
    + rewrite Hd, spanDigits_digits by done.
      rewrite (scanNumber_tail ([] ++ d :: ds)). reflexivity.
Qed.

Lemma parseValue_number f d c l :
  b2z c = 0x2d ∨ isDigit c = true →
  parseValue (S f) d (c :: l)
  = match scanNumber (c :: l) with
    | Some (lit, r') => Some (Number lit, r')
    | None => None
    end.
Proof.
  intros Hc. cbn [parseValue skipSpace]. unfold isSpace, isDigit in *.
  assert ((b2z c =? 32) || (b2z c =? 9) || (b2z c =? 13) || (b2z c =? 10) = false) as ->
    by lia.
  decide_tests. done.
Qed.

Lemma parseValue_string f d l :
  parseValue (S f) d (x22 :: l)
  = match scanString l with
    | Some (s, r') => Some (Str s, r')
    | None => None
    end.
Proof. reflexivity. Qed.

Lemma parseValue_object f l :
  parseValue (S f) 0 (x7b :: x22 :: l)
  = match parseMembers f 1 (x22 :: l) with
    | Some (ms, r') => Some (Object ms, r')
    | None => None
    end.
Proof. reflexivity. Qed.

Lemma scanString_plain c l :
  0x23 <= b2z c <= 0x5b ∨ 0x5d <= b2z c <= 0x7f →
  scanString (c :: l) = cons_out [c] (scanString l).
Proof.
  intros H. destruct c; first [reflexivity | exfalso; cbn in H; lia].
Qed.

(** A member under a one-letter key [k]. *)
Lemma parseMembers_member f d k l :
  0x23 <= b2z k <= 0x5b ∨ 0x5d <= b2z k <= 0x7f →
  parseMembers (S f) d (x22 :: k :: x22 :: x3a :: l)
  = match parseValue f d l with
    | None => None
    | Some (v, r3) =>
        match skipSpace r3 with
        | [] => None
        | c3 :: r4 =>
            if b2z c3 =? 0x2c
            then
              match parseMembers f d r4 with
              | Some (ms, r5) => Some (([k], v) :: ms, r5)
              | None => None
              end
            else if b2z c3 =? 0x7d then Some ([([k], v)], r4)
            else None
        end
    end.
Proof.
  intros Hk. cbn [parseMembers skipSpace].
  change (isSpace x22) with false. cbv iota.
  change (negb (b2z x22 =? 0x22)) with false. cbv iota.
  assert (scanString (k :: x22 :: x3a :: l) = Some ([k], x3a :: l)) as ->.
  { by rewrite scanString_plain. }
  reflexivity.
Qed.

Lemma marshal_shape u f s :
  marshal (mkFileToken u f s)
  = x7b :: x22 :: x75 :: x22 :: x3a :: x22 ::
    appendStringBody (String.list_byte_of_string u) ++ x22 ::
    x2c :: x22 :: x66 :: x22 :: x3a :: x22 ::
    appendStringBody (String.list_byte_of_string f) ++ x22 ::
    x2c :: x22 :: x73 :: x22 :: x3a :: FormatInt s ++ [x7d].
Proof.
  unfold marshal, appendString. cbn [Username Filename Size app].
  repeat (rewrite <- ?app_assoc; cbn [app]). reflexivity.
Qed.

Lemma parse_marshal u f s :
  valid_utf8 u → valid_utf8 f → int64_range s →
  parse (marshal (mkFileToken u f s))
  = Some (Object [([x75], Str (String.list_byte_of_string u));
                  ([x66], Str (String.list_byte_of_string f));
                  ([x73], Number (FormatInt s))]).
Proof.
  unfold valid_utf8. intros Hu Hf Hs. unfold parse.
  rewrite marshal_shape. cbn [length].
  rewrite parseValue_object.
  rewrite parseMembers_member by (vm_compute; intuition discriminate).
  rewrite parseValue_string, (scanString_appendStringBody _ Hu).
  cbn [skipSpace]. change (isSpace x2c) with false. cbv iota.
  change (b2z x2c =? 0x2c) with true. cbv iota.
  rewrite parseMembers_member by (vm_compute; intuition discriminate).
  rewrite parseValue_string, (scanString_appendStringBody _ Hf).
  cbn [skipSpace]. change (isSpace x2c) with false. cbv iota.
  change (b2z x2c =? 0x2c) with true. cbv iota.
  rewrite parseMembers_member by (vm_compute; intuition discriminate).
  destruct (scanNumber_FormatInt s [] Hs) as (c & r & Heq & Hc & Hscan).
  rewrite Heq in Hscan |- *. cbn [app]. rewrite parseValue_number by done.
  rewrite Hscan. reflexivity.
Qed.

End JsonToken.

(** ** [encoding/json]: the fuel of the parser *)

Section JsonFuel.

Import Json TokenSpec.

Lemma skipSpace_length l : (length (skipSpace l) <= length l)%nat.
Proof.
  induction l as [| c l IH]; cbn [skipSpace]; [done|].
  destruct (isSpace c); cbn [length]; lia.
Qed.

Lemma skipSpace_cons l c r : skipSpace l = c :: r → (length r < length l)%nat.
Proof.
  intros H. pose proof (skipSpace_length l) as Hl. rewrite H in Hl. cbn [length] in Hl. lia.
Qed.

(** More fuel changes no result. *)
Lemma parse_fuel_mono f :
  (∀ d l r f', parseValue f d l = Some r → (f <= f')%nat → parseValue f' d l = Some r)
  ∧ (∀ d l r f', parseMembers f d l = Some r → (f <= f')%nat →
       parseMembers f' d l = Some r)
  ∧ (∀ d l r f', parseElements f d l = Some r → (f <= f')%nat →
       parseElements f' d l = Some r).
Proof.
  induction f as [| f (IHv & IHm & IHe)].
  - repeat split; intros; discriminate.
  - repeat split; intros d l r f' H Hle; (destruct f' as [| f']; [lia|]);
      assert (f <= f')%nat as Hle' by lia.
    + cbn [parseValue] in *. destruct (skipSpace l) as [| c l1]; [done|].
      destruct (b2z c =? 0x7b).
      { destruct (maxNestingDepth <? d + 1); [done|].
        destruct (skipSpace l1) as [| c' l2]; [done|].
        destruct (b2z c' =? 0x7d); [done|].
        destruct (parseMembers f (d + 1) (c' :: l2)) as [[ms r']|] eqn:E; [|done].
        by rewrite (IHm _ _ _ f' E Hle'). }
      destruct (b2z c =? 0x5b); [|done].
      destruct (maxNestingDepth <? d + 1); [done|].
      destruct (skipSpace l1) as [| c' l2]; [done|].
      destruct (b2z c' =? 0x5d); [done|].
      destruct (parseElements f (d + 1) (c' :: l2)) as [[vs r']|] eqn:E; [|done].
      by rewrite (IHe _ _ _ f' E Hle').
    + cbn [parseMembers] in *. destruct (skipSpace l) as [| c l1]; [done|].
      destruct (negb (b2z c =? 0x22)); [done|].
      destruct (scanString l1) as [[key r1]|]; [|done].
      destruct (skipSpace r1) as [| c1 r2]; [done|].
      destruct (negb (b2z c1 =? 0x3a)); [done|].
      destruct (parseValue f d r2) as [[v r3]|] eqn:E; [|done].
      rewrite (IHv _ _ _ f' E Hle').
      destruct (skipSpace r3) as [| c3 r4]; [done|].
      destruct (b2z c3 =? 0x2c); [|done].
      destruct (parseMembers f d r4) as [[ms r5]|] eqn:E'; [|done].
      by rewrite (IHm _ _ _ f' E' Hle').
    + cbn [parseElements] in *.
      destruct (parseValue f d l) as [[v r1]|] eqn:E; [|done].
      rewrite (IHv _ _ _ f' E Hle').
      destruct (skipSpace r1) as [| c r2]; [done|].
      destruct (b2z c =? 0x2c); [|done].
      destruct (parseElements f d r2) as [[vs r3]|] eqn:E'; [|done].
      by rewrite (IHe _ _ _ f' E' Hle').
Qed.

Lemma cons_out_Some out k s r :
  cons_out out k = Some (s, r) → ∃ s', k = Some (s', r).
Proof.
  destruct k as [[s' r']|]; cbn [cons_out]; [|done]. intros [= _ <-]. eauto.
Qed.

Lemma scanString_length_le n : ∀ l s r,
  (length l <= n)%nat → scanString l = Some (s, r) → (length r < length l)%nat.
Proof.
  induction n as [| n IH]; intros l s r Hn H.
  - destruct l; [discriminate | cbn [length] in Hn; lia].
  - destruct l as [| c rest]; [discriminate|]. cbn [scanString] in H. cbn [length] in *.
    destruct (b2z c =? 0x22).
    { injection H as _ <-. lia. }
    destruct (b2z c =? 0x5c).
    { destruct rest as [| e rest1]; [discriminate|]. cbn [length] in *.
      destruct (b2z e =? 0x75).
      - destruct rest1 as [| h1 [| h2 [| h3 [| h4 rest5]]]]; try discriminate.
        cbn [length] in *.
        destruct (hex4 h1 h2 h3 h4) as [rr|]; [|discriminate].
        destruct (IsSurrogate rr).
        + destruct (negb _).
          * destruct rest5 as [| ? [| ? [| ? [| ? [| ? [| ? rest11]]]]]]; try discriminate.
            cbn [length] in *.
            apply cons_out_Some in H as [s' H]. apply IH in H; lia.
          * apply cons_out_Some in H as [s' H]. apply IH in H; lia.
        + apply cons_out_Some in H as [s' H]. apply IH in H; lia.
      - destruct (simpleEscape (b2z e)); [|discriminate].
        apply cons_out_Some in H as [s' H]. apply IH in H; lia. }
    destruct (b2z c <? 0x20); [discriminate|].
    destruct (b2z c <? Utf8.RuneSelf).
    { apply cons_out_Some in H as [s' H]. apply IH in H; lia. }
    destruct (Utf8.DecodeRune (c :: rest)) as [rr size].
    destruct size as [| [| [| [| [| size]]]]];
      try (apply cons_out_Some in H as [s' H]; apply IH in H; lia).
    + destruct rest as [| ? r1]; cbn [length] in *;
        apply cons_out_Some in H as [s' H]; apply IH in H; cbn [length] in *; lia.
    + destruct rest as [| ? [| ? r1]]; cbn [length] in *;
        apply cons_out_Some in H as [s' H]; apply IH in H; cbn [length] in *; lia.
    + destruct rest as [| ? [| ? [| ? r1]]]; cbn [length] in *;
        apply cons_out_Some in H as [s' H]; apply IH in H; cbn [length] in *; lia.
Qed.

Lemma scanString_length l s r :
  scanString l = Some (s, r) → (length r < length l)%nat.
Proof. by apply (scanString_length_le (length l)). Qed.

Lemma spanDigits_length l : (length (snd (spanDigits l)) <= length l)%nat.
Proof.
  induction l as [| c l IH]; cbn [spanDigits]; [done|].
  destruct (Strconv.isDigit c); [|done].
  destruct (spanDigits l) as [ds rest]. cbn [snd length] in *. lia.
Qed.

Lemma someDigits_length l ds r :
  someDigits l = Some (ds, r) → (length r <= length l)%nat.
Proof.
  unfold someDigits. pose proof (spanDigits_length l) as H.
  destruct (spanDigits l) as [[| d ds'] rest]; [done|]. by intros [= _ <-].
Qed.

Lemma scanNumber_length l lit r :
  scanNumber l = Some (lit, r) → (length r < length l)%nat.
Proof.
  unfold scanNumber.
  destruct (scanSign l) as [sign l1] eqn:Esign.
  assert (length l1 <= length l)%nat as H1.
  { unfold scanSign in Esign. destruct l as [| c r0]; [by injection Esign as _ <-|].
    destruct (b2z c =? 0x2d); injection Esign as _ <-; cbn [length]; lia. }
  destruct (scanInt l1) as [[ip l2]|] eqn:Eint; [|done].
  assert (length l2 < length l1)%nat as H2.
  { unfold scanInt in Eint. destruct l1 as [| c r0]; [done|].
    destruct (b2z c =? 0x30); [injection Eint as _ <-; cbn [length]; lia|].
    destruct (Strconv.isDigit c); [|done].
    pose proof (spanDigits_length r0) as Hs.
    destruct (spanDigits r0) as [ds rest]. injection Eint as _ <-.
    cbn [snd length] in *. lia. }
  destruct (scanFrac l2) as [[fp l3]|] eqn:Efrac; [|done].
  assert (length l3 <= length l2)%nat as H3.
  { unfold scanFrac in Efrac. destruct l2 as [| c r0]; [by injection Efrac as _ <-|].
    destruct (b2z c =? 0x2e); [|by injection Efrac as _ <-].
    destruct (someDigits r0) as [[ds rest]|] eqn:Ed; [|done].
    injection Efrac as _ <-. apply someDigits_length in Ed. cbn [length]. lia. }
  destruct (scanExp l3) as [[ep l4]|] eqn:Eexp; [|done].
  assert (length l4 <= length l3)%nat as H4.
  { unfold scanExp in Eexp. destruct l3 as [| e r0]; [by injection Eexp as _ <-|].
    destruct (_ || _); [|by injection Eexp as _ <-].
    destruct r0 as [| sg r']; [done|].
    destruct (_ || _).
    - destruct (someDigits r') as [[ds rest]|] eqn:Ed; [|done].
      injection Eexp as _ <-. apply someDigits_length in Ed. cbn [length]. lia.
    - destruct (someDigits (sg :: r')) as [[ds rest]|] eqn:Ed; [|done].
      injection Eexp as _ <-. apply someDigits_length in Ed. cbn [length] in *. lia. }
  intros [= _ <-]. lia.
Qed.

Lemma stripPrefix_length p : ∀ l r, stripPrefix p l = Some r → (length r <= length l)%nat.
Proof.
  induction p as [| x p IH]; intros l r; cbn [stripPrefix].
  - by intros [= <-].
  - destruct l as [| y l']; [done|]. destruct (Byte.eqb x y); [|done].
    intros H%IH. cbn [length]. lia.
Qed.

Lemma scanLiteral_length tail v l v' r :
  scanLiteral tail v l = Some (v', r) → (length r <= length l)%nat.
Proof.
  unfold scanLiteral.
  destruct (stripPrefix _ l) as [r'|] eqn:E; [|done].
  intros [= _ <-]. by apply stripPrefix_length in E.
Qed.

(** A successful parse consumes input, and the number of bytes it
    consumes is fuel enough for it. *)
Ltac rw H := rewrite H; cbv beta iota.

Ltac fuel_S k :=
  match goal with
  | |- context [(length ?l - length ?r)%nat] =>
      let E := fresh "Efuel" in
      destruct (length l - length r)%nat as [| k] eqn:E; [cbn [length] in *; lia|]
  end.

Lemma parse_fuel_consumed f :
  (∀ d l, consumed (λ f, parseValue f d) f l)
  ∧ (∀ d l, consumed (λ f, parseMembers f d) f l)
  ∧ (∀ d l, consumed (λ f, parseElements f d) f l).
Proof.
  unfold consumed. induction f as [| f (IHv & IHm & IHe)].
  - repeat split; intros; discriminate.
  - split; [|split]; intros d l a r H.
    + cbn [parseValue] in H. destruct (skipSpace l) as [| c l1] eqn:El; [done|].
      pose proof (skipSpace_cons _ _ _ El) as Hl1.
      destruct (b2z c =? 0x7b) eqn:Ec1.
      { destruct (maxNestingDepth <? d + 1) eqn:Ed; [done|].
        destruct (skipSpace l1) as [| c' l2] eqn:El1; [done|].
        pose proof (skipSpace_cons _ _ _ El1) as Hl2.
        destruct (b2z c' =? 0x7d) eqn:Ec'.
        - injection H as <- <-. split; [lia|]. fuel_S k.
          cbn [parseValue parseMembers parseElements]. rw El. rw Ec1. rw Ed. rw El1. rw Ec'. done.
        - destruct (parseMembers f (d + 1) (c' :: l2)) as [[ms r']|] eqn:E; [|done].
          injection H as <- <-. destruct (IHm _ _ _ _ E) as [Hlen Hrun].
          cbn [length] in Hlen. split; [lia|]. fuel_S k.
          cbn [parseValue parseMembers parseElements]. rw El. rw Ec1. rw Ed. rw El1. rw Ec'.
          rewrite (proj1 (proj2 (parse_fuel_mono _)) _ _ _ k Hrun)
            by (cbn [length] in *; lia); cbv beta iota.
          done. }
      destruct (b2z c =? 0x5b) eqn:Ec2.
      { destruct (maxNestingDepth <? d + 1) eqn:Ed; [done|].
        destruct (skipSpace l1) as [| c' l2] eqn:El1; [done|].
        pose proof (skipSpace_cons _ _ _ El1) as Hl2.
        destruct (b2z c' =? 0x5d) eqn:Ec'.
        - injection H as <- <-. split; [lia|]. fuel_S k.
          cbn [parseValue parseMembers parseElements]. rw El. rw Ec1. rw Ec2. rw Ed. rw El1. rw Ec'. done.
        - destruct (parseElements f (d + 1) (c' :: l2)) as [[vs r']|] eqn:E; [|done].
          injection H as <- <-. destruct (IHe _ _ _ _ E) as [Hlen Hrun].
          cbn [length] in Hlen. split; [lia|]. fuel_S k.
          cbn [parseValue parseMembers parseElements]. rw El. rw Ec1. rw Ec2. rw Ed. rw El1. rw Ec'.
          rewrite (proj2 (proj2 (parse_fuel_mono _)) _ _ _ k Hrun)
            by (cbn [length] in *; lia); cbv beta iota.
          done. }
      assert (length r < length l)%nat as Hlen.
      { destruct (b2z c =? 0x22).
        { destruct (scanString l1) as [[s' r']|] eqn:E; [|done].
          injection H as _ <-. apply scanString_length in E. lia. }
        destruct (b2z c =? 0x74); [apply scanLiteral_length in H; lia|].
        destruct (b2z c =? 0x66); [apply scanLiteral_length in H; lia|].
        destruct (b2z c =? 0x6e); [apply scanLiteral_length in H; lia|].
        destruct (scanNumber (c :: l1)) as [[lit r']|] eqn:E; [|done].
        injection H as _ <-. apply scanNumber_length in E. cbn [length] in E. lia. }
      split; [done|]. fuel_S k. cbn [parseValue parseMembers parseElements]. rw El. rw Ec1. rw Ec2. exact H.
    + cbn [parseMembers] in H. destruct (skipSpace l) as [| c l1] eqn:El; [done|].
      pose proof (skipSpace_cons _ _ _ El) as Hl1.
      destruct (negb (b2z c =? 0x22)) eqn:Ec; [done|].
      destruct (scanString l1) as [[key r1]|] eqn:Ekey; [|done].
      pose proof (scanString_length _ _ _ Ekey) as Hr1.
      destruct (skipSpace r1) as [| c1 r2] eqn:Er1; [done|].
      pose proof (skipSpace_cons _ _ _ Er1) as Hr2.
      destruct (negb (b2z c1 =? 0x3a)) eqn:Ec1; [done|].
      destruct (parseValue f d r2) as [[v r3]|] eqn:Ev; [|done].
      destruct (IHv _ _ _ _ Ev) as [Hr3 Hrunv].
      destruct (skipSpace r3) as [| c3 r4] eqn:Er3; [done|].
      pose proof (skipSpace_cons _ _ _ Er3) as Hr4.
      destruct (b2z c3 =? 0x2c) eqn:Ec3.
      * destruct (parseMembers f d r4) as [[ms r5]|] eqn:Em; [|done].
        injection H as <- <-. destruct (IHm _ _ _ _ Em) as [Hr5 Hrunm].
        split; [lia|]. fuel_S k.
        cbn [parseValue parseMembers parseElements]. rw El. rw Ec. rw Ekey. rw Er1. rw Ec1.
        rewrite (proj1 (parse_fuel_mono _) _ _ _ k Hrunv) by lia; cbv beta iota.
        rw Er3. rw Ec3.
        rewrite (proj1 (proj2 (parse_fuel_mono _)) _ _ _ k Hrunm) by lia; cbv beta iota.
        done.
      * destruct (b2z c3 =? 0x7d) eqn:Ec4; [|done].
        injection H as <- <-. split; [lia|]. fuel_S k.
        cbn [parseValue parseMembers parseElements]. rw El. rw Ec. rw Ekey. rw Er1. rw Ec1.
        rewrite (proj1 (parse_fuel_mono _) _ _ _ k Hrunv) by lia; cbv beta iota.
        rw Er3. rw Ec3. rw Ec4. done.
    + cbn [parseElements] in H.
      destruct (parseValue f d l) as [[v r1]|] eqn:Ev; [|done].
      destruct (IHv _ _ _ _ Ev) as [Hr1 Hrunv].
      destruct (skipSpace r1) as [| c r2] eqn:Er1; [done|].
      pose proof (skipSpace_cons _ _ _ Er1) as Hr2.
      destruct (b2z c =? 0x2c) eqn:Ec.
      * destruct (parseElements f d r2) as [[vs r3]|] eqn:Ee; [|done].
        injection H as <- <-. destruct (IHe _ _ _ _ Ee) as [Hr3 Hrune].
        split; [lia|]. fuel_S k.
        cbn [parseValue parseMembers parseElements].
        rewrite (proj1 (parse_fuel_mono _) _ _ _ k Hrunv) by lia; cbv beta iota.
        rw Er1. rw Ec.
        rewrite (proj2 (proj2 (parse_fuel_mono _)) _ _ _ k Hrune) by lia; cbv beta iota.
        done.
      * destruct (b2z c =? 0x5d) eqn:Ec'; [|done].
        injection H as <- <-. split; [lia|]. fuel_S k.
        cbn [parseValue parseMembers parseElements].
        rewrite (proj1 (parse_fuel_mono _) _ _ _ k Hrunv) by lia; cbv beta iota.
        rw Er1. rw Ec. rw Ec'. done.
Qed.

(** The fuel [parse] gives itself is enough: it finds every value that
    any amount of fuel finds. *)
Lemma parse_fuel_enough data v :
  parse data = Some v
  ↔ ∃ fuel rest, parseValue fuel 0 data = Some (v, rest) ∧ skipSpace rest = [].
Proof.
  unfold parse. split.
  - destruct (parseValue _ 0 data) as [[v' rest]|] eqn:E; [|done].
    destruct (skipSpace rest) eqn:Er; [|done]. intros [= <-]. eauto.
  - intros (fuel & rest & Hrun & Hrest).
    destruct (proj1 (parse_fuel_consumed fuel) 0 data v rest Hrun) as [Hlen Hrun'].
    rewrite (proj1 (parse_fuel_mono _) _ _ _ (S (length data)) Hrun') by lia.
    by rewrite Hrest.
Qed.

End JsonFuel.

(** ** The identity token *)

Section Token.

Import Strconv Json Newznab TokenSpec.

Lemma unmarshal_marshal u f s :
  valid_utf8 u → valid_utf8 f → int64_range s →
  unmarshal (marshal (mkFileToken u f s)) = inl (mkFileToken u f s).
Proof.
  intros Hu Hf Hs. unfold unmarshal. rewrite parse_marshal by done.
  cbn [fold_left]. unfold storeMember.
  change (fieldOf [x75]) with (Some FieldUsername).
  change (fieldOf [x66]) with (Some FieldFilename).
  change (fieldOf [x73]) with (Some FieldSize).
  cbv beta iota zeta delta [storeString storeInt64 Username Filename Size].
  rewrite ParseInt_FormatInt by done.
  by rewrite !String.string_of_list_byte_of_string.
Qed.

(** C1, as stated, fails: a Go string need not hold UTF-8, and the
    encoder writes U+FFFD for the byte [0xff]. *)
Lemma round_trip_for_all_strings_fails : ¬ round_trip_for_all_strings.
Proof.
  intros Hclaim.
  specialize (Hclaim (String.string_of_list_byte [xff]) EmptyString 0).
  assert (int64_range 0) as H0 by (unfold int64_range; lia).
  specialize (Hclaim H0). vm_compute in Hclaim. discriminate Hclaim.
Qed.

(** C1, amended. For every owner and resource path that hold well-formed
    UTF-8 (the empty string and paths with backslashes among them) and
    every [int64] size (zero among them), decoding the encoded token
    succeeds and gives back the three values. *)
Theorem DecodeToken_EncodeToken (owner resourcePath : string) (sizeBytes : Z) :
  valid_utf8 owner → valid_utf8 resourcePath → int64_range sizeBytes →
  DecodeToken (EncodeToken owner resourcePath sizeBytes)
  = inl (mkFileToken owner resourcePath sizeBytes).
Proof.
  intros Hu Hf Hs. unfold DecodeToken, EncodeToken.
  rewrite DecodeString_EncodeToString. by rewrite unmarshal_marshal.
Qed.

Ltac prove_well_formed :=
  unfold valid_utf8; cbn;
  repeat first
    [ apply wf_nil
    | apply wf_one; [cbn; lia|]
    | apply wf_two; [cbn; lia | unfold cont; cbn; lia |]
    | apply wf_three; [unfold lead3; cbn; lia | unfold cont; cbn; lia |]
    | apply wf_four; [unfold lead4; cbn; lia | unfold cont; cbn; lia
                      | unfold cont; cbn; lia |] ].

Lemma DecodeToken_EncodeToken_witness :
  valid_utf8 "Zoë ☂" ∧ valid_utf8 "C:\Music\movie.mkv" ∧ int64_range 0
  ∧ DecodeToken (EncodeToken "Zoë ☂" "C:\Music\movie.mkv" 0)
    = inl (mkFileToken "Zoë ☂" "C:\Music\movie.mkv" 0).
Proof.
  assert (valid_utf8 "Zoë ☂") as Hu by prove_well_formed.
  assert (valid_utf8 "C:\Music\movie.mkv") as Hf by prove_well_formed.
  assert (int64_range 0) as Hs by (unfold int64_range; lia).
  split; [exact Hu|]. split; [exact Hf|]. split; [exact Hs|].
  exact (DecodeToken_EncodeToken _ _ _ Hu Hf Hs).
Defined.

(** The token of the repository's own test. *)
Example EncodeToken_test_vector :
  EncodeToken "testuser" "C:\Music\movie.mkv" 123456789
  = "eyJ1IjoidGVzdHVzZXIiLCJmIjoiQzpcXE11c2ljXFxtb3ZpZS5ta3YiLCJzIjoxMjM0NTY3ODl9"%string
  ∧ DecodeToken "not-valid-base64!!!" = inr ErrDecodeBase64
  ∧ DecodeToken "bm90anNvbg==" = inr (ErrUnmarshalToken SyntaxError).
Proof. vm_compute. repeat split; reflexivity. Qed.

(** *** What [unmarshal] accepts *)

Lemma storable_dec m : {storable m} + {¬ storable m}.
Proof.
  destruct m as [key v]. unfold storable. cbn [fst snd].
  destruct (fieldOf key) as [[| |]|]; [| | |by left].
  - destruct v; first [left; by eauto | right; intros [? | [? ?]]; discriminate].
  - destruct v; first [left; by eauto | right; intros [? | [? ?]]; discriminate].
  - destruct v as [| | lit | | |];
      try first [left; by eauto | right; intros [? | (? & ? & ? & ?)]; discriminate].
    destruct (ParseInt lit) as [n|] eqn:E.
    + left. right. eauto.
    + right. intros [? | (? & ? & [= <-] & ?)]; [discriminate | congruence].
Qed.

Lemma storeMember_failed t m : snd (storeMember (t, true) m) = true.
Proof.
  destruct m as [key v]. cbn [storeMember].
  destruct (fieldOf key) as [[| |]|]; cbn [snd]; try done.
  - by destruct (storeString v (Username t)).
  - by destruct (storeString v (Filename t)).
  - by destruct (storeInt64 v (Size t)).
Qed.

Lemma fold_storeMember_failed ms : ∀ t, snd (fold_left storeMember ms (t, true)) = true.
Proof.
  induction ms as [| m ms IH]; intros t; cbn [fold_left]; [done|].
  pose proof (storeMember_failed t m) as H.
  destruct (storeMember (t, true) m) as [t' b]. cbn [snd] in H. subst b. apply IH.
Qed.

Lemma storeMember_not_storable t m :
  ¬ storable m → snd (storeMember (t, false) m) = true.
Proof.
  destruct m as [key v]. unfold storable. cbn [storeMember fst snd].
  destruct (fieldOf key) as [[| |]|]; intros Hns.
  - destruct v; cbn [storeString]; try done; exfalso; apply Hns; eauto.
  - destruct v; cbn [storeString]; try done; exfalso; apply Hns; eauto.
  - destruct v as [| | lit | | |]; cbn [storeInt64]; try done;
      try (exfalso; apply Hns; by eauto).
    destruct (ParseInt lit) as [n|] eqn:E; [|done].
    exfalso. apply Hns. right. eauto.
  - by destruct Hns.
Qed.

Lemma storeMember_storable t m u f s :
  storable m → stores t u f s →
  ∃ t', storeMember (t, false) m = (t', false)
    ∧ stores t' (supplied FieldUsername [m] u) (supplied FieldFilename [m] f)
        (supplied FieldSize [m] s).
Proof.
  destruct m as [key v]. unfold storable, stores. cbn [storeMember fst snd supplied].
  intros Hst (Hu & Hf & Hs).
  destruct (fieldOf key) as [[| |]|].
  - destruct Hst as [-> | [x ->]]; cbn [storeString]; eauto.
  - destruct Hst as [-> | [x ->]]; cbn [storeString]; eauto.
  - destruct Hst as [-> | (lit & n & -> & Hn)]; cbn [storeInt64]; [eauto|].
    rewrite Hn. eexists. split; [done|]. cbn [Username Filename Size int64_of].
    by rewrite Hn.
  - eauto.
Qed.

Lemma supplied_cons fld m ms seen :
  supplied fld (m :: ms) seen = supplied fld ms (supplied fld [m] seen).
Proof.
  destruct m as [key v]. cbn [supplied].
  destruct (fieldOf key) as [fld'|]; [|done].
  destruct v; try done; by destruct fld, fld'.
Qed.

Lemma fold_storeMember_storable ms : ∀ t u f s,
  Forall storable ms → stores t u f s →
  ∃ t', fold_left storeMember ms (t, false) = (t', false)
    ∧ stores t' (supplied FieldUsername ms u) (supplied FieldFilename ms f)
        (supplied FieldSize ms s).
Proof.
  induction ms as [| m ms IH]; intros t u f s Hall Hst; cbn [fold_left].
  - eauto.
  - inversion Hall as [| ? ? Hm Hms]; subst.
    destruct (storeMember_storable t m u f s Hm Hst) as (t1 & -> & Hst1).
    destruct (IH _ _ _ _ Hms Hst1) as (t' & Hfold & Hst').
    exists t'. split; [done|]. by rewrite !(supplied_cons _ m ms).
Qed.

Lemma fold_storeMember_not_storable ms : ∀ t,
  ¬ Forall storable ms → snd (fold_left storeMember ms (t, false)) = true.
Proof.
  induction ms as [| m ms IH]; intros t Hns; cbn [fold_left].
  - destruct Hns. constructor.
  - destruct (storeMember (t, false) m) as [t1 b] eqn:E.
    destruct b; [apply fold_storeMember_failed|].
    apply IH. intros Hms. apply Hns. constructor; [|done].
    destruct (storable_dec m) as [Hm | Hm]; [done|].
    pose proof (storeMember_not_storable t m Hm) as H. rewrite E in H. done.
Qed.

Lemma unmarshal_outcomes data :
  match unmarshal data with
  | inr SyntaxError => parse data = None
  | inr UnmarshalTypeError => ∃ v, parse data = Some v ∧ ¬ acceptable v
  | inl t => ∃ v, parse data = Some v ∧ acceptable v ∧ t = token_of v
  end.
Proof.
  unfold unmarshal. destruct (parse data) as [v|]; [|done].
  destruct v as [| b | lit | s | vs | ms].
  - exists Null. split; [done|]. split; [by left | done].
  - exists (Bool b). split; [done|]. intros [? | (? & ? & _)]; discriminate.
  - exists (Number lit). split; [done|]. intros [? | (? & ? & _)]; discriminate.
  - exists (Str s). split; [done|]. intros [? | (? & ? & _)]; discriminate.
  - exists (Array vs). split; [done|]. intros [? | (? & ? & _)]; discriminate.
  - destruct (fold_left storeMember ms _) as [t failed] eqn:E.
    destruct failed.
    + exists (Object ms). split; [done|].
      intros [? | (ms' & [= <-] & Hall)]; [discriminate|].
      destruct (fold_storeMember_storable ms (mkFileToken "" "" 0) None None None Hall)
        as (t' & Ht' & _); [done|].
      rewrite E in Ht'. discriminate.
    + exists (Object ms). split; [done|].
      assert (Forall storable ms) as Hall.
      { destruct (List.Forall_dec storable storable_dec ms) as [H | Hn]; [done|].
        exfalso.
        pose proof (fold_storeMember_not_storable ms (mkFileToken "" "" 0) Hn) as Hf.
        rewrite E in Hf. discriminate. }
      split; [right; eauto|].
      destruct (fold_storeMember_storable ms (mkFileToken "" "" 0) None None None Hall)
        as (t' & Ht' & Hu & Hf & Hs); [done|].
      rewrite E in Ht'. injection Ht' as <-.
      destruct t as [u f s]. cbn [Username Filename Size] in *. cbn [token_of].
      by rewrite Hu, Hf, Hs.
Qed.

(** C9, as stated, fails: the payload [{}] supplies none of the three
    fields and decodes to the zero token. *)
Lemma success_needs_three_fields_fails : ¬ success_needs_three_fields.
Proof.
  intros Hclaim.
  destruct (Hclaim "e30="%string (mkFileToken "" "" 0)) as (data & Hdata & ms & Hparse & Hms).
  - vm_compute. reflexivity.
  - vm_compute in Hdata. injection Hdata as <-.
    vm_compute in Hparse. injection Hparse as <-.
    destruct (Hms FieldUsername) as (key & v & Hin & _).
    by apply elem_of_nil in Hin.
Qed.

(** C9, amended. [DecodeToken] fails with the base64 error exactly when
    the token is not accepted by the URL-safe padded base64 decoder, and
    with the unmarshal error exactly when the decoded bytes are not one
    JSON value (a syntax error) or are a value [json.Unmarshal] does not
    accept for a [FileToken] (a type error): anything but [null] or an
    object whose members under the three keys are strings, a decimal
    [int64] number, or [null]. In every other case it succeeds, with
    each field taken from the last member that supplies it and left at
    its zero value when none does. A byte outside the alphabet that is
    no padding and no line break gives the base64 error; the payloads
    [{}] and [null] decode to the zero token. *)
Theorem DecodeToken_outcomes :
  (∀ token,
     match DecodeToken token with
     | inr ErrDecodeBase64 => Base64.DecodeString token = None
     | inr (ErrUnmarshalToken SyntaxError) =>
         ∃ data, Base64.DecodeString token = Some data ∧ parse data = None
     | inr (ErrUnmarshalToken UnmarshalTypeError) =>
         ∃ data v, Base64.DecodeString token = Some data
           ∧ parse data = Some v ∧ ¬ acceptable v
     | inl t =>
         ∃ data v, Base64.DecodeString token = Some data
           ∧ parse data = Some v ∧ acceptable v ∧ t = token_of v
     end)
  ∧ (∀ token c,
       c ∈ String.list_byte_of_string token →
       Base64.decodeMap c = None → Base64.isNewline c = false → c ≠ Base64.padChar →
       DecodeToken token = inr ErrDecodeBase64)
  ∧ DecodeToken "e30=" = inl (mkFileToken "" "" 0)
  ∧ DecodeToken "bnVsbA==" = inl (mkFileToken "" "" 0).
Proof.
  split; [|split; [|split; vm_compute; reflexivity]]; cycle 1.
  { intros token c Hin Hmap Hnl Hpad. unfold DecodeToken, Base64.DecodeString.
    by rewrite (Decode_foreign_byte c _ [] Hin Hmap Hnl Hpad). }
  intros token. unfold DecodeToken.
  destruct (Base64.DecodeString token) as [data|]; [|done].
  pose proof (unmarshal_outcomes data) as H.
  destruct (unmarshal data) as [t | [|]].
  - destruct H as (v & ? & ? & ?). by exists data, v.
  - by exists data.
  - destruct H as (v & ? & ?). by exists data, v.
Qed.

Lemma DecodeToken_outcomes_witness :
  x21 ∈ String.list_byte_of_string "not-valid-base64!!!"
  ∧ DecodeToken "not-valid-base64!!!" = inr ErrDecodeBase64.
Proof.
  assert (x21 ∈ String.list_byte_of_string "not-valid-base64!!!") as Hin.
  { apply list_elem_of_In. vm_compute. repeat first [left; reflexivity | right]. }
  split; [exact Hin|].
  refine (proj1 (proj2 DecodeToken_outcomes) "not-valid-base64!!!"%string x21 Hin _ _ _).
  - reflexivity.
  - reflexivity.
  - discriminate.
Defined.

(** Payloads the decoder accepts and rejects: a string for the size, a
    fraction for the size, a size beyond [int64], an array, and a
    trailing comma are rejected; a capital key, a [null] after a value,
    members under other keys, an escaped surrogate pair and white space
    are accepted. *)
Example DecodeToken_payloads :
  DecodeToken "eyJzIjoieCJ9" = inr (ErrUnmarshalToken UnmarshalTypeError)
  ∧ DecodeToken "eyJzIjoxLjV9" = inr (ErrUnmarshalToken UnmarshalTypeError)
  ∧ DecodeToken "eyJzIjo5MjIzMzcyMDM2ODU0Nzc1ODA4fQ=="
    = inr (ErrUnmarshalToken UnmarshalTypeError)
  ∧ DecodeToken "WzFd" = inr (ErrUnmarshalToken UnmarshalTypeError)
  ∧ DecodeToken "eyJ1IjoxLH0=" = inr (ErrUnmarshalToken SyntaxError)
  ∧ DecodeToken "eyJVIjoiYSIsInUiOm51bGwsIngiOlsxLHt9XX0=" = inl (mkFileToken "a" "" 0)
  ∧ DecodeToken "eyJmIjoiXHVkODNkXHVkZTAwIiwgInMiOiAtNyB9" = inl (mkFileToken "" "😀" (-7)).
Proof. vm_compute. repeat split; reflexivity. Qed.

End Token.

(** * Further properties *)

(** ** The registry: identifiers, listings and invariants *)

Section RegistryListings.

Import Store StoreSpec StoreLaws.

Implicit Types (s : Store) (id : string) (dl : Download) (op : Op).

(** *** Identifiers *)

Lemma hexdigit_inj (n m : N) :
  (n < 16)%N → (m < 16)%N → hexdigit n = hexdigit m → n = m.
Proof.
  intros Hn Hm H. apply (f_equal Ascii.N_of_ascii) in H. revert H. unfold hexdigit.
  destruct (n <? 10)%N eqn:En; destruct (m <? 10)%N eqn:Em;
    rewrite !Ascii.N_ascii_embedding by lia; lia.
Qed.

Lemma hexEncode_inj a : ∀ b, hexEncode a = hexEncode b → a = b.
Proof.
  induction a as [| x a IH]; intros [| y b]; simpl; try done.
  intros [= H1 H2 H3].
  pose proof (Byte.to_N_bounded x). pose proof (Byte.to_N_bounded y).
  apply hexdigit_inj in H1; [| apply N.Div0.div_lt_upper_bound; lia ..].
  apply hexdigit_inj in H2; [| apply N.mod_lt; lia ..].
  f_equal; [|by apply IH].
  apply (inj Some). rewrite <- !Byte.of_to_N. f_equal.
  rewrite (N.div_mod (Byte.to_N x) 16), (N.div_mod (Byte.to_N y) 16) by lia. lia.
Qed.

(** X1. Identifiers are as different as the random bytes they are made
    from: [generateID] maps different buffers to different identifiers. *)
Theorem generateID_inj (e1 e2 : list byte) :
  generateID e1 = generateID e2 → e1 = e2.
Proof.
  unfold generateID. simpl. intros [= H]. by apply hexEncode_inj.
Qed.

Lemma generateID_inj_witness :
  generateID [x01; xab] = generateID [x01; xab] ∧ [x01; xab] = [x01; xab].
Proof. split; [reflexivity|]. apply generateID_inj. reflexivity. Defined.

(** *** Listings after a write *)

Lemma All_insert s id dl : All (<[id := dl]> s) ≡ₚ dl :: All (Remove id s).
Proof.
  unfold All, Remove. rewrite <- insert_delete_eq.
  rewrite map_to_list_insert by apply lookup_delete_eq. done.
Qed.

Lemma All_present s id dl : s !! id = Some dl → All s ≡ₚ dl :: All (Remove id s).
Proof.
  intros H. rewrite <- (insert_id s id dl H) at 1. apply All_insert.
Qed.

Lemma Remove_absent s id : s !! id = None → Remove id s = s.
Proof. apply delete_id. Qed.

Lemma filter_Permutation (f : Download → bool) (l l' : list Download) :
  l ≡ₚ l' → List.filter f l ≡ₚ List.filter f l'.
Proof.
  induction 1 as [| x l l' _ IH | x y l | l l' l'' _ IH1 _ IH2]; simpl.
  - done.
  - destruct (f x); by rewrite IH.
  - destruct (f x), (f y); try done. apply perm_swap.
  - by rewrite IH1.
Qed.

Lemma Queue_insert s id dl :
  Queue (<[id := dl]> s)
  ≡ₚ (if in_queue dl then [dl] else []) ++ Queue (Remove id s).
Proof.
  unfold Queue. rewrite (filter_Permutation _ _ _ (All_insert s id dl)). simpl.
  by destruct (in_queue dl).
Qed.

Lemma History_insert s id dl :
  History (<[id := dl]> s)
  ≡ₚ (if in_history dl then [dl] else []) ++ History (Remove id s).
Proof.
  unfold History. rewrite (filter_Permutation _ _ _ (All_insert s id dl)). simpl.
  by destruct (in_history dl).
Qed.

(** X2. [Add] puts exactly one new entry on the queue: the listings of
    the registry after [Add] are those of the registry without the
    generated id, with the new Queued entry (no bytes, no retries, room
    for three, no transfer id) added to [Queue] and nothing added to
    [History]; and [Get] on the returned id finds that entry. *)
Theorem Add_listings (e : list byte) (now : Time) (u f : string) (sz : Z) (c : string)
    (s : Store) :
  let s' := fst (Add e now u f sz c s) in
  let id := snd (Add e now u f sz c s) in
  Get id s' = Some (fresh_entry e now u f sz c)
  ∧ Queue s' ≡ₚ fresh_entry e now u f sz c :: Queue (Remove id s)
  ∧ History s' ≡ₚ History (Remove id s)
  ∧ (s !! id = None → Queue s' ≡ₚ fresh_entry e now u f sz c :: Queue s
                       ∧ History s' ≡ₚ History s).
Proof.
  simpl. fold (fresh_entry e now u f sz c).
  split; [apply lookup_insert_eq|].
  pose proof (Queue_insert s (generateID e) (fresh_entry e now u f sz c)) as HQ.
  pose proof (History_insert s (generateID e) (fresh_entry e now u f sz c)) as HH.
  simpl in HQ, HH. split; [exact HQ|]. split; [exact HH|].
  intros Hfresh. by rewrite (Remove_absent _ _ Hfresh) in HQ, HH.
Qed.

Lemma Add_listings_witness :
  Get (snd (Add [] 7 "u1" "dir/file.mkv" 1000 "radarr" New))
      (fst (Add [] 7 "u1" "dir/file.mkv" 1000 "radarr" New))
  = Some (fresh_entry [] 7 "u1" "dir/file.mkv" 1000 "radarr")
  ∧ Queue (fst (Add [] 7 "u1" "dir/file.mkv" 1000 "radarr" New))
    ≡ₚ fresh_entry [] 7 "u1" "dir/file.mkv" 1000 "radarr" :: Queue New
  ∧ History (fst (Add [] 7 "u1" "dir/file.mkv" 1000 "radarr" New)) ≡ₚ History New.
Proof.
  destruct (Add_listings [] 7 "u1" "dir/file.mkv" 1000 "radarr" New) as (H1 & _ & _ & H4).
  split; [exact H1|]. apply H4. reflexivity.
Defined.

(** X3. A report moves an entry between the listings by its new status
    alone: after [UpdateTransfer] on a present entry the updated entry is
    in [History] when the reported status is Completed or Failed and in
    [Queue] when it is Queued or Downloading, and the rest of both
    listings is what the registry without that entry lists. *)
Theorem UpdateTransfer_listings (now : Time) (id : string) (b : Z) (st : Status)
    (s : Store) (dl : Download) :
  valid_status st →
  s !! id = Some dl →
  let s' := UpdateTransfer now id b st s in
  let dl' := updated_entry now b st dl in
  if terminal st
  then Queue s' ≡ₚ Queue (Remove id s) ∧ History s' ≡ₚ dl' :: History (Remove id s)
  else Queue s' ≡ₚ dl' :: Queue (Remove id s) ∧ History s' ≡ₚ History (Remove id s).
Proof.
  intros Hst H. simpl. unfold UpdateTransfer. rewrite H. fold (updated_entry now b st dl).
  pose proof (Queue_insert s id (updated_entry now b st dl)) as HQ.
  pose proof (History_insert s id (updated_entry now b st dl)) as HH.
  unfold in_queue, in_history in HQ, HH. simpl in HQ, HH.
  destruct Hst as [-> | [-> | [-> | ->]]]; simpl in *; done.
Qed.

Lemma UpdateTransfer_listings_witness :
  History Examples.s2 ≡ₚ [Examples.done1] ∧ Queue Examples.s2 ≡ₚ [].
Proof.
  assert (valid_status StatusCompleted) as Hst by (right; right; left; reflexivity).
  assert (Examples.s1 !! Examples.id1 = Some Examples.fresh1) as H by (vm_compute; reflexivity).
  pose proof (UpdateTransfer_listings 9 Examples.id1 1000 StatusCompleted Examples.s1
                Examples.fresh1 Hst H) as [HQ HH].
  split; [exact HH | exact HQ].
Defined.

(** X4. A retry that is allowed puts the entry back on the queue, one
    that is refused moves nothing: after [IncrementRetry] on a present
    entry with a valid status, either the answer is [true] and the entry,
    Queued again with no bytes and no completion time, is in [Queue]
    beside what the registry without it lists, or the answer is [false]
    and the entry is in the listing its unchanged status puts it in. *)
Theorem IncrementRetry_listings (id : string) (s : Store) (dl : Download) :
  s !! id = Some dl → valid_status (dlStatus dl) →
  let s' := fst (IncrementRetry id s) in
  let counted := set_Retries (wrap64 (Retries dl + 1)) dl in
  if snd (IncrementRetry id s)
  then Queue s' ≡ₚ set_progress 0 StatusQueued 0 counted :: Queue (Remove id s)
       ∧ History s' ≡ₚ History (Remove id s)
  else if in_queue dl
       then Queue s' ≡ₚ counted :: Queue (Remove id s)
            ∧ History s' ≡ₚ History (Remove id s)
       else Queue s' ≡ₚ Queue (Remove id s)
            ∧ History s' ≡ₚ counted :: History (Remove id s).
Proof.
  intros H Hst. simpl. unfold IncrementRetry. rewrite H. simpl.
  destruct (wrap64 (Retries dl + 1) >? MaxRetries dl); simpl.
  - pose proof (Queue_insert s id (set_Retries (wrap64 (Retries dl + 1)) dl)) as HQ.
    pose proof (History_insert s id (set_Retries (wrap64 (Retries dl + 1)) dl)) as HH.
    unfold in_queue, in_history in *. simpl in *.
    destruct Hst as [E | [E | [E | E]]]; rewrite E in *; simpl in *; done.
  - pose proof (Queue_insert s id
                  (set_progress 0 StatusQueued 0 (set_Retries (wrap64 (Retries dl + 1)) dl)))
      as HQ.
    pose proof (History_insert s id
                  (set_progress 0 StatusQueued 0 (set_Retries (wrap64 (Retries dl + 1)) dl)))
      as HH.
    done.
Qed.

Lemma IncrementRetry_listings_witness :
  Queue (fst (IncrementRetry Examples.id1 Examples.s2))
  ≡ₚ [set_progress 0 StatusQueued 0 (set_Retries 1 Examples.done1)]
  ∧ History (fst (IncrementRetry Examples.id1 Examples.s2)) ≡ₚ [].
Proof.
  assert (Examples.s2 !! Examples.id1 = Some Examples.done1) as H by (vm_compute; reflexivity).
  assert (valid_status (dlStatus Examples.done1)) as Hst
    by (right; right; left; reflexivity).
  exact (IncrementRetry_listings Examples.id1 Examples.s2 Examples.done1 H Hst).
Defined.

(** *** One key after each write *)

Lemma UpdateTransfer_at now id b st s k :
  UpdateTransfer now id b st s !! k
  = if decide (k = id) then updated_entry now b st <$> s !! id else s !! k.
Proof.
  destruct (decide (k = id)) as [-> | Hne]; [|by apply UpdateTransfer_other].
  unfold UpdateTransfer. destruct (s !! id) as [dl|] eqn:E; simpl.
  - by rewrite lookup_insert_eq.
  - done.
Qed.

Lemma SetTransferID_at id t s k :
  SetTransferID id t s !! k
  = if decide (k = id) then set_TransferID t <$> s !! id else s !! k.
Proof.
  destruct (decide (k = id)) as [-> | Hne]; [|by apply SetTransferID_other].
  unfold SetTransferID. destruct (s !! id) as [dl|] eqn:E; simpl.
  - by rewrite lookup_insert_eq.
  - done.
Qed.

(** The entry [IncrementRetry] stores in place of [dl]. *)
Lemma IncrementRetry_at id s k :
  fst (IncrementRetry id s) !! k
  = if decide (k = id)
    then (λ dl, let dl1 := set_Retries (wrap64 (Retries dl + 1)) dl in
                if Retries dl1 >? MaxRetries dl1 then dl1
                else set_progress 0 StatusQueued 0 dl1) <$> s !! id
    else s !! k.
Proof.
  destruct (decide (k = id)) as [-> | Hne]; [|by apply IncrementRetry_other].
  unfold IncrementRetry. destruct (s !! id) as [dl|] eqn:E; simpl; [|done].
  destruct (_ >? _); simpl; by rewrite lookup_insert_eq.
Qed.

(** X5. [SetTransferID] writes a field nothing else reads or writes: it
    commutes with [UpdateTransfer] and with [IncrementRetry] on any two
    ids, and it does not change the answer of [IncrementRetry]. *)
Theorem SetTransferID_commutes (id t : string) (now : Time) (k : string) (b : Z)
    (st : Status) (s : Store) :
  SetTransferID id t (UpdateTransfer now k b st s)
  = UpdateTransfer now k b st (SetTransferID id t s)
  ∧ SetTransferID id t (fst (IncrementRetry k s))
    = fst (IncrementRetry k (SetTransferID id t s))
  ∧ snd (IncrementRetry k (SetTransferID id t s)) = snd (IncrementRetry k s).
Proof.
  split; [|split].
  - apply map_eq. intros j.
    repeat first [rewrite SetTransferID_at | rewrite UpdateTransfer_at].
    repeat case_decide; subst; try done; by destruct (s !! _).
  - apply map_eq. intros j.
    repeat first [rewrite SetTransferID_at | rewrite IncrementRetry_at].
    repeat case_decide; subst; try done; destruct (s !! _) as [dl|]; simpl; try done.
    by destruct (_ >? _).
  - unfold IncrementRetry. rewrite SetTransferID_at.
    destruct (decide (k = id)) as [-> | Hk]; destruct (s !! _) as [dl|]; simpl; try done;
      by destruct (_ >? _).
Qed.

(** *** Lookup by file *)

(** X6. [FindByFile] answers with a stored entry of that user and file
    when there is one, and with nothing exactly when no stored entry has
    both names. *)
Theorem FindByFile_spec (username filename : string) (s : Store) :
  match FindByFile username filename s with
  | Some dl => (∃ id, s !! id = Some dl) ∧ Username dl = username ∧ Filename dl = filename
  | None => ∀ id dl, s !! id = Some dl → ¬ (Username dl = username ∧ Filename dl = filename)
  end.
Proof.
  unfold FindByFile. destruct (List.find _ _) as [dl|] eqn:E.
  - apply find_some in E as [Hin Hm]. apply list_elem_of_In, elem_of_All in Hin.
    apply andb_true_iff in Hm as [Hu%String.eqb_eq Hf%String.eqb_eq]. done.
  - intros id dl H [Hu Hf].
    assert (In dl (All s)) as Hin by (apply list_elem_of_In, elem_of_All; eauto).
    pose proof (find_none _ _ E dl Hin) as Hm. simpl in Hm.
    rewrite Hu, Hf, !String.eqb_refl in Hm. done.
Qed.

Lemma FindByFile_spec_witness :
  FindByFile "u1" "dir/file.mkv" Examples.s1 = Some Examples.fresh1
  ∧ (∀ id dl, New !! id = Some dl →
       ¬ (Username dl = "u1"%string ∧ Filename dl = "x"%string)).
Proof.
  split; [vm_compute; reflexivity|].
  exact (FindByFile_spec "u1" "x" New).
Defined.

(** *** What no call changes *)

Lemma run_op_same_identity op s id dl :
  s !! id = Some dl → keeps id op →
  ∃ dl', run_op op s !! id = Some dl' ∧ same_identity dl' dl.
Proof.
  intros H Hk. unfold same_identity.
  destruct op as [e now u f sz c | now k b st | k | k t | k]; simpl in *.
  - rewrite lookup_insert_ne by done. exists dl. by repeat split.
  - rewrite UpdateTransfer_at. case_decide; subst; rewrite H; simpl;
      eexists; (split; [reflexivity|]); by repeat split.
  - rewrite IncrementRetry_at. case_decide; subst; rewrite H; simpl; [destruct (_ >? _)|];
      eexists; (split; [reflexivity|]); by repeat split.
  - rewrite SetTransferID_at. case_decide; subst; rewrite H; simpl;
      eexists; (split; [reflexivity|]); by repeat split.
  - unfold Remove. rewrite lookup_delete_ne by done. exists dl. by repeat split.
Qed.

(** X7. What [Add] records about a download never changes afterwards: as
    long as the entry is neither removed nor replaced by an [Add] that
    draws the same id, any sequence of calls leaves it in the registry
    with its id, user name, file name, size, category, time of adding and
    retry limit as they were. *)
Theorem identity_preserved (ops : list Op) (s : Store) (id : string) (dl : Download) :
  s !! id = Some dl → Forall (keeps id) ops →
  ∃ dl', run_ops ops s !! id = Some dl' ∧ same_identity dl' dl.
Proof.
  revert s dl. induction ops as [| op ops IH]; intros s dl H Hk; simpl.
  - exists dl. by repeat split.
  - inversion Hk as [| ? ? Hop Hops]; subst.
    destruct (run_op_same_identity op s id dl H Hop) as (dl1 & H1 & Hs1).
    destruct (IH _ _ H1 Hops) as (dl' & H' & Hs'). exists dl'. split; [exact H'|].
    unfold same_identity in *. intuition congruence.
Qed.

Lemma identity_preserved_witness :
  ∃ dl', run_ops Examples.three_retries Examples.s1 !! Examples.id1 = Some dl'
    ∧ same_identity dl' Examples.fresh1.
Proof.
  apply identity_preserved; [vm_compute; reflexivity|].
  repeat constructor.
Defined.

(** *** Completion times *)

Lemma run_op_stamped op s : clock_started op → stamped s → stamped (run_op op s).
Proof.
  intros Hclock Hs k d. destruct op as [e now u f sz c | now id b st | id | id t | id]; simpl in *.
  - destruct (decide (generateID e = k)) as [-> | Hne].
    + rewrite lookup_insert_eq. by intros [= <-].
    + rewrite lookup_insert_ne by done. apply Hs.
  - rewrite UpdateTransfer_at. case_decide; [|apply Hs]. subst k.
    destruct (s !! id) as [dl|] eqn:E; [|done]. simpl. intros [= <-]. simpl.
    intros Hterm. rewrite Hterm. simpl. unfold IsZero in *.
    destruct (CompletedAt dl =? 0) eqn:Ez; [lia | done].
  - rewrite IncrementRetry_at. case_decide; [|apply Hs]. subst k.
    destruct (s !! id) as [dl|] eqn:E; [|done]. simpl.
    destruct (_ >? _); intros [= <-]; simpl; [by apply (Hs id) | done].
  - rewrite SetTransferID_at. case_decide; [|apply Hs]. subst k.
    destruct (s !! id) as [dl|] eqn:E; [|done]. simpl. intros [= <-]. simpl. by apply (Hs id).
  - unfold Remove. intros H. apply lookup_delete_Some in H as [_ H]. by apply (Hs k).
Qed.

(** X8. A finished download always has its completion time: in every
    registry built from the empty one by calls whose clock does not read
    the zero instant, an entry whose status is Completed or Failed has a
    completion time that is set. *)
Theorem terminal_entries_stamped (ops : list Op) :
  Forall clock_started ops → stamped (run_ops ops New).
Proof.
  assert (∀ s, Forall clock_started ops → stamped s → stamped (run_ops ops s)) as Hgen.
  { induction ops as [| op ops IH]; intros s Hc Hs; simpl; [done|].
    inversion Hc; subst. apply IH; [done|]. by apply run_op_stamped. }
  intros Hc. apply Hgen; [done|]. intros id dl. unfold New. by rewrite lookup_empty.
Qed.

Lemma terminal_entries_stamped_witness :
  stamped (run_ops [Examples.add1; Examples.complete1] New).
Proof.
  apply terminal_entries_stamped. repeat constructor. simpl. lia.
Defined.

(** X9. Reporting the same progress twice is the same as reporting it
    once, whatever the second clock reads, provided the first clock did
    not read the zero instant. *)
Theorem UpdateTransfer_idempotent (now now' : Time) (id : string) (b : Z) (st : Status)
    (s : Store) :
  now ≠ 0 →
  UpdateTransfer now' id b st (UpdateTransfer now id b st s) = UpdateTransfer now id b st s.
Proof.
  intros Hnow. apply map_eq. intros k. rewrite !UpdateTransfer_at.
  repeat case_decide; try done. destruct (s !! id) as [dl|]; simpl; [|done]. f_equal.
  unfold updated_entry, set_progress, IsZero. simpl.
  destruct (terminal st); simpl; [|done].
  destruct (CompletedAt dl =? 0) eqn:Ez; simpl.
  - assert ((now =? 0) = false) as -> by lia. done.
  - by rewrite Ez.
Qed.

Lemma UpdateTransfer_idempotent_witness :
  UpdateTransfer 10 Examples.id1 1000 StatusCompleted Examples.s2 = Examples.s2.
Proof.
  apply (UpdateTransfer_idempotent 9 10 Examples.id1 1000 StatusCompleted Examples.s1). lia.
Defined.

(** *** Counting entries *)

Lemma length_All s : length (All s) = size s.
Proof. unfold All. by rewrite length_fmap, length_map_to_list. Qed.

Lemma run_adds_size ops : ∀ s,
  Forall (λ op, is_Some (entropy_of op)) ops →
  NoDup (omap entropy_of ops) →
  (∀ e, e ∈ omap entropy_of ops → s !! generateID e = None) →
  size (run_ops ops s) = (size s + length ops)%nat.
Proof.
  induction ops as [| op ops IH]; intros s Hadd Hnd Hfresh; simpl; [lia|].
  inversion Hadd as [| ? ? [e He] Hadds]; subst.
  destruct op as [e' now u f sz c | | | |]; try discriminate. simpl in *.
  injection He as ->. apply NoDup_cons in Hnd as [Hnotin Hnd].
  rewrite IH; [| done | done |].
  - rewrite map_size_insert_None by (apply Hfresh; left). lia.
  - intros e2 Hin. rewrite lookup_insert_ne; [apply Hfresh; by right|].
    unfold generateID. simpl. intros [= Heq%hexEncode_inj]. by subst.
Qed.

(** X10. Adding never loses an entry while the random bytes differ: a
    sequence of [Add] calls that draw pairwise different buffers, none of
    whose ids is in use, makes the registry grow by exactly one entry per
    call. *)
Theorem Add_all_kept (ops : list Op) (s : Store) :
  Forall (λ op, is_Some (entropy_of op)) ops →
  NoDup (omap entropy_of ops) →
  (∀ e, e ∈ omap entropy_of ops → s !! generateID e = None) →
  length (All (run_ops ops s)) = (length (All s) + length ops)%nat.
Proof.
  intros Hadds Hnd Hfresh. rewrite !length_All. by apply run_adds_size.
Qed.

Lemma Add_all_kept_witness :
  length (All (run_ops [OpAdd [x01] 1 "a" "f" 1 ""; OpAdd [x02] 2 "a" "f" 1 ""] New))
  = 2%nat.
Proof.
  apply (Add_all_kept [OpAdd [x01] 1 "a" "f" 1 ""; OpAdd [x02] 2 "a" "f" 1 ""] New).
  - repeat (constructor; [by eexists|]). constructor.
  - simpl. apply NoDup_cons. split; [|apply NoDup_singleton].
    intros H%list_elem_of_singleton. discriminate H.
  - intros e _. reflexivity.
Defined.

End RegistryListings.

(** ** The reconciler: what a pass writes *)

Section ReconcilerEffect.

Import Store StoreSpec StoreLaws Sabnzbd SyncSpec SyncLaws SabnzbdApi.

(** *** The lookup table *)

Lemma addFiles_flat u files : ∀ m,
  addFiles u files m = fold_left put (List.map (λ t, (u, t)) files) m.
Proof. unfold addFiles. induction files as [| t files IH]; intros m; simpl; [done|]. apply IH. Qed.

Lemma addDirectories_flat u dirs : ∀ m,
  addDirectories u dirs m
  = fold_left put (flat_map (λ d, List.map (λ t, (u, t)) (Slskd.Files d)) dirs) m.
Proof.
  unfold addDirectories. induction dirs as [| d dirs IH]; intros m; simpl; [done|].
  rewrite fold_left_app, <- addFiles_flat. apply IH.
Qed.

Lemma fold_groups_flat groups : ∀ m,
  fold_left (fun m g => addDirectories (Slskd.GroupUsername g) (Slskd.Directories g) m)
    groups m
  = fold_left put (files_of groups) m.
Proof.
  unfold files_of. induction groups as [| g groups IH]; intros m; simpl; [done|].
  rewrite fold_left_app, <- addDirectories_flat. apply IH.
Qed.

Lemma find_app_first {A} (f : A → bool) (l1 l2 : list A) :
  List.find f (l1 ++ l2)
  = match List.find f l1 with Some x => Some x | None => List.find f l2 end.
Proof. induction l1 as [| x l1 IH]; simpl; [done|]. by destruct (f x). Qed.

Lemma fold_put_lookup files : ∀ m u f,
  fold_left put files m !! (u, f)
  = match last_match u f files with Some t => Some t | None => m !! (u, f) end.
Proof.
  unfold last_match. induction files as [| p files IH]; intros m u f; simpl; [done|].
  rewrite IH, find_app_first. destruct (List.find _ (rev files)) as [q|]; simpl; [done|].
  unfold put. destruct (String.eqb_spec p.1 u) as [Hu | Hu]; simpl.
  - destruct (String.eqb_spec (Slskd.Filename p.2) f) as [Hf | Hf]; simpl.
    + subst. by rewrite lookup_insert_eq.
    + rewrite lookup_insert_ne; [done | congruence].
  - rewrite lookup_insert_ne; [done | congruence].
Qed.

(** X11. When a snapshot lists the same user and file more than once, the
    pass goes by the last of them: the table built from a snapshot maps
    a user name and a file name to the last file, in the order of the
    snapshot, that has both, and to nothing when no file has. *)
Theorem buildTransfers_last_wins (groups : list Slskd.UserTransferGroup)
    (username filename : string) :
  buildTransfers groups !! (username, filename)
  = last_match username filename (files_of groups).
Proof.
  unfold buildTransfers. rewrite fold_groups_flat, fold_put_lookup.
  destruct (last_match _ _ _); [done | apply lookup_empty].
Qed.

(** *** One key after a pass *)

Lemma syncEntry_at transfers now d s :
  s !! Store.ID d = Some d →
  syncEntry transfers now d s !! Store.ID d
  = Some (if terminal (dlStatus d) then d
          else match transfers !! (Store.Username d, Store.Filename d) with
               | None => d
               | Some t => updated_entry now (Slskd.BytesTransferred t)
                             (newStatus (Slskd.State t)) d
               end).
Proof.
  intros H. unfold syncEntry. fold (terminal (dlStatus d)).
  destruct (terminal _); [done|]. destruct (transfers !! _) as [t|]; [|done].
  rewrite UpdateTransfer_at, decide_True by done. by rewrite H.
Qed.

Lemma syncLoop_other transfers clock snapshot : ∀ i s id,
  id ∉ Store.ID <$> snapshot →
  syncLoop transfers clock i snapshot s !! id = s !! id.
Proof.
  induction snapshot as [| d rest IH]; intros i s id Hnotin; simpl; [done|].
  rewrite fmap_cons, not_elem_of_cons in Hnotin. destruct Hnotin as [Hne Hrest].
  rewrite IH by done. by apply syncEntry_other.
Qed.

Lemma syncLoop_at transfers clock snapshot : ∀ i s j d,
  NoDup (Store.ID <$> snapshot) →
  (∀ d', d' ∈ snapshot → s !! Store.ID d' = Some d') →
  snapshot !! j = Some d →
  syncLoop transfers clock i snapshot s !! Store.ID d
  = syncEntry transfers (clock (i + j)%nat) d s !! Store.ID d.
Proof.
  induction snapshot as [| d0 rest IH]; intros i s j d Hnd Hs Hj; [done|].
  rewrite fmap_cons in Hnd. apply NoDup_cons in Hnd as [Hnotin Hnd]. simpl.
  destruct j as [| j]; simpl in Hj.
  - injection Hj as ->. rewrite syncLoop_other by done. by rewrite Nat.add_0_r.
  - assert (d ∈ rest) as Hin by (by eapply list_elem_of_lookup_2).
    assert (Store.ID d0 ≠ Store.ID d) as Hne.
    { intros Heq. apply Hnotin. rewrite Heq. by apply list_elem_of_fmap_2. }
    rewrite (IH (S i) _ j d Hnd); [| | done].
    + replace (S i + j)%nat with (i + S j)%nat by lia.
      rewrite !syncEntry_at.
      * done.
      * apply Hs. by right.
      * rewrite syncEntry_other by done. apply Hs. by right.
    + intros d' Hd'. rewrite syncEntry_other; [apply Hs; by right|].
      intros Heq. apply Hnotin. rewrite Heq. by apply list_elem_of_fmap_2.
Qed.

Lemma NoDup_All_IDs s : ids_consistent s → NoDup (Store.ID <$> All s).
Proof.
  intros Hs. unfold All. rewrite <- list_fmap_compose.
  apply NoDup_fmap_2_strong; [|apply NoDup_map_to_list].
  intros [k1 d1] [k2 d2] H1%elem_of_map_to_list H2%elem_of_map_to_list. simpl.
  intros Heq. pose proof (Hs _ _ H1). pose proof (Hs _ _ H2).
  assert (k1 = k2) as -> by congruence. f_equal. congruence.
Qed.

Lemma buildTransfers_lookup groups u f :
  buildTransfers groups !! (u, f) = last_match u f (files_of groups).
Proof.
  unfold buildTransfers. rewrite fold_groups_flat, fold_put_lookup.
  destruct (last_match _ _ _); [done | apply lookup_empty].
Qed.

Lemma syncOnce_absent s groups clock id :
  reachable s → s !! id = None → syncOnce (Some groups) clock s !! id = None.
Proof.
  intros Hreach E. pose proof (reachable_ids_consistent s Hreach) as Hids. simpl.
  rewrite syncLoop_other; [done|]. intros (d & -> & [k Hk]%elem_of_All)%list_elem_of_fmap.
  rewrite (Hids _ _ Hk) in E. congruence.
Qed.

Lemma syncOnce_present s groups clock id dl :
  reachable s → s !! id = Some dl →
  ∃ i, All s !! i = Some dl
    ∧ syncOnce (Some groups) clock s !! id = Some (synced_entry groups clock i dl).
Proof.
  intros Hreach E. pose proof (reachable_ids_consistent s Hreach) as Hids. simpl.
  assert (dl ∈ All s) as Hin by (apply elem_of_All; eauto).
  apply list_elem_of_lookup_1 in Hin as [i Hi]. exists i. split; [exact Hi|].
  pose proof (Hids _ _ E) as Hid. rewrite <- Hid.
  rewrite (syncLoop_at _ _ _ 0 s i dl); [| by apply NoDup_All_IDs | | done].
  - rewrite syncEntry_at by (by rewrite Hid). unfold synced_entry.
    by rewrite buildTransfers_lookup.
  - intros d' [k Hk]%elem_of_All. by rewrite (Hids _ _ Hk).
Qed.

(** X12. What one pass writes. In a reachable registry a pass whose
    fetch succeeded leaves every id that is absent absent, and every
    present entry is afterwards what [synced_entry] makes of it at some
    iteration of the loop: itself when it is Completed or Failed or when
    the snapshot has no file of its user and file name, and otherwise the
    entry with the byte count of the last such file, the status derived
    from that file's state, and, if this status is terminal and no
    completion time was set, the clock of that iteration as completion
    time. *)
Theorem syncOnce_effect (s : Store) (groups : list Slskd.UserTransferGroup)
    (clock : nat → Time) (id : string) :
  reachable s →
  match s !! id with
  | None => syncOnce (Some groups) clock s !! id = None
  | Some dl =>
      ∃ i, All s !! i = Some dl
        ∧ syncOnce (Some groups) clock s !! id = Some (synced_entry groups clock i dl)
  end.
Proof.
  intros Hreach. destruct (s !! id) as [dl|] eqn:E.
  - by apply syncOnce_present.
  - by apply syncOnce_absent.
Qed.

Lemma syncOnce_effect_witness :
  ∃ i, All Examples.s1 !! i = Some Examples.fresh1
    ∧ syncOnce (Some (Examples.snapshot1 "InProgress" 400)) (fun _ => 11) Examples.s1
        !! Examples.id1
      = Some (synced_entry (Examples.snapshot1 "InProgress" 400) (fun _ => 11) i
                Examples.fresh1).
Proof.
  assert (reachable Examples.s1) as Hreach by (apply reach_step; [apply reach_New | exact I]).
  exact (syncOnce_effect Examples.s1 (Examples.snapshot1 "InProgress" 400) (fun _ => 11)
           Examples.id1 Hreach).
Defined.

Lemma synced_entry_fixed groups clock clock' i i' dl :
  synced_entry groups clock' i' (synced_entry groups clock i dl)
  = synced_entry groups clock i dl.
Proof.
  unfold synced_entry at 2. destruct (terminal (dlStatus dl)) eqn:Et.
  - unfold synced_entry. by rewrite Et.
  - destruct (last_match _ _ _) as [t|] eqn:Em.
    + unfold synced_entry, updated_entry. simpl. rewrite Em, Et.
      destruct (terminal (newStatus (Slskd.State t))) eqn:En; [done|].
      done.
    + unfold synced_entry. by rewrite Et, Em.
Qed.

(** X13. A pass repeated on the same snapshot changes nothing: in a
    reachable registry, running [syncOnce] again with what the first run
    fetched gives the registry the first run left, whatever the clocks
    read. *)
Theorem syncOnce_idempotent (s : Store) (fetched : option (list Slskd.UserTransferGroup))
    (clock clock' : nat → Time) :
  reachable s →
  syncOnce fetched clock' (syncOnce fetched clock s) = syncOnce fetched clock s.
Proof.
  intros Hreach. destruct fetched as [groups|]; [|done].
  pose proof (syncOnce_reachable (Some groups) clock s Hreach) as Hreach1.
  apply map_eq. intros id. destruct (s !! id) as [dl|] eqn:E.
  - destruct (syncOnce_present s groups clock id dl Hreach E) as (i & _ & H1).
    destruct (syncOnce_present _ groups clock' id _ Hreach1 H1) as (i' & _ & H2).
    rewrite H2, H1. f_equal. apply synced_entry_fixed.
  - pose proof (syncOnce_absent s groups clock id Hreach E) as H1.
    by rewrite (syncOnce_absent _ groups clock' id Hreach1 H1).
Qed.

Lemma syncOnce_idempotent_witness :
  let pass := syncOnce (Some (Examples.snapshot1 "InProgress" 400)) in
  pass (fun _ => 12) (pass (fun _ => 11) Examples.s1) = pass (fun _ => 11) Examples.s1.
Proof.
  apply syncOnce_idempotent. apply reach_step; [apply reach_New | exact I].
Defined.

(** *** The loop of passes *)

Lemma synced_entry_kept groups clock i dl :
  same_identity (synced_entry groups clock i dl) dl
  ∧ Retries (synced_entry groups clock i dl) = Retries dl
  ∧ TransferID (synced_entry groups clock i dl) = TransferID dl
  ∧ (terminal (dlStatus dl) = true → synced_entry groups clock i dl = dl).
Proof.
  unfold synced_entry, same_identity. destruct (terminal (dlStatus dl)); [by repeat split|].
  destruct (last_match _ _ _); by repeat split.
Qed.

(** X14. The polling loop only ever reports progress. Over any number of
    ticks, with any fetched snapshots and failed fetches, [SyncDownloads]
    adds no entry and removes none, leaves id, user name, file name,
    size, category, time of adding, retry limit, retry count and
    transfer id of every entry as they were, and leaves an entry that is
    Completed or Failed exactly as it was. *)
Theorem SyncDownloads_frame
    (ticks : list (option (list Slskd.UserTransferGroup) * (nat → Time)))
    (s : Store) (id : string) :
  reachable s →
  match s !! id with
  | None => SyncDownloads ticks s !! id = None
  | Some dl =>
      ∃ dl', SyncDownloads ticks s !! id = Some dl'
        ∧ same_identity dl' dl
        ∧ Retries dl' = Retries dl
        ∧ TransferID dl' = TransferID dl
        ∧ (terminal (dlStatus dl) = true → dl' = dl)
  end.
Proof.
  revert s. unfold SyncDownloads.
  induction ticks as [| [fetched clock] ticks IH]; intros s Hreach; simpl.
  - destruct (s !! id) as [dl|]; [|done]. exists dl. by repeat split.
  - pose proof (syncOnce_reachable fetched clock s Hreach) as Hreach1.
    specialize (IH _ Hreach1). destruct (s !! id) as [dl|] eqn:E.
    + assert (∃ i, syncOnce fetched clock s !! id = Some
                (match fetched with Some groups => synced_entry groups clock i dl
                 | None => dl end)) as [i H1].
      { destruct fetched as [groups|]; [|by exists 0%nat].
        destruct (syncOnce_present s groups clock id dl Hreach E) as (i & _ & H1). eauto. }
      rewrite H1 in IH. destruct IH as (dl' & H' & Hs & Hr & Ht & Hterm).
      exists dl'. split; [exact H'|].
      destruct fetched as [groups|]; [|done].
      destruct (synced_entry_kept groups clock i dl) as (Hs1 & Hr1 & Ht1 & Hterm1).
      unfold same_identity in *.
      split; [intuition congruence|]. split; [congruence|]. split; [congruence|].
      intros Hdl. rewrite (Hterm1 Hdl) in Hterm. by apply Hterm.
    + destruct fetched as [groups|]; [|simpl in IH; by rewrite E in IH].
      by rewrite (syncOnce_absent s groups clock id Hreach E) in IH.
Qed.

Lemma SyncDownloads_frame_witness :
  ∃ dl', SyncDownloads
           [(Some (Examples.snapshot1 "InProgress" 400), fun _ => 11); (None, fun _ => 12)]
           Examples.s2 !! Examples.id1 = Some dl'
    ∧ same_identity dl' Examples.done1
    ∧ Retries dl' = Retries Examples.done1
    ∧ TransferID dl' = TransferID Examples.done1
    ∧ (terminal (dlStatus Examples.done1) = true → dl' = Examples.done1).
Proof.
  assert (reachable Examples.s2) as Hreach.
  { apply reach_step; [apply reach_step; [apply reach_New | exact I]|].
    right; right; left; reflexivity. }
  exact (SyncDownloads_frame
           [(Some (Examples.snapshot1 "InProgress" 400), fun _ => 11); (None, fun _ => 12)]
           Examples.s2 Examples.id1 Hreach).
Defined.

End ReconcilerEffect.

(** ** The handlers of the download client facade *)

Section Handlers.

Import Store StoreSpec StoreLaws SabnzbdApi TokenSpec.

(** *** The key check *)

Lemma lor_byte a b : 0 <= a < 256 → 0 <= b < 256 → 0 <= Z.lor a b < 256.
Proof.
  intros Ha Hb. assert (0 <= Z.lor a b) as H0 by (apply Z.lor_nonneg; lia).
  split; [done|]. destruct (Z.eq_dec (Z.lor a b) 0) as [-> | Hne]; [lia|].
  apply (Z.log2_lt_pow2 _ 8); [lia|]. rewrite Z.log2_lor by lia.
  destruct (Z.eq_dec a 0) as [-> | Ha0]; destruct (Z.eq_dec b 0) as [-> | Hb0];
    simpl; try lia.
  - apply Z.max_lub_lt; [simpl; lia | apply Z.log2_lt_pow2; lia].
  - apply Z.max_lub_lt; [apply Z.log2_lt_pow2; lia | simpl; lia].
  - apply Z.max_lub_lt; apply Z.log2_lt_pow2; lia.
Qed.

Lemma lxor_byte a b : 0 <= a < 256 → 0 <= b < 256 → 0 <= Z.lxor a b < 256.
Proof.
  intros Ha Hb. assert (0 <= Z.lxor a b) as H0 by (apply Z.lxor_nonneg; lia).
  split; [done|]. destruct (Z.eq_dec (Z.lxor a b) 0) as [-> | Hne]; [lia|].
  apply (Z.log2_lt_pow2 _ 8); [lia|].
  eapply Z.le_lt_trans; [apply Z.log2_lxor; lia|].
  destruct (Z.eq_dec a 0) as [-> | Ha0]; destruct (Z.eq_dec b 0) as [-> | Hb0];
    simpl; try lia.
  - apply Z.max_lub_lt; [simpl; lia | apply Z.log2_lt_pow2; lia].
  - apply Z.max_lub_lt; [apply Z.log2_lt_pow2; lia | simpl; lia].
  - apply Z.max_lub_lt; apply Z.log2_lt_pow2; lia.
Qed.

Lemma differences_spec x : ∀ y v,
  length x = length y → 0 <= v < 256 →
  0 <= Subtle.differences v x y < 256
  ∧ (Subtle.differences v x y = 0 ↔ v = 0 ∧ x = y).
Proof.
  induction x as [| a x IH]; intros [| b y] v Hlen Hv; simpl in *; try discriminate.
  - split; [done|]. tauto.
  - injection Hlen as Hlen.
    pose proof (b2z_range a). pose proof (b2z_range b).
    pose proof (lxor_byte (b2z a) (b2z b)). pose proof (lor_byte v (Z.lxor (b2z a) (b2z b))).
    destruct (IH y (Z.lor v (Z.lxor (b2z a) (b2z b))) Hlen) as [Hr Hz]; [lia|].
    split; [done|]. rewrite Hz, Z.lor_eq_0_iff, Z.lxor_eq_0_iff. split.
    + intros [[-> Hab%b2z_inj] ->]. by subst.
    + intros [-> [= -> ->]]. done.
Qed.

Lemma ConstantTimeByteEq_zero v :
  0 <= v < 256 → Subtle.ConstantTimeByteEq v 0 = 1 ↔ v = 0.
Proof.
  intros Hv. unfold Subtle.ConstantTimeByteEq. rewrite Z.lxor_0_r, Z.shiftr_div_pow2 by lia.
  split.
  - intros H. destruct (Z.eq_dec v 0) as [| Hne]; [done|].
    rewrite Z.mod_small, Z.div_small in H by lia. discriminate.
  - intros ->. reflexivity.
Qed.

Lemma ConstantTimeCompare_spec x y : Subtle.ConstantTimeCompare x y = 1 ↔ x = y.
Proof.
  unfold Subtle.ConstantTimeCompare. destruct (Nat.eqb_spec (length x) (length y)) as [Hlen | Hlen];
    simpl.
  - destruct (differences_spec x y 0 Hlen) as [Hr Hz]; [lia|].
    rewrite ConstantTimeByteEq_zero by done. rewrite Hz. tauto.
  - split; [discriminate | intros ->; done].
Qed.

Lemma list_byte_of_string_inj a b :
  String.list_byte_of_string a = String.list_byte_of_string b → a = b.
Proof.
  intros H. rewrite <- (String.string_of_list_byte_of_string a),
    <- (String.string_of_list_byte_of_string b). by rewrite H.
Qed.

(** X15. The key check of either facade lets a request through exactly
    when no key is configured or the request's key is the configured
    key, byte for byte. *)
Theorem checkAPIKey_spec (apiKey key : string) :
  (SabnzbdApi.checkAPIKey apiKey key = true ↔ apiKey = EmptyString ∨ key = apiKey)
  ∧ (NewznabApi.checkAPIKey apiKey key = true ↔ apiKey = EmptyString ∨ key = apiKey).
Proof.
  unfold SabnzbdApi.checkAPIKey, NewznabApi.checkAPIKey.
  destruct (String.eqb_spec apiKey "") as [-> | Hne].
  - split; (split; [by left | done]).
  - rewrite Z.eqb_eq, ConstantTimeCompare_spec.
    split; (split; [intros H%list_byte_of_string_inj; by right | intros [? | ->]; done]).
Qed.

Lemma checkAPIKey_spec_witness :
  SabnzbdApi.checkAPIKey "secret" "secret" = true
  ∧ NewznabApi.checkAPIKey "" "anything" = true.
Proof.
  split.
  - apply (proj1 (checkAPIKey_spec "secret" "secret")). right. reflexivity.
  - apply (proj2 (checkAPIKey_spec "" "anything")). left. reflexivity.
Defined.

(** *** Deleting *)

(** X16. Deleting by id answers with success for every id that is not
    empty, tracked or not and whatever the status of the entry: the queue
    handler and the history handler do the same, afterwards neither
    listing of a reachable registry has an entry of that id, and the
    entries of every other id are listed as before. An empty id is
    refused and leaves the registry as it was. *)
Theorem handleDelete_spec (value : string) (s : Store) :
  reachable s →
  handleHistoryDelete value s = handleQueueDelete value s
  ∧ (value = EmptyString → handleQueueDelete value s = (s, Failure "Missing value"))
  ∧ (value ≠ EmptyString →
       let s' := fst (handleQueueDelete value s) in
       snd (handleQueueDelete value s) = Accepted [value]
       ∧ (∀ dl, dl ∈ Queue s' ++ History s' → ID dl ≠ value)
       ∧ (∀ dl, ID dl ≠ value →
            (dl ∈ Queue s' ↔ dl ∈ Queue s) ∧ (dl ∈ History s' ↔ dl ∈ History s))).
Proof.
  intros Hreach. pose proof (reachable_ids_consistent s Hreach) as Hids.
  split; [done|]. unfold handleQueueDelete. split; [by intros ->|]. intros Hne.
  destruct (String.eqb_spec value "") as [| _]; [done|]. simpl.
  split; [done|].
  assert (∀ dl, dl ∈ All (Remove value s) ↔ dl ∈ All s ∧ ID dl ≠ value) as Hall.
  { intros dl. rewrite !elem_of_All. unfold Remove. split.
    - intros [k [Hk H]%lookup_delete_Some]. split; [eauto|]. by rewrite (Hids _ _ H).
    - intros [[k H] Hid]. exists k. apply lookup_delete_Some. split; [|done].
      rewrite (Hids _ _ H) in Hid. done. }
  split.
  - intros dl. rewrite elem_of_app, elem_of_Queue, elem_of_History, Hall. tauto.
  - intros dl Hid. rewrite !elem_of_Queue, !elem_of_History, Hall. tauto.
Qed.

Lemma handleDelete_spec_witness :
  snd (handleQueueDelete Examples.id1 Examples.s2) = Accepted [Examples.id1]
  ∧ ∀ dl, dl ∈ Queue (fst (handleQueueDelete Examples.id1 Examples.s2))
               ++ History (fst (handleQueueDelete Examples.id1 Examples.s2)) →
          ID dl ≠ Examples.id1.
Proof.
  assert (reachable Examples.s2) as Hreach.
  { apply reach_step; [apply reach_step; [apply reach_New | exact I]|].
    right; right; left; reflexivity. }
  assert (Examples.id1 ≠ EmptyString) as Hne by discriminate.
  destruct (handleDelete_spec Examples.id1 Examples.s2 Hreach) as (_ & _ & H).
  destruct (H Hne) as (H1 & H2 & _). split; [exact H1 | exact H2].
Defined.

(** *** Grabbing a search result *)

(** X17. Grabbing a search result tracks the file the result was made
    from. When the key check passes, the link is not empty and carries
    the token that [EncodeToken] made for a user name and a file name of
    well-formed UTF-8 and an [int64] size, and the backend accepted the
    download, [handleAddURL] answers with the new id and the registry
    holds under it a Queued entry of that user, file, size and of the
    request's category; every other id is as before. In every other case
    the answer is a failure and the registry is as it was. *)
Theorem handleAddURL_tracks (extractTokenFromURL : string → option string)
    (apiKey key nzbURL category : string) (queued : bool) (entropy : list byte)
    (now : Time) (s : Store) (u f : string) (sz : Z) :
  valid_utf8 u → valid_utf8 f → int64_range sz →
  extractTokenFromURL nzbURL = Some (Newznab.EncodeToken u f sz) →
  let r := handleAddURL extractTokenFromURL apiKey key nzbURL category queued entropy now s in
  if checkAPIKey apiKey key && negb (String.eqb nzbURL "") && queued
  then snd r = Accepted [generateID entropy]
       ∧ Get (generateID entropy) (fst r) = Some (fresh_entry entropy now u f sz category)
       ∧ ∀ k, k ≠ generateID entropy → Get k (fst r) = Get k s
  else fst r = s ∧ ∃ msg, snd r = Failure msg.
Proof.
  intros Hu Hf Hsz Hx. simpl. unfold handleAddURL.
  destruct (checkAPIKey apiKey key); simpl; [|eauto].
  destruct (String.eqb nzbURL ""); simpl; [eauto|].
  rewrite Hx. unfold Newznab.DecodeToken, Newznab.EncodeToken.
  rewrite DecodeString_EncodeToString, unmarshal_marshal by done.
  destruct queued; simpl; [|eauto].
  split; [done|]. unfold Get. split; [apply lookup_insert_eq|].
  intros k Hk. by rewrite lookup_insert_ne.
Qed.

Ltac ascii_well_formed :=
  unfold valid_utf8; cbn; repeat (apply wf_one; [cbn; lia|]); apply wf_nil.

Lemma handleAddURL_tracks_witness :
  let r := handleAddURL (λ _, Some (Newznab.EncodeToken "u1" "dir/file.mkv" 1000))
             "secret" "secret" "http://slskrr/api?t=get" "radarr" true [] 7 New in
  snd r = Accepted [generateID []]
  ∧ Get (generateID []) (fst r) = Some (fresh_entry [] 7 "u1" "dir/file.mkv" 1000 "radarr")
  ∧ ∀ k, k ≠ generateID [] → Get k (fst r) = Get k New.
Proof.
  assert (valid_utf8 "u1") as Hu by ascii_well_formed.
  assert (valid_utf8 "dir/file.mkv") as Hf by ascii_well_formed.
  assert (int64_range 1000) as Hs by (unfold int64_range; lia).
  exact (handleAddURL_tracks (λ _, Some (Newznab.EncodeToken "u1" "dir/file.mkv" 1000))
           "secret" "secret" "http://slskrr/api?t=get" "radarr" true [] 7 New
           "u1" "dir/file.mkv" 1000 Hu Hf Hs eq_refl).
Defined.

End Handlers.

(** ** The text functions of the indexer facade *)

Section Text.

Import Stdlib.Strings.Ascii.
Import Strings1 NewznabApi TextLaws.

(** *** [xmlEscape] *)

Lemma append_cons x (a b : string) :
  String.append (String x a) b = String x (String.append a b).
Proof. reflexivity. Qed.

Lemma append_assoc (a b c : string) :
  String.append (String.append a b) c = String.append a (String.append b c).
Proof.
  induction a as [| x a IH]; [reflexivity|]. rewrite !append_cons. f_equal. apply IH.
Qed.

Lemma ReplaceAll_app a b old new :
  ReplaceAll (String.append a b) old new
  = String.append (ReplaceAll a old new) (ReplaceAll b old new).
Proof.
  induction a as [| c a IH]; [reflexivity|]. rewrite append_cons. simpl.
  destruct (Ascii.eqb c old).
  - rewrite append_assoc. f_equal. apply IH.
  - rewrite append_cons. f_equal. apply IH.
Qed.

Lemma xmlEscape_app a b :
  xmlEscape (String.append a b) = String.append (xmlEscape a) (xmlEscape b).
Proof. unfold xmlEscape. by rewrite !ReplaceAll_app. Qed.

Lemma xmlEscape_one c : xmlEscape (String c EmptyString) = escapeChar c.
Proof.
  unfold xmlEscape, escapeChar. simpl.
  destruct (Ascii.eqb_spec c "&") as [-> | H1]; [reflexivity|]. simpl.
  destruct (Ascii.eqb_spec c "<") as [-> | H2]; [reflexivity|]. simpl.
  destruct (Ascii.eqb_spec c ">") as [-> | H3]; [reflexivity|]. simpl.
  destruct (Ascii.eqb_spec c quote) as [-> | H4]; reflexivity.
Qed.

Lemma xmlEscape_each s : xmlEscape s = escape_each s.
Proof.
  induction s as [| c s IH]; [reflexivity|].
  change (String c s) with (String.append (String c EmptyString) s).
  rewrite xmlEscape_app, xmlEscape_one, IH. reflexivity.
Qed.

Lemma has_append c a b : has c (String.append a b) ↔ has c a ∨ has c b.
Proof.
  unfold has. induction a as [| x a IH]; simpl; [tauto|]. rewrite IH. tauto.
Qed.

Lemma escapeChar_markup_free c x :
  has x (escapeChar c) → x ≠ "<"%char ∧ x ≠ ">"%char ∧ x ≠ quote.
Proof.
  unfold escapeChar, has.
  destruct (Ascii.eqb_spec c "&") as [-> | H1];
    [simpl; intros H; repeat (destruct H as [<- | H]; [by repeat split|]); done|].
  destruct (Ascii.eqb_spec c "<") as [-> | H2];
    [simpl; intros H; repeat (destruct H as [<- | H]; [by repeat split|]); done|].
  destruct (Ascii.eqb_spec c ">") as [-> | H3];
    [simpl; intros H; repeat (destruct H as [<- | H]; [by repeat split|]); done|].
  destruct (Ascii.eqb_spec c quote) as [-> | H4];
    [simpl; intros H; repeat (destruct H as [<- | H]; [by repeat split|]); done|].
  simpl. intros [<- | []]. done.
Qed.

(** X18. The four replacements of [xmlEscape] work as one pass: every
    byte of the input is replaced by its own entity, so an ampersand that
    an earlier replacement wrote is never escaped again; and the result
    holds no [<], no [>] and no double quote. *)
Theorem xmlEscape_spec (s : string) :
  xmlEscape s = escape_each s
  ∧ ∀ x, has x (xmlEscape s) → x ≠ "<"%char ∧ x ≠ ">"%char ∧ x ≠ quote.
Proof.
  split; [apply xmlEscape_each|]. rewrite xmlEscape_each.
  induction s as [| c s IH]; simpl; [intros x []|].
  intros x [H | H]%has_append; [by eapply escapeChar_markup_free | by apply IH].
Qed.

Lemma xmlEscape_spec_witness :
  has "&"%char (xmlEscape "a<b & c") ∧ "&"%char ≠ "<"%char.
Proof.
  assert (has "&"%char (xmlEscape "a<b & c")) as H by (vm_compute; tauto).
  split; [exact H|]. exact (proj1 (proj2 (xmlEscape_spec "a<b & c") _ H)).
Defined.

Lemma escape_each_cons_inj c c' r r' :
  escape_each (String c r) = escape_each (String c' r') →
  c = c' ∧ escape_each r = escape_each r'.
Proof.
  simpl. unfold escapeChar.
  destruct (Ascii.eqb_spec c "&") as [-> | H1]; [|
  destruct (Ascii.eqb_spec c "<") as [-> | H2]; [|
  destruct (Ascii.eqb_spec c ">") as [-> | H3]; [|
  destruct (Ascii.eqb_spec c quote) as [-> | H4]]]];
  (destruct (Ascii.eqb_spec c' "&") as [-> | H1']; [|
   destruct (Ascii.eqb_spec c' "<") as [-> | H2']; [|
   destruct (Ascii.eqb_spec c' ">") as [-> | H3']; [|
   destruct (Ascii.eqb_spec c' quote) as [-> | H4']]]]);
  simpl; intros H; try discriminate H; try (injection H; intros; subst; done).
Qed.

(** X19. Escaping loses nothing: two different strings never have the
    same escaped text. *)
Theorem xmlEscape_inj (a b : string) : xmlEscape a = xmlEscape b → a = b.
Proof.
  rewrite !xmlEscape_each. revert b.
  induction a as [| c a IH]; intros [| c' b] H.
  - done.
  - exfalso. simpl in H. unfold escapeChar in H.
    destruct (Ascii.eqb c' "&"); [discriminate|]. destruct (Ascii.eqb c' "<"); [discriminate|].
    destruct (Ascii.eqb c' ">"); [discriminate|]. destruct (Ascii.eqb c' quote); discriminate.
  - exfalso. simpl in H. unfold escapeChar in H.
    destruct (Ascii.eqb c "&"); [discriminate|]. destruct (Ascii.eqb c "<"); [discriminate|].
    destruct (Ascii.eqb c ">"); [discriminate|]. destruct (Ascii.eqb c quote); discriminate.
  - apply escape_each_cons_inj in H as [-> H]. f_equal. by apply IH.
Qed.

Lemma xmlEscape_inj_witness :
  xmlEscape "a&b" = xmlEscape "a&b" ∧ "a&b"%string = "a&b"%string.
Proof. split; [reflexivity|]. apply xmlEscape_inj. reflexivity. Defined.

(** *** [path.Base] and the base name of a file *)

Lemma list_ascii_app a b :
  String.list_ascii_of_string (String.append a b)
  = String.list_ascii_of_string a ++ String.list_ascii_of_string b.
Proof.
  induction a as [| x a IH]; [reflexivity|]. rewrite append_cons. simpl. by rewrite IH.
Qed.

Lemma list_ascii_nil s : String.list_ascii_of_string s = [] → s = EmptyString.
Proof. by destruct s. Qed.

Lemma ReplaceAll_backslash s :
  String.list_ascii_of_string (ReplaceAll s "\"%char "/")
  = List.map (λ c, if Ascii.eqb c "\"%char then "/"%char else c)
      (String.list_ascii_of_string s).
Proof.
  induction s as [| c s IH]; [done|].
  cbn [ReplaceAll String.list_ascii_of_string List.map].
  destruct (Ascii.eqb c "\") eqn:E.
  - change (String.append "/" (ReplaceAll s "\"%char "/"))
      with (String "/"%char (ReplaceAll s "\"%char "/")).
    cbn [String.list_ascii_of_string]. by rewrite IH.
  - cbn [String.list_ascii_of_string]. by rewrite IH.
Qed.

Lemma stripSlashes_In rest c : In c (Path.stripSlashes rest) → In c rest.
Proof.
  induction rest as [| x rest IH]; simpl; [done|].
  destruct (Ascii.eqb x "/"); [by right; apply IH | done].
Qed.

Lemma lastElement_In rest : ∀ tail c,
  In c (Path.lastElement rest tail) → (In c rest ∨ In c tail) ∧ (c = "/"%char → In c tail).
Proof.
  induction rest as [| x rest IH]; intros tail c; simpl; [tauto|].
  destruct (Ascii.eqb_spec x "/") as [-> | Hx]; [tauto|].
  intros [[H | [<- | H]] Hs]%IH; (split; [tauto|]); intros Hc;
    try congruence; destruct (Hs Hc) as [Heq | ?]; [congruence | done].
Qed.

Lemma lastElement_name l : ∀ rest tail,
  ¬ In "/"%char l → Path.lastElement (l ++ "/"%char :: rest) tail = rev l ++ tail.
Proof.
  induction l as [| x l IH]; intros rest tail Hl; simpl; [done|].
  destruct (Ascii.eqb_spec x "/") as [-> | Hx]; [destruct Hl; by left|].
  rewrite IH by (intros H; apply Hl; by right). by rewrite <- app_assoc.
Qed.

Lemma lastElement_whole l : ∀ tail,
  ¬ In "/"%char l → Path.lastElement l tail = rev l ++ tail.
Proof.
  induction l as [| x l IH]; intros tail Hl; simpl; [done|].
  destruct (Ascii.eqb_spec x "/") as [-> | Hx]; [destruct Hl; by left|].
  rewrite IH by (intros H; apply Hl; by right). by rewrite <- app_assoc.
Qed.

Lemma has_string_of_list c l : has c (String.string_of_list_ascii l) ↔ In c l.
Proof. unfold has. by rewrite String.list_ascii_of_string_of_list_ascii. Qed.

Lemma Base_clean p :
  Path.Base p ≠ EmptyString
  ∧ (Path.Base p = "/"%string
     ∨ Path.Base p = "."%string ∧ p = EmptyString
     ∨ ¬ has "/"%char (Path.Base p) ∧ ∀ c, has c (Path.Base p) → has c p).
Proof.
  unfold Path.Base. destruct (String.eqb_spec p "") as [-> | Hp]; [split; [done | tauto]|].
  destruct (Path.lastElement _ _) as [| x l] eqn:E; [split; [done | tauto]|].
  split; [done|]. right. right.
  assert (∀ c, In c (x :: l) → In c (String.list_ascii_of_string p) ∧ c ≠ "/"%char) as H.
  { intros c Hc. rewrite <- E in Hc. apply lastElement_In in Hc as [[Hc | []] Hs].
    split; [|intros ->; by destruct Hs].
    apply stripSlashes_In in Hc. by apply in_rev in Hc. }
  split.
  - intros Hs. apply (proj1 (has_string_of_list _ _)) in Hs. by destruct (H _ Hs).
  - intros c Hc. apply (proj1 (has_string_of_list _ _)) in Hc. by destruct (H _ Hc).
Qed.

Lemma map_backslash_In c l :
  In c (List.map (λ c, if Ascii.eqb c "\"%char then "/"%char else c) l) →
  c ≠ "\"%char.
Proof.
  intros (x & Hx & _)%in_map_iff. destruct (Ascii.eqb_spec x "\"); subst; [done|].
  done.
Qed.

(** X20. The title and file name the facades derive from a Soulseek
    path name only ever is a last path element: the base name is never
    empty, and unless it is the lone slash (a path of separators only)
    or the dot (the empty path) it contains no slash and no backslash. *)
Theorem basename_clean (filename : string) :
  basename filename ≠ EmptyString
  ∧ (basename filename = "/"%string
     ∨ basename filename = "."%string ∧ filename = EmptyString
     ∨ no_separator (basename filename)).
Proof.
  unfold basename. destruct (Base_clean (ReplaceAll filename "\"%char "/")) as [Hne Hc].
  split; [exact Hne|]. destruct Hc as [H | [[H Hp] | [Hs Hsub]]]; [tauto | |].
  - right. left. split; [done|]. destruct filename as [| c r]; [done|].
    simpl in Hp. by destruct (Ascii.eqb c "\").
  - right. right. split; [done|]. intros Hb%Hsub. unfold has in Hb.
    rewrite ReplaceAll_backslash in Hb. by apply map_backslash_In in Hb.
Qed.

Lemma map_backslash_id l :
  ¬ In "\"%char l →
  List.map (λ c, if Ascii.eqb c "\"%char then "/"%char else c) l = l.
Proof.
  induction l as [| x l IH]; intros Hl; simpl; [done|].
  destruct (Ascii.eqb_spec x "\") as [-> | Hx]; [destruct Hl; by left|].
  f_equal. apply IH. intros H. apply Hl. by right.
Qed.

Lemma Base_last dir name :
  name ≠ EmptyString → ¬ has "/"%char name →
  Path.Base (String.append dir (String "/" name)) = name.
Proof.
  intros Hne Hs. unfold Path.Base.
  destruct (String.eqb_spec (String.append dir (String "/" name)) "") as [E | _].
  { destruct dir; discriminate. }
  rewrite list_ascii_app. cbn [String.list_ascii_of_string].
  rewrite rev_app_distr. cbn [rev]. rewrite <- app_assoc. cbn [app].
  set (l := rev (String.list_ascii_of_string name)).
  assert (¬ In "/"%char l) as Hl by (subst l; intros H; by apply in_rev in H).
  assert (l ≠ []) as Hl0.
  { subst l. intros H. apply (f_equal (@rev _)) in H. rewrite rev_involutive in H.
    by apply list_ascii_nil in H. }
  assert (Path.stripSlashes (l ++ "/"%char :: rev (String.list_ascii_of_string dir))
          = l ++ "/"%char :: rev (String.list_ascii_of_string dir)) as ->.
  { destruct l as [| y t]; [done|]. simpl.
    destruct (Ascii.eqb_spec y "/") as [-> | _]; [|done]. destruct Hl. by left. }
  rewrite lastElement_name by done. rewrite app_nil_r. subst l.
  rewrite rev_involutive. destruct (String.list_ascii_of_string name) as [| c t] eqn:E.
  - by apply list_ascii_nil in E.
  - rewrite <- E. apply String.string_of_list_ascii_of_string.
Qed.

(** X21. The base name of a Soulseek path is its file name: for a name
    that is not empty and holds no separator, the base name of the name
    behind any directory part and a backslash, or a slash, is the name
    itself. *)
Theorem basename_last (dir name : string) :
  name ≠ EmptyString → no_separator name →
  basename (String.append dir (String "\" name)) = name
  ∧ basename (String.append dir (String "/" name)) = name.
Proof.
  intros Hne [Hs Hb]. unfold basename.
  assert (ReplaceAll name "\"%char "/" = name) as Hname.
  { rewrite <- (String.string_of_list_ascii_of_string (ReplaceAll _ _ _)),
      ReplaceAll_backslash, map_backslash_id by done.
    apply String.string_of_list_ascii_of_string. }
  rewrite !ReplaceAll_app. simpl. rewrite Hname. split; by apply Base_last.
Qed.

Lemma basename_last_witness :
  basename "C:\Music\movie.mkv" = "movie.mkv"%string.
Proof.
  assert ("movie.mkv"%string ≠ EmptyString) as Hne by discriminate.
  assert (no_separator "movie.mkv") as Hs.
  { split; intros H; vm_compute in H; decompose [or] H; discriminate || done. }
  exact (proj1 (basename_last "C:\Music" "movie.mkv" Hne Hs)).
Defined.

(** *** [firstCategory] *)

Lemma Index_range s sep : -1 <= Index s sep.
Proof.
  induction s as [| c s IH]; simpl; [lia|].
  destruct (Ascii.eqb c sep); [lia|]. destruct (Index s sep <? 0) eqn:E; lia.
Qed.

Lemma Index_absent s sep : Index s sep = -1 → ¬ has sep s.
Proof.
  unfold has. induction s as [| c s IH]; simpl; [tauto|].
  destruct (Ascii.eqb_spec c sep) as [-> | Hc]; [discriminate|].
  pose proof (Index_range s sep). destruct (Index s sep <? 0) eqn:E; [|lia].
  intros _ [Hin | Hin]; [done|]. apply IH; [lia | done].
Qed.

Lemma Index_found s sep :
  0 <= Index s sep →
  ¬ has sep (slice_to (Z.to_nat (Index s sep)) s)
  ∧ ∃ rest, s = String.append (slice_to (Z.to_nat (Index s sep)) s) (String sep rest).
Proof.
  unfold has. induction s as [| c s IH]; simpl; [lia|].
  destruct (Ascii.eqb_spec c sep) as [-> | Hc].
  - intros _. simpl. split; [tauto|]. by exists s.
  - pose proof (Index_range s sep). destruct (Index s sep <? 0) eqn:E; [lia|].
    intros _. destruct IH as [Hno [rest Hrest]]; [lia|].
    replace (Z.to_nat (Index s sep + 1)) with (S (Z.to_nat (Index s sep))) by lia.
    simpl. split; [intros [Hin | Hin]; [done | by apply Hno]|].
    exists rest. rewrite append_cons. by rewrite <- Hrest.
Qed.

(** X22. The category of the connectivity test item is never empty: it
    is [2000] when the request names no category, and otherwise a prefix
    of the request's list that is not empty, which holds no comma unless
    the list itself starts with one, in which case it is the whole
    list. *)
Theorem firstCategory_spec (cats : string) :
  firstCategory cats ≠ EmptyString
  ∧ (cats = EmptyString → firstCategory cats = "2000"%string)
  ∧ (cats ≠ EmptyString → ∃ rest, cats = String.append (firstCategory cats) rest)
  ∧ (has ","%char (firstCategory cats) →
       firstCategory cats = cats ∧ ∃ rest, cats = String ","%char rest).
Proof.
  unfold firstCategory. destruct (String.eqb_spec cats "") as [-> | Hne].
  { split; [done|]. split; [done|]. split; [done|]. unfold has. simpl.
    intros H. decompose [or] H; discriminate || done. }
  pose proof (Index_range cats ","). 
  destruct (0 <? Index cats ",") eqn:E.
  - destruct (Index_found cats ",") as [Hno [rest Hrest]]; [lia|].
    split; [|split; [done|split]].
    + destruct cats as [| c r]; [done|].
      replace (Z.to_nat (Index (String c r) ",")) with (S (Z.to_nat (Index (String c r) ",") - 1))
        by lia. done.
    + intros _. eauto.
    + intros Hc. by destruct Hno.
  - split; [done|]. split; [done|]. split; [intros _; exists EmptyString|].
    + clear. induction cats as [| c r IH]; [done|]. rewrite append_cons. by rewrite <- IH.
    + intros Hc. split; [done|].
      assert (Index cats "," = 0 ∨ Index cats "," = -1) as [H0 | H1] by lia.
      * destruct cats as [| c r]; [done|]. simpl in H0.
        destruct (Ascii.eqb_spec c ",") as [-> | _]; [by exists r|].
        pose proof (Index_range r ","). destruct (Index r "," <? 0) eqn:E2; lia.
      * by apply Index_absent in H1.
Qed.

Lemma firstCategory_spec_witness :
  firstCategory "5000,5030" = "5000"%string
  ∧ ∃ rest, "5000,5030"%string = String.append (firstCategory "5000,5030") rest.
Proof.
  split; [reflexivity|].
  apply (proj1 (proj2 (proj2 (firstCategory_spec "5000,5030")))). discriminate.
Defined.

End Text.

(** ** Transfer states *)

Section TransferStates.

Import Store Sabnzbd SyncSpec SlskdSearch.

Lemma slice_prefix p : ∀ s,
  String.eqb (Strings1.slice_to (String.length p) s) p = Strings.HasPrefix s p.
Proof.
  induction p as [| c p IH]; intros [| d r]; simpl; try done.
  rewrite IH, (Ascii.eqb_sym d c). by destruct (Ascii.eqb c d).
Qed.

Lemma HasPrefix_length s p :
  Strings.HasPrefix s p = true → (String.length p <= String.length s)%nat.
Proof.
  revert s. induction p as [| c p IH]; intros [| d r]; simpl; try done; [lia|].
  intros [_ H]%andb_true_iff. apply IH in H. lia.
Qed.

Lemma Completed_prefix state :
  (9 <=? Z.of_nat (String.length state))
  && String.eqb (Strings1.slice_to 9 state) "Completed"
  = Strings.HasPrefix state "Completed".
Proof.
  pose proof (slice_prefix "Completed" state) as Hs.
  change (String.length "Completed") with 9%nat in Hs. rewrite Hs.
  destruct (Strings.HasPrefix state "Completed") eqn:E; [|by rewrite andb_false_r].
  apply HasPrefix_length in E. simpl in E. rewrite andb_true_r. lia.
Qed.

Lemma HasPrefix_Contains s p : Strings.HasPrefix s p = true → Strings.Contains s p = true.
Proof. intros H. rewrite Contains_unfold, H. done. Qed.

Lemma MapTransferState_closed state :
  (MapTransferState state = "completed"%string ↔ state = "Completed, Succeeded"%string)
  ∧ (MapTransferState state = "downloading"%string ↔ state = "InProgress"%string)
  ∧ (MapTransferState state = "failed"%string
     ↔ Strings.HasPrefix state "Completed" = true ∧ state ≠ "Completed, Succeeded"%string)
  ∧ (MapTransferState state = "queued"%string
     ↔ Strings.HasPrefix state "Completed" = false ∧ state ≠ "InProgress"%string).
Proof.
  unfold MapTransferState. rewrite Completed_prefix.
  repeat match goal with
  | |- context [String.eqb state ?x] =>
      destruct (String.eqb_spec state x) as [-> | ?];
        [vm_compute; intuition (discriminate || congruence)|]
  end.
  simpl. destruct (Strings.HasPrefix state "Completed");
    intuition (discriminate || congruence).
Qed.

(** X23. [MapTransferState] in closed form, and against the reconciler.
    The answer is [completed] exactly for the state [Completed,
    Succeeded], [downloading] exactly for [InProgress], [failed] exactly
    for every other state that starts with [Completed], and [queued] for
    all the rest. The status the reconciler derives from the same state
    is never behind: Completed where the answer is [completed],
    Downloading where it is [downloading], and Failed or Completed where
    it is [failed]. *)
Theorem MapTransferState_spec (state : string) :
  (MapTransferState state = "completed"%string ↔ state = "Completed, Succeeded"%string)
  ∧ (MapTransferState state = "downloading"%string ↔ state = "InProgress"%string)
  ∧ (MapTransferState state = "failed"%string
     ↔ Strings.HasPrefix state "Completed" = true ∧ state ≠ "Completed, Succeeded"%string)
  ∧ (MapTransferState state = "queued"%string
     ↔ Strings.HasPrefix state "Completed" = false ∧ state ≠ "InProgress"%string)
  ∧ (MapTransferState state = "completed"%string → newStatus state = StatusCompleted)
  ∧ (MapTransferState state = "downloading"%string → newStatus state = StatusDownloading)
  ∧ (MapTransferState state = "failed"%string →
       newStatus state = StatusFailed ∨ newStatus state = StatusCompleted).
Proof.
  destruct (MapTransferState_closed state) as (H1 & H2 & H3 & H4).
  split; [exact H1|]. split; [exact H2|]. split; [exact H3|]. split; [exact H4|].
  split; [|split].
  - intros ->%H1. reflexivity.
  - intros ->%H2. reflexivity.
  - intros [Hp%HasPrefix_Contains _]%H3. unfold newStatus. rewrite Hp.
    destruct (Strings.Contains state "Succeeded"); simpl; tauto.
Qed.

Lemma MapTransferState_spec_witness :
  MapTransferState "Completed, Aborted" = "failed"%string
  ∧ (newStatus "Completed, Aborted" = StatusFailed
     ∨ newStatus "Completed, Aborted" = StatusCompleted).
Proof.
  destruct (MapTransferState_spec "Completed, Aborted") as (_ & _ & H3 & _ & _ & _ & H7).
  assert (MapTransferState "Completed, Aborted" = "failed"%string) as H.
  { apply H3. split; [reflexivity | discriminate]. }
  split; [exact H | exact (H7 H)].
Defined.

End TransferStates.

(** ** The items of a search *)

Section SearchItems.

Import Stdlib.Strings.Ascii.
Import SlskdSearch NewznabApi TextLaws TokenSpec.

Variable mapToLower : string → string.

Lemma extLoop_suffix rest : ∀ tail,
  ∃ pre, rev rest ++ tail = pre ++ Path.extLoop rest tail.
Proof.
  induction rest as [| c rest IH]; intros tail; simpl.
  - exists tail. by rewrite app_nil_r.
  - destruct (Ascii.eqb c "/").
    { exists ((rev rest ++ [c]) ++ tail). symmetry. apply app_nil_r. }
    destruct (Ascii.eqb c ".").
    + exists (rev rest). by rewrite <- app_assoc.
    + destruct (IH (c :: tail)) as [pre Hpre]. exists pre. by rewrite <- app_assoc.
Qed.

Lemma Ext_suffix path : ∃ stem, path = String.append stem (Path.Ext path).
Proof.
  unfold Path.Ext.
  destruct (extLoop_suffix (rev (String.list_ascii_of_string path)) []) as [pre Hpre].
  rewrite rev_involutive, app_nil_r in Hpre.
  revert Hpre. generalize (Path.extLoop (rev (String.list_ascii_of_string path)) []).
  intros e Hpre. exists (String.string_of_list_ascii pre).
  rewrite <- (String.string_of_list_ascii_of_string path), Hpre.
  clear. induction pre as [| c pre IH]; [reflexivity|].
  cbn [app String.string_of_list_ascii]. rewrite append_cons. by rewrite IH.
Qed.

Lemma collectItems_elem action responses item :
  item ∈ collectItems mapToLower action responses ↔
  ∃ resp f, resp ∈ responses ∧ f ∈ files_of_response resp
    ∧ itemOf mapToLower action (SlskdSearch.Username resp) f = Some item.
Proof.
  unfold collectItems. rewrite list_elem_of_In, in_flat_map. split.
  - intros (resp & Hresp & Hitem). apply list_elem_of_In, list_elem_of_omap in Hitem.
    destruct Hitem as (f & Hf & Hitem). exists resp, f. by rewrite list_elem_of_In.
  - intros (resp & f & Hresp & Hf & Hitem). exists resp. rewrite <- !list_elem_of_In.
    split; [done|]. apply list_elem_of_omap. eauto.
Qed.

(** X24. Every item of a search stands for a file the backend listed: it
    carries the user name of a response and the size of one of that
    response's files, locked or not, its title is the base name of that
    file, and, for names of well-formed UTF-8, its token decodes to that
    user, that file name and that size. *)
Theorem search_item_token (action : string) (responses : list SearchResponse)
    (item : searchItem) :
  item ∈ collectItems mapToLower action responses →
  ∃ resp f, resp ∈ responses ∧ f ∈ files_of_response resp
    ∧ NewznabApi.Username item = SlskdSearch.Username resp
    ∧ NewznabApi.Size item = SlskdSearch.Size f
    ∧ Title item = basename (SlskdSearch.Filename f)
    ∧ (valid_utf8 (SlskdSearch.Username resp) → valid_utf8 (SlskdSearch.Filename f) →
       int64_range (SlskdSearch.Size f) →
       Newznab.DecodeToken (Token item)
       = inl (Newznab.mkFileToken (SlskdSearch.Username resp) (SlskdSearch.Filename f)
                (SlskdSearch.Size f))).
Proof.
  intros (resp & f & Hresp & Hf & Hitem)%collectItems_elem. exists resp, f.
  split; [done|]. split; [done|]. unfold itemOf in Hitem.
  destruct (_ && _ && _); [discriminate|]. destruct (_ && _); [discriminate|].
  destruct (_ && _); [discriminate|]. injection Hitem as <-. simpl.
  repeat split. intros Hu Hn Hs. unfold Newznab.DecodeToken, Newznab.EncodeToken.
  rewrite DecodeString_EncodeToString. by rewrite unmarshal_marshal.
Qed.

(** X25. What a search never lists. The file behind an item has a name
    that ends in its extension, and the extension in lower case is one
    of the known ones; no item is smaller than one mebibyte, and an item
    of the categories 2000 and 5000 is not smaller than fifty. The
    category is one of 2000, 3000, 3030 and 5000; it is 3030 for every
    item of a book search and 3000 for every item of a music search. *)
Theorem search_item_rules (action : string) (responses : list SearchResponse)
    (item : searchItem) :
  item ∈ collectItems mapToLower action responses →
  (∃ resp f stem, resp ∈ responses ∧ f ∈ files_of_response resp
     ∧ NewznabApi.Size item = SlskdSearch.Size f
     ∧ SlskdSearch.Filename f = String.append stem (Path.Ext (SlskdSearch.Filename f))
     ∧ known_extension (Strings1.ToLower mapToLower (Path.Ext (SlskdSearch.Filename f)))
       = true)
  ∧ 1048576 <= NewznabApi.Size item
  ∧ (Category item = "2000"%string ∨ Category item = "3000"%string
     ∨ Category item = "3030"%string ∨ Category item = "5000"%string)
  ∧ (Category item = "2000"%string ∨ Category item = "5000"%string →
     52428800 <= NewznabApi.Size item)
  ∧ (action = "book"%string → Category item = "3030"%string)
  ∧ (action = "music"%string → Category item = "3000"%string).
Proof.
  intros (resp & f & Hresp & Hf & Hitem)%collectItems_elem.
  unfold itemOf in Hitem. unfold known_extension.
  set (ext := Strings1.ToLower mapToLower (Path.Ext (SlskdSearch.Filename f))) in *.
  unfold minVideoFileSize, minAudioFileSize in Hitem.
  destruct (Ext_suffix (SlskdSearch.Filename f)) as [stem Hstem].
  destruct (videoExtensions ext) eqn:Ev, (audioExtensions ext) eqn:Ea,
    (audiobookExtensions ext) eqn:Eb; simpl in Hitem; try discriminate;
    repeat match type of Hitem with
    | context [?a <? ?b] => destruct (a <? b) eqn:?; simpl in Hitem
    end; try discriminate;
    destruct (String.eqb_spec action "book") as [-> | Hbook]; simpl in Hitem;
    try (destruct (String.eqb_spec action "music") as [-> | Hmusic]; simpl in Hitem);
    try (destruct (String.eqb_spec action "tvsearch") as [-> | Htv]; simpl in Hitem);
    injection Hitem as <-; simpl.
    all: (split; [exists resp, f, stem; repeat split; try done;
                  fold ext; by rewrite Ev, Ea, Eb|]).
    all:
    (split; [lia|]); (split; [tauto|]);
    (split; [intros [? | ?]; (discriminate || lia)|]);
    split; intros ?; (discriminate || congruence || done).
Qed.

Lemma countFiles_from responses : ∀ n,
  0 <= n →
  n + Z.of_nat (length (flat_map files_of_response responses)) < 2^63 →
  fold_left (fun n r => wrap64 (n + wrap64 (Z.of_nat (length (Files r))
                                             + Z.of_nat (length (LockedFiles r)))))
    responses n
  = n + Z.of_nat (length (flat_map files_of_response responses)).
Proof.
  induction responses as [| r responses IH]; intros n Hn Hlt;
    cbn [fold_left flat_map] in *; [cbn [length]; lia|].
  rewrite length_app in Hlt |- *.
  change (length (files_of_response r)) with (length (Files r ++ LockedFiles r)) in Hlt |- *.
  rewrite length_app in Hlt |- *.
  rewrite (wrap64_id (Z.of_nat _ + Z.of_nat _)) by (unfold int64_range; lia).
  rewrite wrap64_id by (unfold int64_range; lia).
  rewrite IH by lia. lia.
Qed.

Lemma length_omap_le {A B} (f : A → option B) (l : list A) :
  (length (omap f l) <= length l)%nat.
Proof.
  induction l as [| x l IH]; [done|]. cbn [omap list_omap length].
  fold (omap f l). destruct (f x); cbn [length]; lia.
Qed.

Lemma collectItems_length action responses :
  (length (collectItems mapToLower action responses)
   <= length (flat_map files_of_response responses))%nat.
Proof.
  unfold collectItems. induction responses as [| r responses IH]; simpl; [lia|].
  rewrite !length_app. pose proof (length_omap_le (itemOf mapToLower action
    (SlskdSearch.Username r)) (Files r ++ LockedFiles r)) as H.
  unfold files_of_response at 1. lia.
Qed.

(** X26. The number of files that is logged for a search counts every
    file of every response, locked or not, and bounds the number of
    items: as long as the files are fewer than 2^63, [countFiles] is
    their number, and a search lists at most that many items. *)
Theorem countFiles_bounds_items (action : string) (responses : list SearchResponse) :
  Z.of_nat (length (flat_map files_of_response responses)) < 2^63 →
  countFiles responses = Z.of_nat (length (flat_map files_of_response responses))
  ∧ Z.of_nat (length (collectItems mapToLower action responses)) <= countFiles responses.
Proof.
  intros Hlt. unfold countFiles. rewrite countFiles_from by lia.
  split; [lia|]. pose proof (collectItems_length action responses). lia.
Qed.

End SearchItems.

Lemma search_item_token_witness :
  let item := NewznabApi.mkSearchItem "movie.mkv"
                (Newznab.EncodeToken "u1" "C:\Music\movie.mkv" 60000000) 60000000 "2000" "u1" in
  ∃ resp f,
    resp ∈ [SlskdSearch.mkSearchResponse "u1"
              [SlskdSearch.mkSlskdFile "C:\Music\movie.mkv" 60000000] []]
    ∧ f ∈ TextLaws.files_of_response resp
    ∧ NewznabApi.Username item = SlskdSearch.Username resp
    ∧ NewznabApi.Size item = SlskdSearch.Size f
    ∧ NewznabApi.Title item = NewznabApi.basename (SlskdSearch.Filename f)
    ∧ (TokenSpec.valid_utf8 (SlskdSearch.Username resp) →
       TokenSpec.valid_utf8 (SlskdSearch.Filename f) →
       int64_range (SlskdSearch.Size f) →
       Newznab.DecodeToken (NewznabApi.Token item)
       = inl (Newznab.mkFileToken (SlskdSearch.Username resp) (SlskdSearch.Filename f)
                (SlskdSearch.Size f))).
Proof.
  apply (search_item_token (λ s, s) "movie"). vm_compute. left.
Defined.

Lemma search_item_rules_witness :
  let item := NewznabApi.mkSearchItem "movie.mkv"
                (Newznab.EncodeToken "u1" "C:\Music\movie.mkv" 60000000) 60000000 "2000" "u1" in
  1048576 <= NewznabApi.Size item
  ∧ (NewznabApi.Category item = "2000"%string ∨ NewznabApi.Category item = "5000"%string →
     52428800 <= NewznabApi.Size item).
Proof.
  assert (NewznabApi.mkSearchItem "movie.mkv"
            (Newznab.EncodeToken "u1" "C:\Music\movie.mkv" 60000000) 60000000 "2000" "u1"
          ∈ NewznabApi.collectItems (λ s, s) "movie"
              [SlskdSearch.mkSearchResponse "u1"
                 [SlskdSearch.mkSlskdFile "C:\Music\movie.mkv" 60000000] []]) as Hin
    by (vm_compute; left).
  destruct (search_item_rules (λ s, s) "movie" _ _ Hin) as (_ & H1 & _ & H2 & _).
  split; [exact H1 | exact H2].
Defined.

Lemma countFiles_bounds_items_witness :
  SlskdSearch.countFiles
    [SlskdSearch.mkSearchResponse "u1" [SlskdSearch.mkSlskdFile "a.mkv" 1]
       [SlskdSearch.mkSlskdFile "b.mp3" 2]] = 2.
Proof.
  apply (countFiles_bounds_items (λ s, s) "search"
           [SlskdSearch.mkSearchResponse "u1" [SlskdSearch.mkSlskdFile "a.mkv" 1]
              [SlskdSearch.mkSlskdFile "b.mp3" 2]]).
  simpl. lia.
Defined.

(** ** The token: its alphabet, its exactness and what decoding returns *)

Section TokenProperties.

Import Base64 Json Newznab TokenSpec TokenLaws.

(** *** The alphabet *)

Lemma url_safe_encode v : 0 <= v < 64 → url_safe (encode v) = true.
Proof.
  revert v. apply below_64. intros n Hn.
  do 64 (destruct n as [|n]; [reflexivity|]). lia.
Qed.

Lemma url_safe_sextet val shift : 0 <= shift → url_safe (sextet val shift) = true.
Proof. intros H. apply url_safe_encode. by apply digit6_range. Qed.

Lemma Encode_shape n : ∀ src, (length src <= n)%nat →
  Forall (λ c, url_safe c = true) (Encode src)
  ∧ length (Encode src) = (4 * ((length src + 2) / 3))%nat.
Proof.
  induction n as [| n IH]; intros src Hn.
  - destruct src; [split; [constructor | reflexivity] | simpl in Hn; lia].
  - destruct src as [| b0 [| b1 [| b2 rest]]].
    + split; [constructor | reflexivity].
    + split; [|reflexivity]. cbn [Encode].
      repeat (constructor; [first [apply url_safe_sextet; lia | reflexivity]|]). constructor.
    + split; [|reflexivity]. cbn [Encode].
      repeat (constructor; [first [apply url_safe_sextet; lia | reflexivity]|]). constructor.
    + destruct (IH rest) as [Hall Hlen]; [simpl in Hn; lia|]. cbn [Encode]. split.
      * repeat (constructor; [apply url_safe_sextet; lia|]). exact Hall.
      * cbn [length]. rewrite Hlen.
        replace (S (S (S (length rest))) + 2)%nat with (length rest + 2 + 1 * 3)%nat by lia.
        rewrite Nat.div_add by lia. lia.
Qed.

Lemma marshal_nonempty t : marshal t ≠ [].
Proof. done. Qed.

(** X27. A token can go into a link as it is: every byte of the result
    of [EncodeToken] is a letter, a digit, [-], [_] or [=], the token is
    not empty and its length is a multiple of four. *)
Theorem EncodeToken_url_safe (username filename : string) (size : Z) :
  let token := String.list_byte_of_string (EncodeToken username filename size) in
  Forall (λ c, url_safe c = true) token
  ∧ token ≠ []
  ∧ (length token mod 4 = 0)%nat.
Proof.
  cbv zeta. unfold EncodeToken, EncodeToString.
  rewrite String.list_byte_of_string_of_list_byte.
  set (src := marshal _).
  destruct (Encode_shape (length src) src (Nat.le_refl _)) as [Hall Hlen].
  split; [exact Hall|]. split.
  - intros H. rewrite H in Hlen. cbn [length] in Hlen.
    assert (0 < (length src + 2) / 3)%nat as Hq; [|lia].
    apply Nat.div_str_pos. subst src. unfold marshal. cbn [length app]. lia.
  - rewrite Hlen, Nat.mul_comm. apply Nat.Div0.mod_mul.
Qed.

(** X28. Tokens are exact: two triples of a user name and a file name of
    well-formed UTF-8 and an [int64] size that have the same token are
    the same triple. *)
Theorem EncodeToken_inj (u f u' f' : string) (s s' : Z) :
  valid_utf8 u → valid_utf8 f → int64_range s →
  valid_utf8 u' → valid_utf8 f' → int64_range s' →
  EncodeToken u f s = EncodeToken u' f' s' →
  u = u' ∧ f = f' ∧ s = s'.
Proof.
  intros Hu Hf Hs Hu' Hf' Hs' H. apply (f_equal DecodeToken) in H. revert H.
  unfold DecodeToken, EncodeToken.
  rewrite !DecodeString_EncodeToString, !unmarshal_marshal by done.
  by intros [= -> -> ->].
Qed.

Ltac ascii_valid :=
  unfold valid_utf8; cbn; repeat (apply wf_one; [cbn; lia|]); apply wf_nil.

Lemma EncodeToken_inj_witness :
  "u1"%string = "u1"%string ∧ "dir/file.mkv"%string = "dir/file.mkv"%string ∧ 1000 = 1000.
Proof.
  assert (valid_utf8 "u1") as Hu by ascii_valid.
  assert (valid_utf8 "dir/file.mkv") as Hf by ascii_valid.
  assert (int64_range 1000) as Hs by (unfold int64_range; lia).
  exact (EncodeToken_inj "u1" "dir/file.mkv" "u1" "dir/file.mkv" 1000 1000
           Hu Hf Hs Hu Hf Hs eq_refl).
Defined.

(** *** What decoding returns *)

Lemma well_formed_app a b : well_formed a → well_formed b → well_formed (a ++ b).
Proof.
  induction 1 as [| ? ? ? _ IH | ? ? ? ? ? _ IH | ? ? ? ? ? ? _ IH | ? ? ? ? ? ? ? ? _ IH];
    intros Hb; simpl.
  - done.
  - apply wf_one; [done | by apply IH].
  - apply wf_two; [done | done | by apply IH].
  - apply wf_three; [done | done | by apply IH].
  - apply wf_four; [done | done | done | by apply IH].
Qed.

Ltac bytes_arith :=
  rewrite ?b2z_z2b_mod, ?land_63;
  rewrite ?Z.shiftr_div_pow2 by lia;
  rewrite ?lor_C0, ?lor_E0, ?lor_F0, ?lor_80 by arith.

Lemma EncodeRune_wf r : well_formed (Utf8.EncodeRune r).
Proof.
  unfold Utf8.EncodeRune, Utf8.MaxRune, Utf8.surrogateMin, Utf8.surrogateMax.
  pose proof (Z.mod_pos_bound r (2^32)) as Hi.
  remember (r mod 2^32) as i eqn:Ei.
  destruct (i <=? 0x7F) eqn:E1.
  { apply wf_one; [|apply wf_nil]. rewrite b2z_z2b_mod. arith. }
  destruct (i <=? 0x7FF) eqn:E2.
  { apply wf_two; [| |apply wf_nil]; unfold cont; bytes_arith; arith. }
  destruct (_ || _) eqn:E3.
  { change (Utf8.encode3 Utf8.RuneError) with [xef; xbf; xbd].
    apply wf_three; [| |apply wf_nil]; unfold lead3, cont; cbn; lia. }
  destruct (i <=? 0xFFFF) eqn:E4.
  { unfold Utf8.encode3. apply wf_three; [| |apply wf_nil]; unfold lead3, cont;
      bytes_arith; arith. }
  apply wf_four; [| | |apply wf_nil]; unfold lead4, cont; bytes_arith; arith.
Qed.

Lemma cons_out_inv out k s r :
  cons_out out k = Some (s, r) → ∃ s', k = Some (s', r) ∧ s = out ++ s'.
Proof.
  destruct k as [[s' r']|]; cbn [cons_out]; [|done]. intros [= <- <-]. eauto.
Qed.

Lemma simpleEscape_ascii e b : simpleEscape e = Some b → b2z b <= 0x7F.
Proof.
  unfold simpleEscape. destruct (_ || _) eqn:E.
  { intros [= <-]. rewrite b2z_z2b_mod. arith. }
  repeat match goal with
  | |- context [if ?c then _ else _] => destruct c; [intros [= <-]; cbn; lia|]
  end.
  done.
Qed.

Ltac scanned IH H :=
  apply cons_out_inv in H as (? & H & ->); apply IH in H; [|cbn [length] in *; lia];
  apply well_formed_app; [|exact H].

Lemma scanString_wf_le n : ∀ l s r,
  (length l <= n)%nat → scanString l = Some (s, r) → well_formed s.
Proof.
  induction n as [| n IH]; intros l s r Hn H.
  - destruct l; [discriminate | cbn [length] in Hn; lia].
  - destruct l as [| c rest]; [discriminate|]. cbn [scanString] in H. cbn [length] in *.
    destruct (b2z c =? 0x22).
    { injection H as <- _. apply wf_nil. }
    destruct (b2z c =? 0x5c).
    { destruct rest as [| e rest1]; [discriminate|]. cbn [length] in *.
      destruct (b2z e =? 0x75).
      - destruct rest1 as [| h1 [| h2 [| h3 [| h4 rest5]]]]; try discriminate.
        cbn [length] in *.
        destruct (hex4 h1 h2 h3 h4) as [rr|]; [|discriminate].
        destruct (IsSurrogate rr).
        + destruct (negb _).
          * destruct rest5 as [| ? [| ? [| ? [| ? [| ? [| ? rest11]]]]]]; try discriminate.
            cbn [length] in *. scanned IH H. apply EncodeRune_wf.
          * scanned IH H. apply EncodeRune_wf.
        + scanned IH H. apply EncodeRune_wf.
      - destruct (simpleEscape (b2z e)) as [b|] eqn:Eb; [|discriminate].
        scanned IH H. apply wf_one; [by eapply simpleEscape_ascii | apply wf_nil]. }
    destruct (b2z c <? 0x20); [discriminate|].
    destruct (b2z c <? Utf8.RuneSelf) eqn:Ec.
    { scanned IH H. apply wf_one; [unfold Utf8.RuneSelf in Ec; lia | apply wf_nil]. }
    destruct (Utf8.DecodeRune (c :: rest)) as [rr size].
    destruct size as [| [| [| [| [| size]]]]];
      try (scanned IH H; apply EncodeRune_wf).
    + destruct rest as [| ? r1]; cbn [length] in *; scanned IH H; apply EncodeRune_wf.
    + destruct rest as [| ? [| ? r1]]; cbn [length] in *; scanned IH H; apply EncodeRune_wf.
    + destruct rest as [| ? [| ? [| ? r1]]]; cbn [length] in *; scanned IH H;
        apply EncodeRune_wf.
Qed.

Lemma scanString_wf l s r : scanString l = Some (s, r) → well_formed s.
Proof. by apply (scanString_wf_le (length l)). Qed.

Lemma scanLiteral_ok tail v l v' r :
  scanLiteral tail v l = Some (v', r) → v' = v.
Proof. unfold scanLiteral. destruct (stripPrefix _ l); [|done]. by intros [= <- _]. Qed.

(** The strings of a parsed object's members are well-formed. *)
Lemma parse_values_ok f :
  (∀ d l v r, parseValue f d l = Some (v, r) →
     value_ok v ∧ ∀ ms, v = Object ms → Forall (λ m, value_ok m.2) ms)
  ∧ (∀ d l ms r, parseMembers f d l = Some (ms, r) → Forall (λ m, value_ok m.2) ms).
Proof.
  induction f as [| f (IHv & IHm)].
  - split; intros; discriminate.
  - split.
    + intros d l v r H. cbn [parseValue] in H.
      destruct (skipSpace l) as [| c l1]; [done|].
      destruct (b2z c =? 0x7b).
      { destruct (maxNestingDepth <? d + 1); [done|].
        destruct (skipSpace l1) as [| c' l2]; [done|].
        destruct (b2z c' =? 0x7d).
        - injection H as <- _. split; [done|]. intros ms [= <-]. constructor.
        - destruct (parseMembers f (d + 1) (c' :: l2)) as [[ms r']|] eqn:E; [|done].
          injection H as <- _. split; [done|]. intros ms' [= <-]. by eapply IHm. }
      destruct (b2z c =? 0x5b).
      { destruct (maxNestingDepth <? d + 1); [done|].
        destruct (skipSpace l1) as [| c' l2]; [done|].
        destruct (b2z c' =? 0x5d); [by injection H as <- _|].
        destruct (parseElements f (d + 1) (c' :: l2)) as [[vs r']|]; [|done].
        by injection H as <- _. }
      destruct (b2z c =? 0x22).
      { destruct (scanString l1) as [[s' r']|] eqn:E; [|done].
        injection H as <- _. split; [|done]. simpl. by eapply scanString_wf. }
      destruct (b2z c =? 0x74); [apply scanLiteral_ok in H as ->; done|].
      destruct (b2z c =? 0x66); [apply scanLiteral_ok in H as ->; done|].
      destruct (b2z c =? 0x6e); [apply scanLiteral_ok in H as ->; done|].
      destruct (scanNumber (c :: l1)) as [[lit r']|]; [|done].
      by injection H as <- _.
    + intros d l ms r H. cbn [parseMembers] in H.
      destruct (skipSpace l) as [| c l1]; [done|].
      destruct (negb (b2z c =? 0x22)); [done|].
      destruct (scanString l1) as [[key r1]|]; [|done].
      destruct (skipSpace r1) as [| c1 r2]; [done|].
      destruct (negb (b2z c1 =? 0x3a)); [done|].
      destruct (parseValue f d r2) as [[v r3]|] eqn:Ev; [|done].
      destruct (IHv _ _ _ _ Ev) as [Hv _].
      destruct (skipSpace r3) as [| c3 r4]; [done|].
      destruct (b2z c3 =? 0x2c).
      * destruct (parseMembers f d r4) as [[ms' r5]|] eqn:Em; [|done].
        injection H as <- _. constructor; [done | by eapply IHm].
      * destruct (b2z c3 =? 0x7d); [|done].
        injection H as <- _. by repeat constructor.
Qed.

Lemma ParseInt_range lit n : Strconv.ParseInt lit = Some n → int64_range n.
Proof.
  unfold Strconv.ParseInt, int64_range.
  destruct (match lit with [] => None | _ => _ end) as [v|]; [|done].
  destruct (_ && _) eqn:E; [|done]. intros [= <-]. lia.
Qed.

Lemma valid_utf8_of_bytes s : well_formed s → valid_utf8 (String.string_of_list_byte s).
Proof. unfold valid_utf8. by rewrite String.list_byte_of_string_of_list_byte. Qed.

Lemma storeMember_clean t failed m :
  clean t → value_ok m.2 → clean (storeMember (t, failed) m).1.
Proof.
  intros (Hu & Hf & Hs) Hm. destruct m as [key v]. unfold storeMember, clean. simpl in *.
  destruct (fieldOf key) as [[| |]|]; [| | |done].
  - destruct v; simpl; try done. split; [by apply valid_utf8_of_bytes | done].
  - destruct v; simpl; try done. split; [done|]. split; [by apply valid_utf8_of_bytes | done].
  - destruct v as [| | lit | | |]; simpl; try done.
    destruct (Strconv.ParseInt lit) as [n|] eqn:E; simpl; [|done].
    split; [done|]. split; [done|]. by eapply ParseInt_range.
Qed.

Lemma fold_storeMember_clean ms : ∀ st,
  clean st.1 → Forall (λ m, value_ok m.2) ms → clean (fold_left storeMember ms st).1.
Proof.
  induction ms as [| m ms IH]; intros [t failed] Ht Hms; simpl; [done|].
  inversion Hms; subst. apply IH; [|done]. by apply storeMember_clean.
Qed.

Lemma clean_zero : clean (mkFileToken "" "" 0).
Proof. split; [apply wf_nil|]. split; [apply wf_nil|]. unfold int64_range. simpl. lia. Qed.

Lemma unmarshal_clean data t : unmarshal data = inl t → clean t.
Proof.
  unfold unmarshal, parse.
  destruct (parseValue _ 0 data) as [[v rest]|] eqn:E; [|done].
  destruct (proj1 (parse_values_ok _) _ _ _ _ E) as [_ Hms].
  destruct (skipSpace rest); [|done].
  destruct v as [| | | | | ms]; try done.
  - intros [= <-]. apply clean_zero.
  - pose proof (fold_storeMember_clean ms (mkFileToken "" "" 0, false) clean_zero
                  (Hms ms eq_refl)) as Hc.
    destruct (fold_left storeMember ms _) as [t' failed]. destruct failed; [done|].
    by intros [= <-].
Qed.

(** X29. Whatever decodes, decodes to a clean token, and encoding is a
    right inverse of decoding: when [DecodeToken] accepts a string, the
    user name and the file name it returns hold well-formed UTF-8, the
    size is an [int64], and the token that [EncodeToken] makes of the
    three decodes to the same three. *)
Theorem DecodeToken_clean (token : string) (t : FileToken) :
  DecodeToken token = inl t →
  clean t
  ∧ DecodeToken (EncodeToken (Username t) (Filename t) (Size t)) = inl t.
Proof.
  unfold DecodeToken at 1. destruct (DecodeString token) as [data|]; [|done].
  destruct (unmarshal data) as [t'|] eqn:E; [|done]. intros [= <-].
  pose proof (unmarshal_clean _ _ E) as (Hu & Hf & Hs).
  split; [done|]. unfold DecodeToken, EncodeToken.
  rewrite DecodeString_EncodeToString, unmarshal_marshal by done. by destruct t'.
Qed.

Lemma DecodeToken_clean_witness :
  clean (mkFileToken "" "" 0)
  ∧ DecodeToken (EncodeToken "" "" 0) = inl (mkFileToken "" "" 0).
Proof.
  assert (DecodeToken "e30=" = inl (mkFileToken "" "" 0)) as H by (vm_compute; reflexivity).
  exact (DecodeToken_clean "e30=" (mkFileToken "" "" 0) H).
Defined.

End TokenProperties.
